(** * resume-formatter: the DOCX table matcher, rewriter and extractor

    A shallow embedding of [src/docx_modifier.py] (class [DocXMLModifier]),
    of the table part of [src/docx_parser.py] (class [DocxXMLParser]) and of
    the schema check of [src/openai_handler.py], with the properties the
    specification states about them; then of the style and paragraph parts
    of the extractor, of what [src/openai_handler.py] does with the answers
    of the language service, and of the loop of [src/generate_resume.py]
    that reads the job description, with properties of their own.

    Conventions of the embedding.
    - A Python [str] is a [string]; a character stands for the code point
      with the same number, so texts range over the code points below 256,
      where [str.lower] works character by character.
    - An [xml.etree.ElementTree.Element] is a mutable object: it lives in a
      store ([heap]) and is named by its location; [remove] compares
      children by identity, which is equality of locations.
    - A method that mutates elements or raises is a computation in the
      monad [Py], which threads the store and stops at the first exception,
      keeping the store as it was when the exception was raised. *)

From Stdlib Require Import String Ascii NArith Arith Bool Lia.
From stdpp Require Import list strings gmap.

(** ** Text *)

Module Text.

(** [str.isspace] on one character, which is also what [\s] matches in a
    [str] pattern: TAB..CR, FS..US, SPACE, NEL and NBSP below 256. *)
Definition isspace (c : ascii) : bool :=
  let n := N_of_ascii c in
  ((9 <=? n) && (n <=? 13) || (28 <=? n) && (n <=? 32)
   || (n =? 133) || (n =? 160))%N.

(** [str.lower] on one character: A..Z and the Latin-1 capitals
    (U+00C0..U+00DE without the multiplication sign U+00D7) move up by 32. *)
Definition lower_char (c : ascii) : ascii :=
  let n := N_of_ascii c in
  if ((65 <=? n) && (n <=? 90)
      || (192 <=? n) && (n <=? 222) && negb (n =? 215))%N
  then ascii_of_N (n + 32) else c.

(** [s.lower()] *)
Fixpoint lower (s : string) : string :=
  match s with
  | EmptyString => EmptyString
  | String c s' => String (lower_char c) (lower s')
  end.

(** [s.lstrip()] *)
Fixpoint lstrip (s : string) : string :=
  match s with
  | EmptyString => EmptyString
  | String c s' => if isspace c then lstrip s' else s
  end.

(** [s.rstrip()] *)
Fixpoint rstrip (s : string) : string :=
  match s with
  | EmptyString => EmptyString
  | String c s' =>
      match rstrip s' with
      | EmptyString => if isspace c then EmptyString else String c EmptyString
      | r => String c r
      end
  end.

(** [s.strip()] *)
Definition strip (s : string) : string := rstrip (lstrip s).

(** [re.sub(r"\s+", " ", s)]: every maximal run of whitespace becomes one
    space. [in_run] tells that the previous character was whitespace. *)
Fixpoint sub_ws_from (in_run : bool) (s : string) : string :=
  match s with
  | EmptyString => EmptyString
  | String c s' =>
      if isspace c
      then if in_run then sub_ws_from true s'
           else String " "%char (sub_ws_from true s')
      else String c (sub_ws_from false s')
  end.

Definition sub_ws (s : string) : string := sub_ws_from false s.

(** [sub in s] *)
Fixpoint contains (sub s : string) : bool :=
  String.prefix sub s
  || match s with
     | EmptyString => false
     | String _ s' => contains sub s'
     end.

(** A Python [str] is truthy when it is not empty. *)
Definition truthy (s : string) : bool :=
  match s with EmptyString => false | _ => true end.

(** [sep.join(parts)] *)
Fixpoint join (sep : string) (parts : list string) : string :=
  match parts with
  | [] => EmptyString
  | [p] => p
  | p :: ps => p +:+ sep +:+ join sep ps
  end.

End Text.

(** [DocXMLModifier._normalize_text] *)
Definition _normalize_text (text : string) : string :=
  Text.sub_ws (Text.strip (Text.lower text)).

(** ** The content schema

    A JSON object is read with [dict.get(key, default)] or [dict[key]], so a
    record field is [None] when the key is missing. *)

Record BulletPoint := {
  bullet_text : option string;
  bullet_keywords : option (list string)
}.

Record ResumeSection := {
  sec_title : option string;
  sec_company : option string;
  sec_bullet_points : option (list BulletPoint)
}.

Record ContentSchema := {
  experiences : option (list ResumeSection);
  projects : option (list ResumeSection)
}.

(** [d.get(key, dflt)] *)
Definition dict_get {A : Type} (field : option A) (dflt : A) : A :=
  match field with Some v => v | None => dflt end.

(** ** The section matcher *)

(** The inner loop of [_find_matching_section]: [bullet_matches] counts the
    bullets whose normalized text occurs in the normalized table text. *)
Fixpoint count_bullet_matches (table_text : string)
    (bullets : list BulletPoint) (bullet_matches : nat) : nat :=
  match bullets with
  | [] => bullet_matches
  | bullet :: rest =>
      let normalized_bullet := _normalize_text (dict_get (bullet_text bullet) "") in
      count_bullet_matches table_text rest
        (if Text.contains normalized_bullet table_text
         then S bullet_matches else bullet_matches)
  end.

(** The fallback of one loop iteration. The test
    [bullet_matches / total_bullets >= 0.5] divides two list lengths; the
    quotient of two such integers rounds to 0.5 or more exactly when
    [total_bullets <= 2 * bullet_matches]. *)
Definition bullet_fallback (table_text : string) (section : ResumeSection) : bool :=
  let bullets := dict_get (sec_bullet_points section) [] in
  let total_bullets := length bullets in
  if 0 <? total_bullets
  then total_bullets <=? 2 * count_bullet_matches table_text bullets 0
  else false.

(** One iteration of the loop of [_find_matching_section]: [true] when the
    body returns [section]. [table_text] is already normalized. *)
Definition section_returned (table_text : string) (section : ResumeSection) : bool :=
  let title := _normalize_text (dict_get (sec_title section) "") in
  let company := _normalize_text (dict_get (sec_company section) "") in
  if Text.truthy title && Text.truthy company then
    if Text.contains title table_text && Text.contains company table_text
    then true
    else bullet_fallback table_text section
  else if Text.truthy title && Text.contains title table_text then true
  else bullet_fallback table_text section.

Fixpoint first_returned (table_text : string) (sections : list ResumeSection)
    : option ResumeSection :=
  match sections with
  | [] => None
  | section :: rest =>
      if section_returned table_text section then Some section
      else first_returned table_text rest
  end.

(** [DocXMLModifier._find_matching_section] *)
Definition _find_matching_section (table_text : string)
    (sections : list ResumeSection) : option ResumeSection :=
  first_returned (_normalize_text table_text) sections.

(** ** Elements in a store *)

Abbreviation loc := nat.

(** An [Element] object: its tag (a qualified name [{uri}local]), its
    attributes, its text and the locations of its children, in order. *)
Record Element := {
  tag : string;
  attrib : list (string * string);
  text : option string;
  children : list loc
}.

Abbreviation heap := (list Element).

(** A document as a value: what [ET.tostring] writes and [ET.fromstring]
    reads. A node has a tag, attributes, a text and children. The text that
    follows an element (its tail) is not represented: the documents meant
    here have none, as in WordprocessingML, where character data lives in
    text elements only. Nodes carry a label: none ([unit]) in a document value,
    the location of the element where the proofs describe a store. *)
#[local] Set Warnings "-register-all".
Inductive tree (L : Type) : Type :=
  Node (l : L) (t : string) (a : list (string * string))
       (x : option string) (kids : list (tree L)).
Arguments Node {L} l t a x kids.

Abbreviation xml := (tree unit).
Abbreviation Xml t a x kids := (Node tt t a x kids).

Inductive exn :=
  IndexError | KeyError | ValueError | ParseError | RecursionError | RetryError.

Inductive outcome (A : Type) :=
  | Returned (a : A)
  | Raised (e : exn).
Arguments Returned {A} a.
Arguments Raised {A} e.

(** Computations over the store that may raise. *)
Definition Py (A : Type) : Type := heap → heap * outcome A.

Definition ret {A : Type} (a : A) : Py A := λ h, (h, Returned a).
Definition raise {A : Type} (e : exn) : Py A := λ h, (h, Raised e).
Definition bind {A B : Type} (m : Py A) (k : A → Py B) : Py B :=
  λ h, match m h with
       | (h', Returned a) => k a h'
       | (h', Raised e) => (h', Raised e)
       end.

Declare Scope py_scope.
Delimit Scope py_scope with py.
Bind Scope py_scope with Py.
Notation "'let!' x ':=' m 'in' k" := (bind m (λ x, k))
  (at level 10, x name, m at level 100, k at level 200) : py_scope.
Notation "m ';;' k" := (bind m (λ _, k))
  (at level 100, k at level 200, right associativity) : py_scope.
Local Open Scope py_scope.

(** The namespace map of both classes: prefix [w]. *)
Definition w (local : string) : string :=
  "{http://schemas.openxmlformats.org/wordprocessingml/2006/main}" +:+ local.

Module ET.

(** [elem.iter()]: the element and its descendants in document order. The
    store of a parsed document is a forest, in which no element is deeper
    than the store is long; [fuel] is that bound. *)
Fixpoint iter (fuel : nat) (h : heap) (l : loc) : list loc :=
  match fuel with
  | 0 => []
  | S fuel' =>
      match h !! l with
      | None => []
      | Some e => l :: flat_map (iter fuel' h) (children e)
      end
  end.

Definition has_tag (h : heap) (t : string) (l : loc) : bool :=
  match h !! l with
  | Some e => String.eqb (tag e) t
  | None => false
  end.

(** [elem.findall(".//prefix:local", namespaces)]: the proper descendants
    with that tag, in document order. *)
Definition findall_in (h : heap) (t : string) (l : loc) : list loc :=
  List.filter (has_tag h t) (tail (iter (length h) h l)).

(** [elem.find(".//prefix:local", namespaces)] *)
Definition find_in (h : heap) (t : string) (l : loc) : option loc :=
  head (findall_in h t l).

Definition findall (t : string) (l : loc) : Py (list loc) :=
  λ h, (h, Returned (findall_in h t l)).

Definition find (t : string) (l : loc) : Py (option loc) :=
  λ h, (h, Returned (find_in h t l)).

(** [elem.text] *)
Definition text_in (h : heap) (l : loc) : option string :=
  match h !! l with Some e => text e | None => None end.

Definition children_in (h : heap) (l : loc) : list loc :=
  match h !! l with Some e => children e | None => [] end.

Definition set_children (cs : list loc) (e : Element) : Element :=
  {| tag := tag e; attrib := attrib e; text := text e; children := cs |}.

Definition set_text (s : string) (e : Element) : Element :=
  {| tag := tag e; attrib := attrib e; text := Some s; children := children e |}.

(** [ET.Element(tag)]: a fresh element with no attribute, text or child. *)
Definition Element_new (t : string) : Py loc :=
  λ h, (h ++ [ {| tag := t; attrib := []; text := None; children := [] |} ],
        Returned (length h)).

(** [parent.append(child)] *)
Definition append (parent child : loc) : Py unit :=
  λ h, (alter (λ e, set_children (children e ++ [child]) e) parent h,
        Returned tt).

(** [elem.text = s] *)
Definition assign_text (l : loc) (s : string) : Py unit :=
  λ h, (alter (set_text s) l h, Returned tt).

(** Drops the first occurrence of the location [x]. *)
Fixpoint remove_first (x : loc) (ls : list loc) : list loc :=
  match ls with
  | [] => []
  | y :: ls' => if Nat.eqb x y then ls' else y :: remove_first x ls'
  end.

Definition is_child (x : loc) (ls : list loc) : bool :=
  existsb (Nat.eqb x) ls.

(** [parent.remove(child)]: removes the child that is this very object, and
    raises [ValueError] when it is not a direct child. *)
Definition remove (parent child : loc) : Py unit :=
  λ h, if is_child child (children_in h parent)
       then (alter (λ e, set_children (remove_first child (children e)) e) parent h,
             Returned tt)
       else (h, Raised ValueError).

(** [ET.tostring(elem)], as the document value it writes. The serializer
    recurses on the children; [None] is its recursion limit. *)
Fixpoint tostring_in (fuel : nat) (h : heap) (l : loc) : option xml :=
  match fuel with
  | 0 => None
  | S fuel' =>
      match h !! l with
      | None => None
      | Some e =>
          match mapM (tostring_in fuel' h) (children e) with
          | Some kids => Some (Xml (tag e) (attrib e) (text e) kids)
          | None => None
          end
      end
  end.

(** A character the XML parser accepts in character data. *)
Definition xml_char (c : ascii) : bool :=
  let n := N_of_ascii c in
  ((n =? 9) || (n =? 10) || (n =? 13) || (32 <=? n))%N.

Fixpoint xml_chars (s : string) : bool :=
  match s with
  | EmptyString => true
  | String c s' => xml_char c && xml_chars s'
  end.

(** The parser's end-of-line handling: CR LF and a lone CR become LF. *)
Fixpoint newlines (s : string) : string :=
  match s with
  | EmptyString => EmptyString
  | String c s' =>
      if Ascii.eqb c "013"%char then
        match s' with
        | String c' s'' =>
            if Ascii.eqb c' "010"%char then String "010"%char (newlines s'')
            else String "010"%char (newlines s')
        | EmptyString => String "010"%char EmptyString
        end
      else String c (newlines s')
  end.

(** The text an element has after being written and read again: an empty
    text is not written at all; [None] at the top is a parse error. *)
Definition reread_text (x : option string) : option (option string) :=
  match x with
  | None => Some None
  | Some s =>
      if xml_chars s
      then Some (if Text.truthy s then Some (newlines s) else None)
      else None
  end.

(** The document value [ET.fromstring] builds from what [ET.tostring]
    wrote, or [None] for a parse error. *)
Fixpoint reread (d : xml) : option xml :=
  match d with
  | Node _ t a x kids =>
      match reread_text x, mapM reread kids with
      | Some x', Some kids' => Some (Xml t a x' kids')
      | _, _ => None
      end
  end.

(** Allocates the elements of a document value, children before parent, and
    gives the location of its root. *)
Fixpoint load (d : xml) (h : heap) : loc * heap :=
  match d with
  | Node _ t a x kids =>
      let '(cs, h1) :=
        (fix load_all (ds : list xml) (h : heap) : list loc * heap :=
           match ds with
           | [] => ([], h)
           | d' :: ds' =>
               let '(c, h') := load d' h in
               let '(cs, h'') := load_all ds' h' in
               (c :: cs, h'')
           end) kids h in
      (length h1, h1 ++ [ {| tag := t; attrib := a; text := x; children := cs |} ])
  end.

(** [ET.fromstring(ET.tostring(elem))]: an independent deep copy. *)
Definition clone (l : loc) : Py loc :=
  λ h, match tostring_in (length h) h l with
       | None => (h, Raised RecursionError)
       | Some d =>
           match reread d with
           | None => (h, Raised ParseError)
           | Some d' => let '(r, h') := load d' h in (h', Returned r)
           end
       end.

End ET.

(** ** The table rewriter: class [DocXMLModifier] *)

(** The list comprehension shared by [_extract_table_text] and
    [_extract_row_text]:
    [[t.text.strip() for t in text_elements if t.text and t.text.strip()]] *)
Fixpoint stripped_texts (h : heap) (text_elements : list loc) : list string :=
  match text_elements with
  | [] => []
  | t :: rest =>
      match ET.text_in h t with
      | Some s =>
          if Text.truthy s && Text.truthy (Text.strip s)
          then Text.strip s :: stripped_texts h rest
          else stripped_texts h rest
      | None => stripped_texts h rest
      end
  end.

(** [DocXMLModifier._extract_table_text] *)
Definition _extract_table_text (table : loc) : Py string :=
  let! text_elements := ET.findall (w "t") table in
  λ h, (h, Returned (Text.join " " (stripped_texts h text_elements))).

(** [DocXMLModifier._extract_row_text] *)
Definition _extract_row_text (row : loc) : Py string :=
  let! text_elements := ET.findall (w "t") row in
  λ h, (h, Returned (Text.join " " (stripped_texts h text_elements))).

(** [DocXMLModifier._update_row_content] *)
Definition _update_row_content (row : loc) (new_text : string) : Py unit :=
  let! cell := ET.find (w "tc") row in
  match cell with
  | None => ret tt
  | Some cell =>
      let! paragraph := ET.find (w "p") cell in
      match paragraph with
      | None => ret tt
      | Some paragraph =>
          let! p_pr := ET.find (w "pPr") paragraph in
          let! existing_run := ET.find (w "r") paragraph in
          let! r_pr :=
            match existing_run with
            | Some existing_run => ET.find (w "rPr") existing_run
            | None => ret None
            end in
          let! new_paragraph := ET.Element_new (w "p") in
          match p_pr with
          | Some p_pr => ET.append new_paragraph p_pr
          | None => ret tt
          end;;
          let! run := ET.Element_new (w "r") in
          match r_pr with
          | Some r_pr => ET.append run r_pr
          | None => ret tt
          end;;
          let! text := ET.Element_new (w "t") in
          ET.assign_text text new_text;;
          ET.append run text;;
          ET.append new_paragraph run;;
          ET.remove cell paragraph;;
          ET.append cell new_paragraph
      end
  end.

(** [bullet_points[i]["text"]] for an index in range: [KeyError] when the
    bullet has no [text]. *)
Definition bullet_text_item (bullet : BulletPoint) : Py string :=
  match bullet_text bullet with
  | Some s => ret s
  | None => raise KeyError
  end.

(** The first loop of [_update_table_content]:
    [for i, row in enumerate(bullet_rows)], from index [i] on. *)
Fixpoint update_or_remove_rows (table : loc) (bullet_points : list BulletPoint)
    (i : nat) (bullet_rows : list loc) : Py unit :=
  match bullet_rows with
  | [] => ret tt
  | row :: rest =>
      match bullet_points !! i with
      | Some bullet =>
          let! new_text := bullet_text_item bullet in
          _update_row_content row new_text
      | None => ET.remove table row
      end;;
      update_or_remove_rows table bullet_points (S i) rest
  end.

(** The second loop of [_update_table_content]:
    [for i in range(len(bullet_rows), len(bullet_points))], as the bullets
    from index [len(bullet_rows)] on. *)
Fixpoint add_new_rows (table : loc) (bullet_rows : list loc)
    (new_bullets : list BulletPoint) : Py unit :=
  match new_bullets with
  | [] => ret tt
  | bullet :: rest =>
      let! template_row :=
        match last bullet_rows with
        | Some last_row => ET.clone last_row
        | None => raise IndexError
        end in
      let! new_text := bullet_text_item bullet in
      _update_row_content template_row new_text;;
      ET.append table template_row;;
      add_new_rows table bullet_rows rest
  end.

(** The header test of [_update_table_content]: the index of the first
    bullet row. *)
Definition start_row_index (section : ResumeSection) (first_row_text : string) : nat :=
  if Text.contains (dict_get (sec_title section) "") first_row_text
     || Text.contains (dict_get (sec_company section) "") first_row_text
  then 1 else 0.

(** Lines 181 to 197 of [_update_table_content]: the rows the two loops
    work on; [rows[0]] raises [IndexError] on a table without rows. *)
Definition select_bullet_rows (table : loc) (section : ResumeSection)
    : Py (list loc) :=
  let! rows := ET.findall (w "tr") table in
  match rows with
  | [] => raise IndexError
  | first_row :: _ =>
      let! first_row_text := _extract_row_text first_row in
      ret (drop (start_row_index section first_row_text) rows)
  end.

(** [DocXMLModifier._update_table_content] *)
Definition _update_table_content (table : loc) (section : ResumeSection)
    : Py unit :=
  let bullet_points := dict_get (sec_bullet_points section) [] in
  let! bullet_rows := select_bullet_rows table section in
  update_or_remove_rows table bullet_points 0 bullet_rows;;
  add_new_rows table bullet_rows (drop (length bullet_rows) bullet_points).

(** The loop of [_modify_sections] over the tables found at the start. *)
Fixpoint modify_tables (tables : list loc) (all_sections : list ResumeSection)
    : Py unit :=
  match tables with
  | [] => ret tt
  | table :: rest =>
      let! table_text := _extract_table_text table in
      match _find_matching_section table_text all_sections with
      | Some matched_section => _update_table_content table matched_section
      | None => ret tt
      end;;
      modify_tables rest all_sections
  end.

(** [DocXMLModifier._modify_sections] *)
Definition _modify_sections (root : loc) (all_sections : list ResumeSection)
    : Py unit :=
  let! tables := ET.findall (w "tbl") root in
  modify_tables tables all_sections.

(** [DocXMLModifier.modify_docx], between parsing [word/document.xml] into
    the store and writing it back: [root] is the parsed document. *)
Definition modify_docx (tailored_schema : ContentSchema) (root : loc) : Py unit :=
  _modify_sections root
    (dict_get (experiences tailored_schema) []
     ++ dict_get (projects tailored_schema) []).

(** ** The structure extractor: class [DocxXMLParser] *)

(** An entry of [structure["tables"]]. *)
Record TableInfo := {
  rows : list (list string);
  total_rows : nat;
  total_columns : nat
}.

(** The generator [[t.text for t in texts if t.text]]. *)
Fixpoint truthy_texts (h : heap) (texts : list loc) : list string :=
  match texts with
  | [] => []
  | t :: rest =>
      match ET.text_in h t with
      | Some s => if Text.truthy s then s :: truthy_texts h rest
                  else truthy_texts h rest
      | None => truthy_texts h rest
      end
  end.

(** [DocxXMLParser._extract_paragraph_text] *)
Definition _extract_paragraph_text (h : heap) (element : loc) : string :=
  match ET.findall_in h (w "t") element with
  | [] => ""
  | texts => Text.join "" (truthy_texts h texts)
  end.

(** The loop [for cell in cells] of [_parse_tables], appending to
    [row_text]. *)
Fixpoint parse_cells (h : heap) (cells : list loc) (row_text : list string)
    : list string :=
  match cells with
  | [] => row_text
  | cell :: rest =>
      parse_cells h rest (row_text ++ [_extract_paragraph_text h cell])
  end.

(** The loop [for row in rows] of [_parse_tables], updating [table_info]. *)
Fixpoint parse_rows (h : heap) (row_elements : list loc) (table_info : TableInfo)
    : TableInfo :=
  match row_elements with
  | [] => table_info
  | row :: rest =>
      let cells := ET.findall_in h (w "tc") row in
      let row_text := parse_cells h cells [] in
      parse_rows h rest
        {| rows := rows table_info ++ [row_text];
           total_rows := total_rows table_info;
           total_columns := Nat.max (total_columns table_info) (length cells) |}
  end.

(** The body of the loop [for table in tables] of [_parse_tables]. *)
Definition parse_table (h : heap) (table : loc) : TableInfo :=
  let row_elements := ET.findall_in h (w "tr") table in
  parse_rows h row_elements
    {| rows := []; total_rows := length row_elements; total_columns := 0 |}.

Fixpoint parse_table_list (h : heap) (tables : list loc)
    (structure_tables : list TableInfo) : list TableInfo :=
  match tables with
  | [] => structure_tables
  | table :: rest =>
      parse_table_list h rest (structure_tables ++ [parse_table h table])
  end.

(** [DocxXMLParser._parse_tables], as the new value of
    [structure["tables"]]. *)
Definition _parse_tables (h : heap) (root : loc)
    (structure_tables : list TableInfo) : list TableInfo :=
  parse_table_list h (ET.findall_in h (w "tbl") root) structure_tables.

(** ** The schema check of the tailoring pipeline *)

(** [all(key in bullet for key in ["text", "keywords"])] *)
Definition bullet_has_required (bullet : BulletPoint) : bool :=
  match bullet_text bullet, bullet_keywords bullet with
  | Some _, Some _ => true
  | _, _ => false
  end.

(** The loop over [schema["experiences"]] (and the same loop over
    [schema["projects"]]) of [_validate_schema]. *)
Fixpoint validate_entries (entries : list ResumeSection) : outcome unit :=
  match entries with
  | [] => Returned tt
  | entry :: rest =>
      match sec_bullet_points entry with
      | None => Raised ValueError
      | Some bullets =>
          if forallb bullet_has_required bullets
          then validate_entries rest
          else Raised ValueError
      end
  end.

(** [OpenAIHandler._validate_schema] *)
Definition _validate_schema (schema : ContentSchema) : outcome unit :=
  match experiences schema, projects schema with
  | Some exps, Some projs =>
      match validate_entries exps with
      | Returned _ => validate_entries projs
      | Raised e => Raised e
      end
  | _, _ => Raised ValueError
  end.

(** ** The tailoring pipeline *)

(** The body of [OpenAIHandler.tailor_resume] from the answer of the
    language service on. The answer is the JSON object that [json.loads]
    reads from it, or [None] when it is no JSON, for which the body raises
    [ValueError]; an object is returned once [_validate_schema] has
    accepted it. *)
Definition tailor_resume_once (answer : option ContentSchema)
    : outcome ContentSchema :=
  match answer with
  | None => Raised ValueError
  | Some tailored_schema =>
      match _validate_schema tailored_schema with
      | Returned _ => Returned tailored_schema
      | Raised e => Raised e
      end
  end.

(** [@retry(stop=stop_after_attempt(3), wait=...)] on [tailor_resume]: an
    attempt that raises is followed by a new one, which asks the service
    again, until an attempt returns or [attempts] of them have raised; then
    the decorator raises [RetryError] (it is not told to raise the last
    exception again). [service n] is the answer to request [n]; the waits
    between the attempts are not represented. *)
Fixpoint retry_tailor_resume (attempts : nat) (request : nat)
    (service : nat → option ContentSchema) : outcome ContentSchema :=
  match attempts with
  | 0 => Raised RetryError
  | S attempts' =>
      match tailor_resume_once (service request) with
      | Returned tailored_schema => Returned tailored_schema
      | Raised _ => retry_tailor_resume attempts' (S request) service
      end
  end.

(** [OpenAIHandler.tailor_resume] as its callers see it. *)
Definition tailor_resume (service : nat → option ContentSchema)
    : outcome ContentSchema :=
  retry_tailor_resume 3 0 service.

(** [ResumeTailoringSystem.generate_tailored_resume] from its call of
    [tailor_resume] on: the schema that [tailor_resume] returns is given to
    [modify_docx], which rewrites the parsed document [root]; an exception
    of [tailor_resume] ends the run. *)
Definition generate_tailored_resume (service : nat → option ContentSchema)
    (root : loc) : Py unit :=
  match tailor_resume service with
  | Raised e => raise e
  | Returned tailored_schema => modify_docx tailored_schema root
  end.

(** ** Notions used by the statements and the proofs *)

(** [tidy b s]: [s] has no whitespace but single spaces, none of them last,
    and none of them first when [b] holds: the shape of a normalized
    text. *)
Fixpoint tidy (b : bool) (s : string) : Prop :=
  match s with
  | EmptyString => b = false
  | String c s' =>
      if Text.isspace c then c = " "%char ∧ b = false ∧ tidy true s'
      else tidy false s'
  end.

(** The matching rules in the words of the specification, for a normalized
    table text [tt]. Rule 1: title and company, both non-empty, both
    occurring in the table text. *)
Definition rule_title_company (tt : string) (s : ResumeSection) : bool :=
  let title := _normalize_text (dict_get (sec_title s) "") in
  let company := _normalize_text (dict_get (sec_company s) "") in
  Text.truthy title && Text.truthy company
  && Text.contains title tt && Text.contains company tt.

(** Rule 2 as the specification words it: a non-empty title occurring in
    the table text, company not required. *)
Definition rule_title (tt : string) (s : ResumeSection) : bool :=
  let title := _normalize_text (dict_get (sec_title s) "") in
  Text.truthy title && Text.contains title tt.

(** Rule 2 as the code applies it: only for a section whose normalized
    company is empty. *)
Definition rule_title_only (tt : string) (s : ResumeSection) : bool :=
  let company := _normalize_text (dict_get (sec_company s) "") in
  negb (Text.truthy company) && rule_title tt s.

(** The bullets of a section whose normalized text occurs in the table
    text. *)
Definition matching_bullets (tt : string) (s : ResumeSection) : list BulletPoint :=
  List.filter
    (λ b, Text.contains (_normalize_text (dict_get (bullet_text b) "")) tt)
    (dict_get (sec_bullet_points s) []).

(** Rule 3: at least one bullet, and at least half of them occurring. *)
Definition rule_bullets (tt : string) (s : ResumeSection) : bool :=
  let total := length (dict_get (sec_bullet_points s) []) in
  (0 <? total) && (total <=? 2 * length (matching_bullets tt s)).

Definition satisfies_rules (tt : string) (s : ResumeSection) : bool :=
  rule_title_company tt s || rule_title_only tt s || rule_bullets tt s.

(** What [_update_row_content] captures from the paragraph it replaces:
    [p_pr], and [r_pr] of the first run. *)
Definition captured_p_pr (h : heap) (paragraph : loc) : option loc :=
  ET.find_in h (w "pPr") paragraph.

Definition captured_r_pr (h : heap) (paragraph : loc) : option loc :=
  match ET.find_in h (w "r") paragraph with
  | Some existing_run => ET.find_in h (w "rPr") existing_run
  | None => None
  end.

(** The elements [_update_row_content] creates, as they are when it
    returns: the new paragraph at [n], its run at [n + 1] and the text node
    of the run at [n + 2]. *)
Definition new_paragraph_element (p_pr : option loc) (n : nat) : Element :=
  {| tag := w "p"; attrib := []; text := None;
     children := option_list p_pr ++ [S n] |}.

Definition new_run_element (r_pr : option loc) (n : nat) : Element :=
  {| tag := w "r"; attrib := []; text := None;
     children := option_list r_pr ++ [S (S n)] |}.

Definition new_text_element (new_text : string) : Element :=
  {| tag := w "t"; attrib := []; text := Some new_text; children := [] |}.

Definition created_elements (p_pr r_pr : option loc) (n : nat)
    (new_text : string) : list Element :=
  [ new_paragraph_element p_pr n; new_run_element r_pr n;
    new_text_element new_text ].

(** [_extract_row_text] as a function of the store. *)
Definition raw_row_text (h : heap) (row : loc) : string :=
  Text.join " " (stripped_texts h (ET.findall_in h (w "t") row)).

(** [sub] occurs in [s]. *)
Definition occurs_in (sub s : string) : Prop :=
  ∃ pre post, s = pre +:+ sub +:+ post.

(** The concatenation of the texts of text nodes, a node without text
    counting as empty. *)
Fixpoint concat_texts (h : heap) (texts : list loc) : string :=
  match texts with
  | [] => ""
  | t :: rest => dict_get (ET.text_in h t) "" +:+ concat_texts h rest
  end.

(** A schema the specification calls invalid: [experiences] or [projects]
    is missing, or a section has no [bullet_points], or a bullet has no
    [text]. *)
Definition section_invalid (s : ResumeSection) : Prop :=
  match sec_bullet_points s with
  | None => True
  | Some bullets => ∃ b, b ∈ bullets ∧ bullet_text b = None
  end.

Definition schema_invalid (schema : ContentSchema) : Prop :=
  match experiences schema, projects schema with
  | Some exps, Some projs => ∃ s, s ∈ exps ++ projs ∧ section_invalid s
  | _, _ => True
  end.


(** ** Documents as trees

    Functions on trees with any labels: on document values, and on trees
    labelled with locations, which describe the part of a store below an
    element. *)

Module Tree.

Section Generic.
Context {L : Type}.

Definition label (d : tree L) : L := match d with Node l _ _ _ _ => l end.
Definition tag_of (d : tree L) : string := match d with Node _ t _ _ _ => t end.
Definition attrib_of (d : tree L) : list (string * string) :=
  match d with Node _ _ a _ _ => a end.
Definition text_of (d : tree L) : option string :=
  match d with Node _ _ _ x _ => x end.
Definition kids (d : tree L) : list (tree L) :=
  match d with Node _ _ _ _ ks => ks end.

(** The node and its descendants, in document order. *)
Fixpoint pre (d : tree L) : list (tree L) :=
  d :: match d with Node _ _ _ _ ks => flat_map pre ks end.

(** The number of nodes on the longest path down from the node. *)
Fixpoint height (d : tree L) : nat :=
  match d with Node _ _ _ _ ks => S (max_list (map height ks)) end.

Definition has_tag (t : string) (d : tree L) : bool :=
  String.eqb (tag_of d) t.

(** The first node, in document order, of the trees [ds] that satisfies
    [P]. *)
Definition find_first (P : tree L → bool) (ds : list (tree L)) : option (tree L) :=
  head (List.filter P (flat_map pre ds)).

(** The first node of [ds] in document order that satisfies [P], when it is
    one of the trees [ds] themselves and not a node inside one. *)
Fixpoint top_first (P : tree L → bool) (ds : list (tree L)) : option (tree L) :=
  match ds with
  | [] => None
  | d :: ds' =>
      if P d then Some d
      else if existsb P (pre d) then None
      else top_first P ds'
  end.

(** [ds] without the first of its trees that satisfies [P]. *)
Fixpoint remove_top (P : tree L → bool) (ds : list (tree L)) : list (tree L) :=
  match ds with
  | [] => []
  | d :: ds' => if P d then ds' else d :: remove_top P ds'
  end.

(** [ds] with [rep] applied to the first of its trees that has a node
    satisfying [P]. *)
Definition replace_in_forest (P : tree L → bool) (rep : tree L → tree L)
    : list (tree L) → list (tree L) :=
  fix go ds :=
    match ds with
    | [] => []
    | d :: ds' =>
        if existsb P (pre d) then rep d :: ds' else d :: go ds'
    end.

(** [d] with its first node in document order that satisfies [P] replaced
    by [new]. *)
Fixpoint replace_first (P : tree L → bool) (new : tree L) (d : tree L) : tree L :=
  if P d then new
  else match d with
       | Node l t a x ks =>
           Node l t a x (replace_in_forest P (replace_first P new) ks)
       end.

(** The row update of [_update_row_content] as a function on trees: the
    updated row, or [None] where the update raises [ValueError]. The three
    new nodes are labelled [f1], [f2] and [f3]. *)
Definition updated_row (f1 f2 f3 : L) (new_text : string) (row : tree L)
    : option (tree L) :=
  match find_first (has_tag (w "tc")) (kids row) with
  | None => Some row
  | Some cell =>
      match find_first (has_tag (w "p")) (kids cell) with
      | None => Some row
      | Some paragraph =>
          match top_first (has_tag (w "p")) (kids cell) with
          | None => None
          | Some _ =>
              let p_pr := find_first (has_tag (w "pPr")) (kids paragraph) in
              let r_pr :=
                match find_first (has_tag (w "r")) (kids paragraph) with
                | Some existing_run =>
                    find_first (has_tag (w "rPr")) (kids existing_run)
                | None => None
                end in
              let text := Node f3 (w "t") [] (Some new_text) [] in
              let run := Node f2 (w "r") [] None (option_list r_pr ++ [text]) in
              let new_paragraph :=
                Node f1 (w "p") [] None (option_list p_pr ++ [run]) in
              let new_cell :=
                Node (label cell) (tag_of cell) (attrib_of cell) (text_of cell)
                  (remove_top (has_tag (w "p")) (kids cell) ++ [new_paragraph]) in
              Some (Node (label row) (tag_of row) (attrib_of row) (text_of row)
                      (replace_in_forest (has_tag (w "tc"))
                         (replace_first (has_tag (w "tc")) new_cell)
                         (kids row)))
          end
      end
  end.

End Generic.

(** The same tree with other labels. *)
Fixpoint relabel {L M : Type} (g : L → M) (d : tree L) : tree M :=
  match d with Node l t a x ks => Node (g l) t a x (map (relabel g) ks) end.

(** The document value of a labelled tree. *)
Definition erase {L : Type} (d : tree L) : xml := relabel (λ _, tt) d.

(** The locations of a tree of elements, in document order. *)
Definition locs (d : tree loc) : list loc := map label (pre d).

(** The store holds the root of [d] as [d] describes it. *)
Definition node_ok (h : heap) (d : tree loc) : Prop :=
  h !! label d
  = Some {| tag := tag_of d; attrib := attrib_of d; text := text_of d;
            children := map label (kids d) |}.

(** The store holds every element of [d] as [d] describes it. *)
Definition shape (h : heap) (d : tree loc) : Prop :=
  Forall (node_ok h) (pre d).

(** Induction on document trees, with the hypothesis for every child. *)
Section Induction.
Context {L : Type} (P : tree L → Prop).
Hypothesis step : ∀ l t a x ks, Forall P ks → P (Node l t a x ks).

Fixpoint tree_ind_kids (d : tree L) : P d :=
  match d with
  | Node l t a x ks =>
      step l t a x ks
        ((fix go (ks : list (tree L)) : Forall P ks :=
            match ks with
            | [] => @List.Forall_nil _ P
            | k :: ks' => @List.Forall_cons _ P k ks' (tree_ind_kids k) (go ks')
            end) ks)
  end.
End Induction.

(** The tree that the store holds at [l], every element with its location. *)
Fixpoint located (fuel : nat) (h : heap) (l : loc) : option (tree loc) :=
  match fuel with
  | 0 => None
  | S fuel' =>
      match h !! l with
      | None => None
      | Some e =>
          match mapM (located fuel' h) (children e) with
          | Some ks => Some (Node l (tag e) (attrib e) (text e) ks)
          | None => None
          end
      end
  end.

End Tree.

(** The children left after removing, one after the other, the first
    occurrence of each location of [ls]. *)
Definition remove_all (ls cs : list loc) : list loc :=
  fold_left (λ cs r, ET.remove_first r cs) ls cs.

(** The row from which the second loop of [_update_table_content] clones
    new rows, as [ET.fromstring] reads it: the last bullet row, updated with
    the text of the bullet at its index. *)
Definition template_row (bullet_rows : list xml) (texts : list string)
    : option xml :=
  match last bullet_rows, texts !! (length bullet_rows - 1) with
  | Some last_row, Some s =>
      match Tree.updated_row tt tt tt s last_row with
      | Some updated => ET.reread updated
      | None => None
      end
  | _, _ => None
  end.

(** Every element of the first store is in the second one, with its tag. *)
Definition tags_kept (h h' : heap) : Prop :=
  ∀ l e, h !! l = Some e → ∃ e', h' !! l = Some e' ∧ tag e' = tag e.

(** The state of a row after the first loop: the store holds it as [r'],
    which is the updated row. *)
Definition row_updated (h1 h2 : heap) (p : tree loc * string) (r' : tree loc) : Prop :=
  Tree.shape h2 r'
  ∧ Tree.label r' = Tree.label p.1
  ∧ Tree.updated_row tt tt tt p.2 (Tree.erase p.1) = Some (Tree.erase r')
  ∧ Tree.height r' ≤ length h2
  ∧ (∀ l, l ∈ Tree.locs r' → l ∈ Tree.locs p.1 ∨ length h1 ≤ l).

(** A new row of the second loop: the store holds it as [dc], which is the
    template updated with the text of its bullet. *)
Definition row_added (h1 h2 : heap) (template : xml) (c : loc) (s : string) : Prop :=
  ∃ dc,
    Tree.shape h2 dc ∧ Tree.label dc = c ∧ Tree.height dc ≤ length h2
    ∧ Tree.updated_row tt tt tt s template = Some (Tree.erase dc)
    ∧ (∀ l, l ∈ Tree.locs dc → length h1 ≤ l).

(** The rows of a table whose rows are all its own children, and their
    split by header detection, [first] being the first of them:
    [rows[:start_row_index]] and [bullet_rows = rows[start_row_index:]]. *)
Definition table_rows (tbl : tree loc) : list (tree loc) :=
  List.filter (Tree.has_tag (w "tr")) (Tree.kids tbl).

Definition header_rows_of (h : heap) (section : ResumeSection)
    (first tbl : tree loc) : list (tree loc) :=
  take (start_row_index section (raw_row_text h (Tree.label first)))
       (table_rows tbl).

Definition bullet_rows_of (h : heap) (section : ResumeSection)
    (first tbl : tree loc) : list (tree loc) :=
  drop (start_row_index section (raw_row_text h (Tree.label first)))
       (table_rows tbl).

(** ** Sample documents *)

Module Sample.

Definition elem (local : string) (kids : list xml) : xml :=
  Xml (w local) [] None kids.

Definition t (s : string) : xml := Xml (w "t") [] (Some s) [].

Definition bold : xml := elem "rPr" [elem "b" []].

Definition centered : xml :=
  elem "pPr" [Xml (w "jc") [("val", "center")] None []].

(** A one-cell row with one formatted paragraph. *)
Definition bullet_row (s : string) : xml :=
  elem "tr" [elem "tc" [elem "tcPr" [];
                        elem "p" [centered; elem "r" [bold; t s]]]].

(** A one-cell row whose cell has two paragraphs. *)
Definition two_paragraph_row (s1 s2 : string) : xml :=
  elem "tr" [elem "tc" [elem "p" [elem "r" [t s1]; elem "r" [t "tail"]];
                        elem "p" [elem "r" [t s2]]]].

(** A row whose cell holds its paragraph inside a content control. *)
Definition nested_paragraph_row (s : string) : xml :=
  elem "tr" [elem "tc" [elem "sdt" [elem "p" [elem "r" [t s]]]]].

Definition table (table_rows : list xml) : xml := elem "tbl" table_rows.

Definition document (tables : list xml) : xml :=
  elem "document" [elem "body" tables].

Definition bullet (s : string) : BulletPoint :=
  {| bullet_text := Some s; bullet_keywords := Some [] |}.

Definition engineer (bullets : list BulletPoint) : ResumeSection :=
  {| sec_title := Some "Software Engineer"; sec_company := Some "Tech Corp";
     sec_bullet_points := Some bullets |}.

(** A section without title and company, with four bullets. *)
Definition four_bullets (a b c d : string) : ResumeSection :=
  {| sec_title := None; sec_company := None;
     sec_bullet_points :=
       Some (map (λ x, {| bullet_text := Some x; bullet_keywords := Some [] |})
               [a; b; c; d]) |}.

(** The store and root after parsing a document value. *)
Definition parsed (d : xml) : heap := snd (ET.load d []).
Definition root_of (d : xml) : loc := fst (ET.load d []).

(** The parsed document value as the store holds it, every element with its
    location. *)
Definition located (d : xml) : tree loc :=
  default (Node 0 "" [] None [])
          (Tree.located (length (parsed d)) (parsed d) (root_of d)).

(** What a computation leaves at [l], written back as a document value. *)
Definition written (l : loc) (r : heap * outcome unit) : option xml :=
  ET.tostring_in (length (fst r)) (fst r) l.

End Sample.

(** ** The rest of the extractor: styles and paragraphs *)

(** [elem.get(key)]: the value of the attribute [key], or [None]. *)
Fixpoint attrib_get (key : string) (attributes : list (string * string))
    : option string :=
  match attributes with
  | [] => None
  | (k, v) :: rest => if String.eqb k key then Some v else attrib_get key rest
  end.

Definition Element_get (h : heap) (l : loc) (key : string) : option string :=
  match h !! l with
  | Some e => attrib_get key (attrib e)
  | None => None
  end.

(** A value of [structure["styles"]]; [None] is JSON's [null]. *)
Record StyleInfo := {
  style_name : option string;
  style_type : option string
}.

(** The body of the loop [for style in styles] of [_parse_styles], on
    [structure["styles"]]. *)
Definition parse_style (h : heap) (style : loc)
    (structure_styles : gmap string StyleInfo) : gmap string StyleInfo :=
  let style_id := Element_get h style (w "styleId") in
  let name := ET.find_in h (w "name") style in
  match style_id, name with
  | Some style_id, Some name =>
      if Text.truthy style_id
      then <[style_id := {| style_name := Element_get h name (w "val");
                            style_type := Element_get h style (w "type") |}]>
             structure_styles
      else structure_styles
  | _, _ => structure_styles
  end.

Fixpoint parse_style_list (h : heap) (styles : list loc)
    (structure_styles : gmap string StyleInfo) : gmap string StyleInfo :=
  match styles with
  | [] => structure_styles
  | style :: rest => parse_style_list h rest (parse_style h style structure_styles)
  end.

(** [DocxXMLParser._parse_styles], from the parsed [word/styles.xml] on:
    [root] is its root element. *)
Definition _parse_styles (h : heap) (root : loc)
    (structure_styles : gmap string StyleInfo) : gmap string StyleInfo :=
  parse_style_list h (ET.findall_in h (w "style") root) structure_styles.

(** An entry of [structure["paragraphs"]]. *)
Record ParagraphInfo := {
  para_text : string;
  para_style : option string;
  char_count : nat
}.

(** The dictionary [paragraph_info] of [_parse_paragraphs]. *)
Definition paragraph_info (h : heap) (para : loc) : ParagraphInfo :=
  let text := _extract_paragraph_text h para in
  {| para_text := text;
     para_style :=
       match ET.find_in h (w "pStyle") para with
       | Some style => Element_get h style (w "val")
       | None => None
       end;
     char_count := String.length text |}.

(** The loop of [_parse_paragraphs]. [structure_paragraphs] is
    [structure["paragraphs"]], [None] when [structure] has no such key:
    the subscript then raises [KeyError]. *)
Fixpoint parse_paragraph_list (h : heap) (paragraphs : list loc)
    (structure_paragraphs : option (list ParagraphInfo))
    : outcome (option (list ParagraphInfo)) :=
  match paragraphs with
  | [] => Returned structure_paragraphs
  | para :: rest =>
      match structure_paragraphs with
      | Some infos =>
          parse_paragraph_list h rest (Some (infos ++ [paragraph_info h para]))
      | None => Raised KeyError
      end
  end.

(** [DocxXMLParser._parse_paragraphs] *)
Definition _parse_paragraphs (h : heap) (root : loc)
    (structure_paragraphs : option (list ParagraphInfo))
    : outcome (option (list ParagraphInfo)) :=
  parse_paragraph_list h (ET.findall_in h (w "p") root) structure_paragraphs.

(** ** The answers of the language service: class [OpenAIHandler] *)

Module PyStr.

(** [s.split(sep)] for a separator of one character. *)
Fixpoint split (sep : ascii) (s : string) : list string :=
  match s with
  | EmptyString => [EmptyString]
  | String c s' =>
      if Ascii.eqb c sep then EmptyString :: split sep s'
      else match split sep s' with
           | part :: parts => String c part :: parts
           | [] => [String c EmptyString]
           end
  end.

(** [s.replace(old, new)] for a non-empty [old]: the occurrences of [old]
    are found from left to right and do not overlap; [skip] characters of
    the occurrence found last are still to pass. *)
Fixpoint replace_from (old new : string) (skip : nat) (s : string) : string :=
  match s with
  | EmptyString => EmptyString
  | String c s' =>
      match skip with
      | S skip' => replace_from old new skip' s'
      | 0 =>
          if String.prefix old (String c s')
          then new +:+ replace_from old new (String.length old - 1) s'
          else String c (replace_from old new 0 s')
      end
  end.

(** [s.replace("", new)]: [new] before every character and at the end. *)
Fixpoint interleave (new : string) (s : string) : string :=
  match s with
  | EmptyString => new
  | String c s' => new +:+ String c (interleave new s')
  end.

(** [s.replace(old, new)] *)
Definition replace (old new : string) (s : string) : string :=
  match old with
  | EmptyString => interleave new s
  | _ => replace_from old new 0 s
  end.

End PyStr.

(** The list built from the answer in [get_keywords]:
    [[keyword.strip() for keyword in content.split(",")]] *)
Definition keywords_of_answer (content : string) : list string :=
  map Text.strip (PyStr.split ","%char content).

(** [', '.join(keywords)], as [tailor_resume] writes the keywords into its
    prompt. *)
Definition keywords_in_prompt (keywords : list string) : string :=
  Text.join ", " keywords.

(** [response_text] of [tailor_resume], as it is given to [json.loads]:
    [content.strip().replace("```json", "").replace("```", "").strip()] *)
Definition response_text (content : string) : string :=
  Text.strip
    (PyStr.replace "```" ""
       (PyStr.replace "```json" "" (Text.strip content))).

(** ** Reading the job description: [main] of [generate_resume.py] *)

(** The loop [while empty_line_count < 2] of [main]. [stdin] holds the lines
    that [input()] will return, in order; [input()] raises [EOFError] when
    none is left, which is [None] here. The result is
    [job_description_lines] with the lines not yet read. *)
Fixpoint read_job_description (stdin : list string) (empty_line_count : nat)
    (job_description_lines : list string)
    : option (list string * list string) :=
  if 2 <=? empty_line_count then Some (job_description_lines, stdin)
  else
    match stdin with
    | [] => None
    | typed :: rest =>
        let line := Text.strip typed in
        if Text.truthy line
        then read_job_description rest 0 (job_description_lines ++ [line])
        else read_job_description rest (S empty_line_count) job_description_lines
    end.

(** What [main] does with the lines read. *)
Inductive job_request :=
  | NoDescription
  | Tailor (job_description : string).

(** [main] from [job_description_lines = []] to the call of
    [generate_tailored_resume]: [Some NoDescription] is the exit with
    [Error: Job description cannot be empty]. *)
Definition job_description_of (stdin : list string) : option job_request :=
  match read_job_description stdin 0 [] with
  | None => None
  | Some (job_description_lines, _) =>
      let job_description := Text.join " " job_description_lines in
      if Text.truthy job_description then Some (Tailor job_description)
      else Some NoDescription
  end.

(** ** Notions used to state the properties below *)

(** The text [_extract_table_text] returns for a table of the store. *)
Definition raw_table_text (h : heap) (table : loc) : string :=
  Text.join " " (stripped_texts h (ET.findall_in h (w "t") table)).

(** The computation [m] raises the exception [e] from no store. *)
Definition never_raises {A : Type} (e : exn) (m : Py A) : Prop :=
  ∀ h, snd (m h) ≠ Raised e.

(** A bullet with [text] and [keywords]; a section with [bullet_points]
    whose bullets all have both. *)
Definition bullet_complete (b : BulletPoint) : Prop :=
  is_Some (bullet_text b) ∧ is_Some (bullet_keywords b).

Definition section_complete (s : ResumeSection) : Prop :=
  ∃ bullets, sec_bullet_points s = Some bullets ∧ Forall bullet_complete bullets.

(** The number of occurrences of the character [c] in [s]. *)
Fixpoint occurrences (c : ascii) (s : string) : nat :=
  match s with
  | EmptyString => 0
  | String d s' => (if Ascii.eqb d c then 1 else 0) + occurrences c s'
  end.

(** The number of backticks that [s] starts with. *)
Fixpoint ticks (s : string) : nat :=
  match s with
  | EmptyString => 0
  | String c s' => if Ascii.eqb c "`"%char then S (ticks s') else 0
  end.

(** A typed line that [main] counts as empty: [not line.strip()]. *)
Definition blank_line (typed : string) : bool :=
  negb (Text.truthy (Text.strip typed)).

(** Every element of the store [h] is in [h'] with its tag, its attributes
    and its text, and with its children too unless it is a cell or a
    table. *)
Definition kept_but_cells_and_tables (h h' : heap) : Prop :=
  ∀ l e, h !! l = Some e →
    ∃ e', h' !! l = Some e'
          ∧ tag e' = tag e ∧ attrib e' = attrib e ∧ text e' = text e
          ∧ (tag e ≠ w "tc" → tag e ≠ w "tbl" → children e' = children e).

(** ** Sample style definitions *)

Module SampleStyles.

Definition style (style_id type name : string) : xml :=
  Xml (w "style") [(w "styleId", style_id); (w "type", type)] None
      [Xml (w "name") [(w "val", name)] None []].

Definition styles (definitions : list xml) : xml :=
  Xml (w "styles") [] None definitions.

(** Two definitions with the same identifier. *)
Definition heading_twice : xml :=
  styles [style "Heading1" "paragraph" "heading 1";
          style "Heading1" "character" "Heading 1 Char"].

End SampleStyles.


(** * Properties *)

(** ** Normalization *)

Module TextFacts.
Import Text.

Lemma isspace_lower_char c : isspace (lower_char c) = isspace c.
Proof. destruct c as [[] [] [] [] [] [] [] []]; reflexivity. Qed.

Lemma lower_char_idem c : lower_char (lower_char c) = lower_char c.
Proof. destruct c as [[] [] [] [] [] [] [] []]; reflexivity. Qed.

Lemma lower_idem s : lower (lower s) = lower s.
Proof. induction s as [|c s IH]; simpl; [done|]. by rewrite lower_char_idem, IH. Qed.

Lemma lower_lstrip s : lower (lstrip s) = lstrip (lower s).
Proof.
  induction s as [|c s IH]; simpl; [done|].
  rewrite isspace_lower_char. by destruct (isspace c).
Qed.

Lemma lower_rstrip s : lower (rstrip s) = rstrip (lower s).
Proof.
  induction s as [|c s IH]; simpl; [done|].
  rewrite <- IH, isspace_lower_char.
  destruct (rstrip s); simpl; [|done]. by destruct (isspace c).
Qed.

Lemma lower_sub_ws_from r s : lower (sub_ws_from r s) = sub_ws_from r (lower s).
Proof.
  revert r; induction s as [|c s IH]; intros r; simpl; [done|].
  rewrite isspace_lower_char.
  destruct (isspace c); [destruct r|]; simpl; by rewrite ?IH.
Qed.

Lemma lower_normalize x : lower (_normalize_text x) = _normalize_text x.
Proof.
  unfold _normalize_text, sub_ws, strip.
  by rewrite lower_sub_ws_from, lower_rstrip, lower_lstrip, lower_idem.
Qed.

Lemma rstrip_cons_fixed c s :
  rstrip (String c s) = String c s →
  rstrip s = s ∧ (s = EmptyString → isspace c = false).
Proof.
  simpl. destruct (rstrip s) as [|c' r] eqn:E.
  - destruct (isspace c) eqn:Ec; [discriminate|].
    intros [= <-]. done.
  - intros [= <-]. done.
Qed.

Lemma rstrip_idem s : rstrip (rstrip s) = rstrip s.
Proof.
  induction s as [|c s IH]; simpl; [done|].
  destruct (rstrip s) as [|c' r] eqn:E.
  - destruct (isspace c) eqn:Ec; simpl; [done|]. by rewrite Ec.
  - simpl in *. by rewrite IH.
Qed.

Lemma lstrip_head s :
  match lstrip s with EmptyString => True | String c _ => isspace c = false end.
Proof.
  induction s as [|c s IH]; simpl; [done|].
  destruct (isspace c) eqn:Ec; [done|]. simpl. done.
Qed.

Lemma rstrip_head c s :
  isspace c = false → ∃ r, rstrip (String c s) = String c r.
Proof.
  intros Hc. simpl. destruct (rstrip s); [rewrite Hc|]; eauto.
Qed.

Lemma strip_shape s :
  rstrip (strip s) = strip s ∧
  match strip s with EmptyString => True | String c _ => isspace c = false end.
Proof.
  unfold strip. split; [apply rstrip_idem|].
  pose proof (lstrip_head s) as H.
  destruct (lstrip s) as [|c u]; [done|].
  destruct (rstrip_head c u H) as [r ->]. done.
Qed.

Lemma sub_ws_from_tidy s r :
  rstrip s = s → (r = true → s ≠ EmptyString) → tidy r (sub_ws_from r s).
Proof.
  revert r; induction s as [|c s IH]; intros r Hs Hr; simpl.
  - destruct r; [by destruct Hr|done].
  - apply rstrip_cons_fixed in Hs as [Hs Hc].
    destruct (isspace c) eqn:Ec.
    + assert (s ≠ EmptyString) by (intros ->; by specialize (Hc eq_refl)).
      destruct r; [by apply IH|].
      simpl. split_and!; [done..|]. by apply IH.
    + simpl. rewrite Ec. apply IH; [done|]. intros [=].
Qed.

Lemma normalize_tidy x :
  _normalize_text x = EmptyString ∨ tidy true (_normalize_text x).
Proof.
  unfold _normalize_text, sub_ws.
  destruct (strip_shape (lower x)) as [Hr Hh].
  destruct (strip (lower x)) as [|c s] eqn:E; [by left|right].
  simpl. rewrite Hh. simpl. rewrite Hh.
  apply rstrip_cons_fixed in Hr as [Hr _].
  apply sub_ws_from_tidy; [done|]. intros [=].
Qed.

Lemma tidy_sub_ws_from b s r :
  tidy b s → b = true ∨ r = false → sub_ws_from r s = s.
Proof.
  revert b r; induction s as [|c s IH]; intros b r Ht Hb; simpl in *; [done|].
  destruct (isspace c) eqn:Ec.
  - destruct Ht as (-> & -> & Ht). destruct Hb as [Hb | Hb]; [done|subst r].
    f_equal. by apply (IH true); [|left].
  - f_equal. by apply (IH false); [|right].
Qed.

Lemma tidy_rstrip b s : tidy b s → rstrip s = s.
Proof.
  revert b; induction s as [|c s IH]; intros b Ht; simpl in *; [done|].
  destruct (isspace c) eqn:Ec.
  - destruct Ht as (_ & _ & Ht). rewrite (IH _ Ht).
    destruct s; [simpl in Ht; discriminate|done].
  - rewrite (IH _ Ht). destruct s; [by rewrite ?Ec|done].
Qed.

Lemma tidy_lstrip s : tidy true s → lstrip s = s.
Proof.
  destruct s as [|c s]; simpl; [done|].
  destruct (isspace c); [|done]. intros (_ & H & _). discriminate H.
Qed.

(** What [sub in s] decides: [s] is [sub] between two other texts. *)
Lemma prefix_spec sub s :
  String.prefix sub s = true ↔ ∃ post, s = sub +:+ post.
Proof.
  revert sub; induction s as [|d s IH]; intros [|c sub]; simpl.
  - split; [intros _; by exists EmptyString|done].
  - split; [done|]. by intros [post [=]].
  - split; [intros _; by eexists|done].
  - destruct (Ascii.ascii_dec c d) as [->|Hne].
    + rewrite IH. split; intros [post Hp]; exists post; [by rewrite Hp|].
      by injection Hp.
    + split; [done|]. intros [post [= ? ?]]. done.
Qed.

Lemma contains_spec sub s :
  contains sub s = true ↔ ∃ pre post, s = pre +:+ sub +:+ post.
Proof.
  induction s as [|d s IH]; cbn [contains]; rewrite orb_true_iff, prefix_spec.
  - split.
    + intros [[post Hp]|[=]]. by exists EmptyString, post.
    + intros (pre & post & Hp). left. destruct pre; [by exists post|done].
  - rewrite IH. split.
    + intros [[post Hp]|(pre & post & Hp)].
      * by exists EmptyString, post.
      * exists (String d pre), post. simpl. by rewrite Hp.
    + intros (pre & post & Hp). destruct pre as [|e pre]; simpl in Hp.
      * left. by exists post.
      * right. injection Hp as _ Hp. by exists pre, post.
Qed.

End TextFacts.

(** C8. Normalization (lowercase, trim, collapse every whitespace run to one
    space) is idempotent: normalizing a normalized text changes nothing. *)
Theorem normalize_text_idempotent (x : string) :
  _normalize_text (_normalize_text x) = _normalize_text x.
Proof.
  unfold _normalize_text at 1. rewrite TextFacts.lower_normalize.
  destruct (TextFacts.normalize_tidy x) as [-> | Ht]; [done|].
  unfold Text.strip.
  rewrite (TextFacts.tidy_lstrip _ Ht), (TextFacts.tidy_rstrip _ _ Ht).
  by apply (TextFacts.tidy_sub_ws_from true); [|left].
Qed.

(** ** The section matcher *)

Lemma count_bullet_matches_filter tt bullets n :
  count_bullet_matches tt bullets n
  = n + length (List.filter
                  (λ b, Text.contains (_normalize_text (dict_get (bullet_text b) "")) tt)
                  bullets).
Proof.
  revert n; induction bullets as [|b bullets IH]; intros n; simpl; [lia|].
  rewrite IH. destruct (Text.contains _ tt); simpl; lia.
Qed.

Lemma bullet_fallback_rule tt s : bullet_fallback tt s = rule_bullets tt s.
Proof.
  unfold bullet_fallback, rule_bullets, matching_bullets.
  rewrite count_bullet_matches_filter. simpl.
  by destruct (0 <? _).
Qed.

Lemma section_returned_rules tt s : section_returned tt s = satisfies_rules tt s.
Proof.
  unfold section_returned, satisfies_rules, rule_title_company, rule_title_only,
    rule_title.
  rewrite bullet_fallback_rule.
  destruct (Text.truthy (_normalize_text (dict_get (sec_title s) "")));
    destruct (Text.truthy (_normalize_text (dict_get (sec_company s) "")));
    destruct (Text.contains (_normalize_text (dict_get (sec_title s) "")) tt);
    destruct (Text.contains (_normalize_text (dict_get (sec_company s) "")) tt);
    reflexivity.
Qed.

Lemma first_returned_find tt sections :
  first_returned tt sections = List.find (satisfies_rules tt) sections.
Proof.
  induction sections as [|s sections IH]; simpl; [done|].
  by rewrite section_returned_rules, IH.
Qed.

(** C2, amended. The matcher returns the first section, in list order, that
    satisfies rule 1 (title and company, both non-empty, both in the table
    text), or rule 2 for a section whose normalized company is empty (a
    non-empty title in the table text), or rule 3 (the bullet fallback). *)
Theorem find_matching_section_first (table_text : string)
    (sections : list ResumeSection) :
  _find_matching_section table_text sections
  = List.find (satisfies_rules (_normalize_text table_text)) sections.
Proof. apply first_returned_find. Qed.

(** C2 fails as stated: a section whose non-empty company is not in the
    table text is not matched by its title alone, although the non-empty
    title occurs in the table text. *)
Lemma title_alone_with_company_no_match :
  let s := {| sec_title := Some "Engineer"; sec_company := Some "Acme";
              sec_bullet_points :=
                Some [ {| bullet_text := Some "Led the team";
                          bullet_keywords := Some [] |} ] |} in
  let tt := _normalize_text "Senior Engineer" in
  Text.truthy (_normalize_text "Acme") = true
  ∧ Text.contains (_normalize_text "Acme") tt = false
  ∧ rule_title tt s = true
  ∧ _find_matching_section "Senior Engineer" [s] = None.
Proof. vm_compute. done. Qed.

(** C6. For a section that satisfies neither rule 1 nor rule 2 and has at
    least one bullet, the matcher returns the section exactly when at least
    half of its bullets occur, normalized, in the normalized table text. *)
Theorem fallback_matches_iff_half (table_text : string) (s : ResumeSection) :
  let tt := _normalize_text table_text in
  rule_title_company tt s = false →
  rule_title tt s = false →
  0 < length (dict_get (sec_bullet_points s) []) →
  _find_matching_section table_text [s] = Some s
  ↔ length (dict_get (sec_bullet_points s) []) ≤ 2 * length (matching_bullets tt s).
Proof.
  intros tt H1 H2 Hn. unfold _find_matching_section. fold tt. simpl.
  rewrite section_returned_rules. unfold satisfies_rules, rule_title_only.
  rewrite H1, H2, andb_false_r. simpl. unfold rule_bullets.
  apply Nat.ltb_lt in Hn. rewrite Hn. cbn [andb].
  destruct (_ <=? _) eqn:E.
  - apply Nat.leb_le in E. done.
  - apply Nat.leb_gt in E. split; [done|lia].
Qed.

(** Three of four bullets in the table text: a match. *)
Lemma fallback_three_of_four :
  _find_matching_section "Led X. Built Y. Shipped Z."
    [Sample.four_bullets "led x" "built y" "shipped z" "sold w"]
  = Some (Sample.four_bullets "led x" "built y" "shipped z" "sold w").
Proof.
  apply (fallback_matches_iff_half "Led X. Built Y. Shipped Z."
           (Sample.four_bullets "led x" "built y" "shipped z" "sold w"));
    vm_compute; (reflexivity || lia).
Defined.

(** One of four bullets in the table text: no match. *)
Example fallback_one_of_four :
  _find_matching_section "Led X. Built Y. Shipped Z."
    [Sample.four_bullets "led x" "ran v" "grew u" "sold w"] = None.
Proof. reflexivity. Qed.

(** ** Store primitives *)

Module HeapFacts.
Import ET.

Lemma alter_fresh (h : heap) (f : Element → Element) (e : Element) (tl : list Element) :
  alter f (length h) (h ++ e :: tl) = h ++ f e :: tl.
Proof. induction h as [|x h IH]; simpl; [done|]. by f_equal. Qed.

Lemma alter_fresh_mid (h : heap) (f : Element → Element) (e : Element) (tl : list Element) :
  alter f (length h) ((h ++ [e]) ++ tl) = (h ++ [f e]) ++ tl.
Proof. rewrite <- !app_assoc. apply alter_fresh. Qed.

Lemma append_option_fresh (h : heap) (e : Element) (o : option loc) :
  (match o with
   | Some x => append (length h) x
   | None => ret tt
   end) (h ++ [e])
  = (h ++ [set_children (children e ++ option_list o) e], Returned tt).
Proof.
  destruct o as [x|]; unfold append, ret; simpl option_list.
  - by rewrite alter_fresh.
  - rewrite app_nil_r. by destruct e.
Qed.

Lemma alter_old (h : heap) (f : Element → Element) (l : loc) (tl : list Element) :
  l < length h → alter f l (h ++ tl) = alter f l h ++ tl.
Proof.
  revert l; induction h as [|x h IH]; intros l Hl; simpl in *; [lia|].
  destruct l as [|l]; simpl; [done|]. f_equal. apply IH. lia.
Qed.

Lemma alter_alter (h : heap) (f g : Element → Element) (l : loc) :
  alter f l (alter g l h) = alter (f ∘ g) l h.
Proof.
  revert l; induction h as [|x h IH]; intros l; [done|].
  destruct l as [|l]; simpl; [done|]. f_equal. apply IH.
Qed.

Lemma has_tag_Some h t l :
  has_tag h t l = true ↔ ∃ e, h !! l = Some e ∧ tag e = t.
Proof.
  unfold has_tag. destruct (h !! l) as [e|]; split.
  - intros H%String.eqb_eq. eauto.
  - intros (e' & [= <-] & H). by apply String.eqb_eq.
  - done.
  - by intros (e' & [=] & _).
Qed.

Lemma findall_in_has_tag h t l x :
  x ∈ findall_in h t l → ∃ e, h !! x = Some e ∧ tag e = t.
Proof.
  unfold findall_in. rewrite list_elem_of_In, filter_In.
  intros [_ H]. by apply has_tag_Some.
Qed.

Lemma find_in_has_tag h t l x :
  find_in h t l = Some x → ∃ e, h !! x = Some e ∧ tag e = t.
Proof.
  unfold find_in. intros H. apply (findall_in_has_tag h t l).
  destruct (findall_in h t l); [done|]. injection H as ->. left.
Qed.

Lemma find_in_lt h t l x : find_in h t l = Some x → x < length h.
Proof.
  intros (e & He & _)%find_in_has_tag. by apply lookup_lt_Some in He.
Qed.

Lemma children_in_app_old (h tl : heap) l :
  l < length h → children_in (h ++ tl) l = children_in h l.
Proof. intros Hl. unfold children_in. by rewrite lookup_app_l. Qed.

Lemma is_child_elem x ls : is_child x ls = true ↔ x ∈ ls.
Proof.
  unfold is_child. rewrite existsb_exists. split.
  - intros (y & Hy & ->%Nat.eqb_eq). by apply list_elem_of_In.
  - intros H. exists x. split; [by apply list_elem_of_In|apply Nat.eqb_refl].
Qed.

End HeapFacts.

(** What [_update_row_content] does to the store once it has found the
    cell and the paragraph. *)
Lemma update_row_content_steps (h : heap) (row cell paragraph : loc) (new_text : string) :
  ET.find_in h (w "tc") row = Some cell →
  ET.find_in h (w "p") cell = Some paragraph →
  let p_pr := captured_p_pr h paragraph in
  let r_pr := captured_r_pr h paragraph in
  let n := length h in
  let created := created_elements p_pr r_pr n new_text in
  _update_row_content row new_text h
  = if ET.is_child paragraph (ET.children_in h cell)
    then (alter (λ e, ET.set_children
                        (ET.remove_first paragraph (children e) ++ [n]) e)
            cell h ++ created,
          Returned tt)
    else (h ++ created, Raised ValueError).
Proof.
  intros Hc Hp p_pr r_pr n created.
  assert (cell < length h) as Hlt by eauto using HeapFacts.find_in_lt.
  assert ((match ET.find_in h (w "r") paragraph with
           | Some existing_run => ET.find (w "rPr") existing_run
           | None => ret None
           end) h = (h, Returned r_pr)) as Hr.
  { subst r_pr. unfold captured_r_pr.
    by destruct (ET.find_in h (w "r") paragraph). }
  unfold _update_row_content, bind at 1, ET.find at 1. rewrite Hc.
  unfold bind at 1, ET.find at 1. rewrite Hp.
  unfold bind at 1, ET.find at 1. fold (captured_p_pr h paragraph). fold p_pr.
  unfold bind at 1, ET.find at 1.
  unfold bind at 1. rewrite Hr. clear Hr.
  subst created. unfold created_elements. generalize p_pr r_pr. clear p_pr r_pr. intros p_pr r_pr.
  unfold bind at 1, ET.Element_new at 1.
  unfold bind at 1. rewrite HeapFacts.append_option_fresh.
  unfold bind at 1, ET.Element_new at 1.
  unfold bind at 1. rewrite HeapFacts.append_option_fresh.
  unfold bind, ET.Element_new, ET.append, ET.assign_text, ET.remove.
  rewrite (HeapFacts.alter_fresh _ _ _ []).
  rewrite HeapFacts.alter_fresh_mid.
  rewrite <- (app_assoc (h ++ [_])).
  rewrite HeapFacts.alter_fresh_mid.
  rewrite <- (app_assoc h).
  rewrite HeapFacts.children_in_app_old by done.
  destruct (ET.is_child paragraph (ET.children_in h cell)).
  - rewrite !HeapFacts.alter_old by (by rewrite ?length_alter).
    rewrite HeapFacts.alter_alter. subst n. simpl.
    rewrite !length_app. simpl. rewrite !Nat.add_1_r. reflexivity.
  - subst n. simpl. rewrite !length_app. simpl. rewrite !Nat.add_1_r. reflexivity.
Qed.

(** The two early returns of [_update_row_content]. *)
Lemma update_row_content_early_return (h : heap) (row : loc) (new_text : string) :
  ET.find_in h (w "tc") row = None
  ∨ (∃ cell, ET.find_in h (w "tc") row = Some cell
             ∧ ET.find_in h (w "p") cell = None) →
  _update_row_content row new_text h = (h, Returned tt).
Proof.
  unfold _update_row_content, bind, ET.find, ret.
  intros [-> | (cell & -> & ->)]; reflexivity.
Qed.

(** ** Rewriting one row *)

(** C7. A row that has no cell, or whose first cell has no paragraph, is
    left untouched by the row update: the store is unchanged and nothing is
    raised. *)
Theorem malformed_row_untouched (h : heap) (row : loc) (new_text : string) :
  ET.find_in h (w "tc") row = None
  ∨ (∃ cell, ET.find_in h (w "tc") row = Some cell
             ∧ ET.find_in h (w "p") cell = None) →
  _update_row_content row new_text h = (h, Returned tt).
Proof.
  unfold _update_row_content, bind, ET.find, ret.
  intros [-> | (cell & -> & ->)]; reflexivity.
Qed.

Lemma malformed_row_untouched_cellless :
  let d := Sample.elem "tr" [Sample.elem "trPr" []] in
  _update_row_content (Sample.root_of d) "Led X" (Sample.parsed d)
  = (Sample.parsed d, Returned tt).
Proof.
  apply malformed_row_untouched. left. reflexivity.
Defined.

(** C4, amended. When the first paragraph found beneath the first cell of a
    row is a direct child of that cell, the row update returns and leaves:
    a new paragraph holding the captured paragraph properties (if any)
    followed by one new run, which holds the captured run properties of the
    first run (if any) followed by one text node with the new text; the
    cell with the old paragraph removed and the new one appended after its
    remaining children; every other element as it was. *)
Theorem update_row_replaces_first_paragraph (h : heap)
    (row cell paragraph : loc) (e : Element) (new_text : string) :
  ET.find_in h (w "tc") row = Some cell →
  ET.find_in h (w "p") cell = Some paragraph →
  h !! cell = Some e →
  paragraph ∈ children e →
  let n := length h in
  ∃ h',
    _update_row_content row new_text h = (h', Returned tt)
    ∧ h' !! cell
      = Some (ET.set_children (ET.remove_first paragraph (children e) ++ [n]) e)
    ∧ h' !! n = Some (new_paragraph_element (captured_p_pr h paragraph) n)
    ∧ h' !! S n = Some (new_run_element (captured_r_pr h paragraph) n)
    ∧ h' !! S (S n) = Some (new_text_element new_text)
    ∧ length h' = 3 + n
    ∧ ∀ l, l < n → l ≠ cell → h' !! l = h !! l.
Proof.
  intros Hc Hp He Hin n.
  assert (cell < length h) as Hlt by (by apply lookup_lt_Some in He).
  eexists. split.
  { rewrite (update_row_content_steps h row cell paragraph) by done.
    unfold ET.children_in. rewrite He.
    apply HeapFacts.is_child_elem in Hin. rewrite Hin. reflexivity. }
  fold n. unfold created_elements.
  assert (length (alter (λ e0, ET.set_children
            (ET.remove_first paragraph (children e0) ++ [n]) e0) cell h) = n)
    as Hlen by apply length_alter.
  split_and!.
  - rewrite lookup_app_l by lia. rewrite list_lookup_alter_eq, He. done.
  - rewrite lookup_app_r by lia. rewrite Hlen, Nat.sub_diag. done.
  - rewrite lookup_app_r by lia. rewrite Hlen.
    replace (S n - n) with 1 by lia. done.
  - rewrite lookup_app_r by lia. rewrite Hlen.
    replace (S (S n) - n) with 2 by lia. done.
  - rewrite length_app, Hlen. simpl. lia.
  - intros l Hl Hne. rewrite lookup_app_l by lia.
    by rewrite list_lookup_alter_ne.
Qed.

Lemma update_row_replaces_first_paragraph_sample :
  let h := Sample.parsed (Sample.bullet_row "old") in
  ∃ h',
    _update_row_content 9 "Led X" h = (h', Returned tt)
    ∧ h' !! 8
      = Some {| tag := w "tc"; attrib := []; text := None; children := [0; 10] |}
    ∧ h' !! 10 = Some (new_paragraph_element (Some 2) 10)
    ∧ h' !! 11 = Some (new_run_element (Some 4) 10)
    ∧ h' !! 12 = Some (new_text_element "Led X")
    ∧ length h' = 13
    ∧ ∀ l, l < 10 → l ≠ 8 → h' !! l = h !! l.
Proof.
  apply (update_row_replaces_first_paragraph
           (Sample.parsed (Sample.bullet_row "old")) 9 8 7
           {| tag := w "tc"; attrib := []; text := None; children := [0; 7] |}
           "Led X"); vm_compute; try reflexivity.
  apply list_elem_of_In. right. left. reflexivity.
Defined.

(** C4 fails as stated: a second paragraph of the cell is not discarded. The
    update removes the first paragraph only and appends the new paragraph
    after the second one. *)
Lemma second_paragraph_kept :
  let d := Sample.two_paragraph_row "old" "second" in
  Sample.written (Sample.root_of d)
    (_update_row_content (Sample.root_of d) "Led X" (Sample.parsed d))
  = Some (Sample.elem "tr"
            [Sample.elem "tc"
               [Sample.elem "p" [Sample.elem "r" [Sample.t "second"]];
                Sample.elem "p" [Sample.elem "r" [Sample.t "Led X"]]]]).
Proof. vm_compute. reflexivity. Qed.

(** A first paragraph that is not a direct child of the cell cannot be
    removed from it: the update raises [ValueError]. *)
Example nested_paragraph_value_error :
  let d := Sample.nested_paragraph_row "old" in
  snd (_update_row_content (Sample.root_of d) "Led X" (Sample.parsed d))
  = Raised ValueError.
Proof. vm_compute. reflexivity. Qed.

(** ** Header detection *)

Lemma extract_row_text_run (h : heap) (row : loc) :
  _extract_row_text row h = (h, Returned (raw_row_text h row)).
Proof. reflexivity. Qed.

Lemma select_bullet_rows_run (h : heap) (table : loc) (section : ResumeSection) :
  select_bullet_rows table section h
  = match ET.findall_in h (w "tr") table with
    | [] => (h, Raised IndexError)
    | first_row :: rest =>
        (h, Returned (drop (start_row_index section (raw_row_text h first_row))
                        (first_row :: rest)))
    end.
Proof.
  unfold select_bullet_rows, bind, ET.findall.
  destruct (ET.findall_in h (w "tr") table); reflexivity.
Qed.

(** Header detection as the code computes it. In a table with a first
    row, the bullet rows are the rows after the first one exactly when the
    raw text of the first row contains what [section.get] gives for the
    title or for the company, which is the empty text when the key is
    missing; otherwise they are all the rows. *)
Theorem header_row_excluded_iff (h : heap) (table : loc)
    (section : ResumeSection) (first_row : loc) (rest : list loc) :
  ET.findall_in h (w "tr") table = first_row :: rest →
  let first_row_text := raw_row_text h first_row in
  let header :=
    occurs_in (dict_get (sec_title section) "") first_row_text
    ∨ occurs_in (dict_get (sec_company section) "") first_row_text in
  (header → select_bullet_rows table section h = (h, Returned rest))
  ∧ (¬ header →
     select_bullet_rows table section h = (h, Returned (first_row :: rest))).
Proof.
  intros Hrows first_row_text header.
  rewrite select_bullet_rows_run, Hrows. fold first_row_text.
  unfold start_row_index.
  destruct (Text.contains (dict_get (sec_title section) "") first_row_text
            || Text.contains (dict_get (sec_company section) "") first_row_text)
    eqn:E.
  - split; [done|]. intros Hn. destruct Hn.
    apply orb_true_iff in E as [E|E]; apply TextFacts.contains_spec in E;
      [by left|by right].
  - split; [|done]. intros [Hh|Hh]; apply TextFacts.contains_spec in Hh;
      rewrite Hh in E; [done|]. by rewrite orb_true_r in E.
Qed.

Lemma header_row_excluded_sample :
  let d := Sample.table [Sample.bullet_row "Software Engineer, Tech Corp";
                         Sample.bullet_row "old"] in
  select_bullet_rows (Sample.root_of d) (Sample.engineer []) (Sample.parsed d)
  = (Sample.parsed d, Returned [19]).
Proof.
  apply (header_row_excluded_iff
           (Sample.parsed
              (Sample.table [Sample.bullet_row "Software Engineer, Tech Corp";
                             Sample.bullet_row "old"]))
           20 (Sample.engineer []) 9 [19] eq_refl).
  left. exists "", ", Tech Corp". reflexivity.
Defined.

(** C5. The first row is to be left out of the bullet rows exactly when
    its raw text contains the title or the company of the section, as the
    comment of the code says too. The code leaves it out as well for a
    section without company, whose first row contains neither: in this
    document the table has two bullet rows and no header row, the project
    is matched by its first bullet, the first row does not contain the
    title, and yet the bullet rows start at the second row; the first row
    stays as it was and a row is added for the second bullet. *)
Theorem first_bullet_row_taken_for_header :
  let d := Sample.document
             [Sample.table [Sample.bullet_row "Built a parser";
                            Sample.bullet_row "Shipped it"]] in
  let project :=
    {| sec_title := Some "ML Pipeline"; sec_company := None;
       sec_bullet_points := Some [Sample.bullet "Built a parser";
                                  Sample.bullet "Shipped it on time"] |} in
  let schema := {| experiences := Some []; projects := Some [project] |} in
  let h := Sample.parsed d in
  ET.findall_in h (w "tbl") (Sample.root_of d) = [20]
  ∧ _find_matching_section (raw_table_text h 20) [project] = Some project
  ∧ ET.findall_in h (w "tr") 20 = [9; 19]
  ∧ raw_row_text h 9 = "Built a parser"
  ∧ Text.contains "ML Pipeline" (raw_row_text h 9) = false
  ∧ sec_company project = None
  ∧ select_bullet_rows 20 project h = (h, Returned [19])
  ∧ Sample.written (Sample.root_of d) (modify_docx schema (Sample.root_of d) h)
    = Some (Sample.document
              [Sample.table [Sample.bullet_row "Built a parser";
                             Sample.bullet_row "Built a parser";
                             Sample.bullet_row "Shipped it on time"]]).
Proof. vm_compute. by split_and!. Qed.

(** ** The structure extractor *)

Lemma parse_cells_map (h : heap) (cells : list loc) (row_text : list string) :
  parse_cells h cells row_text
  = row_text ++ map (_extract_paragraph_text h) cells.
Proof.
  revert row_text; induction cells as [|c cells IH]; intros row_text; simpl.
  - by rewrite app_nil_r.
  - by rewrite IH, <- app_assoc.
Qed.

Lemma parse_rows_closed (h : heap) (row_elements : list loc) (info : TableInfo) :
  parse_rows h row_elements info
  = {| rows := rows info
               ++ map (λ row, map (_extract_paragraph_text h)
                                (ET.findall_in h (w "tc") row)) row_elements;
       total_rows := total_rows info;
       total_columns :=
         Nat.max (total_columns info)
           (max_list (map (λ row, length (ET.findall_in h (w "tc") row))
                        row_elements)) |}.
Proof.
  revert info; induction row_elements as [|r rs IH]; intros info; simpl.
  - rewrite app_nil_r, Nat.max_0_r. by destruct info.
  - rewrite IH. simpl. rewrite parse_cells_map. simpl.
    by rewrite <- app_assoc, Nat.max_assoc.
Qed.

Lemma join_empty_truthy_texts (h : heap) (texts : list loc) :
  Text.join "" (truthy_texts h texts) = concat_texts h texts.
Proof.
  induction texts as [|t texts IH]; simpl; [done|].
  unfold ET.text_in in *. rewrite <- IH.
  destruct (h !! t) as [e|]; simpl; [|done].
  destruct (text e) as [[|c s]|]; simpl; [done| |done].
  destruct (truthy_texts h texts); [|reflexivity].
  clear. change (String c s = String c (s +:+ "")). f_equal.
  induction s as [|d s IH]; [reflexivity|].
  change (String d s = String d (s +:+ "")). by rewrite <- IH.
Qed.

(** C9. The snapshot of a table lists, for every row in document order, the
    texts of the cells found beneath it, one per cell; [total_rows] is the
    number of rows and [total_columns] the largest number of cells of a row.
    The text of a cell is the concatenation, without separator and in
    document order, of the texts of all text nodes beneath it; a cell
    without text node gives the empty text and is counted all the same. *)
Theorem parse_table_snapshot (h : heap) (table : loc) :
  let row_elements := ET.findall_in h (w "tr") table in
  let cells := λ row, ET.findall_in h (w "tc") row in
  parse_table h table
  = {| rows := map (λ row, map (_extract_paragraph_text h) (cells row)) row_elements;
       total_rows := length row_elements;
       total_columns := max_list (map (λ row, length (cells row)) row_elements) |}
  ∧ (∀ row, length (map (_extract_paragraph_text h) (cells row)) = length (cells row))
  ∧ (∀ cell, _extract_paragraph_text h cell
             = concat_texts h (ET.findall_in h (w "t") cell))
  ∧ (∀ cell, ET.findall_in h (w "t") cell = [] →
             _extract_paragraph_text h cell = "").
Proof.
  intros row_elements cells. split_and!.
  - unfold parse_table. fold row_elements. by rewrite parse_rows_closed.
  - intros row. apply length_map.
  - intros cell. unfold _extract_paragraph_text.
    destruct (ET.findall_in h (w "t") cell) eqn:E; [done|].
    apply join_empty_truthy_texts.
  - intros cell Hc. unfold _extract_paragraph_text. by rewrite Hc.
Qed.

(** A two-row table whose second row has an empty second cell. *)
Example parse_table_sample :
  let d := Sample.table
             [Sample.elem "tr" [Sample.elem "tc" [Sample.elem "p"
                 [Sample.elem "r" [Sample.t "Led "]; Sample.elem "r" [Sample.t "X"]]]];
              Sample.elem "tr" [Sample.elem "tc" [Sample.elem "p" [Sample.t "a"]];
                                Sample.elem "tc" [Sample.elem "p" []]]] in
  parse_table (Sample.parsed d) (Sample.root_of d)
  = {| rows := [["Led X"]; ["a"; ""]]; total_rows := 2; total_columns := 2 |}.
Proof. vm_compute. reflexivity. Qed.

(** ** The whole modification *)

Lemma contains_empty (s : string) : Text.contains "" s = true.
Proof. by destruct s. Qed.

Lemma count_all_empty (tt : string) (bullets : list BulletPoint) (n : nat) :
  Forall (λ b, _normalize_text (dict_get (bullet_text b) "") = "") bullets →
  count_bullet_matches tt bullets n = n + length bullets.
Proof.
  intros Hall; revert n; induction Hall as [|b bullets Hb _ IH]; intros n; simpl.
  - lia.
  - rewrite Hb, contains_empty, IH. lia.
Qed.

Lemma empty_bullets_match_everything (tt : string) (s : ResumeSection) :
  dict_get (sec_bullet_points s) [] ≠ [] →
  Forall (λ b, _normalize_text (dict_get (bullet_text b) "") = "")
    (dict_get (sec_bullet_points s) []) →
  section_returned tt s = true.
Proof.
  intros Hne Hall.
  assert (bullet_fallback tt s = true) as Hf.
  { unfold bullet_fallback. rewrite count_all_empty by done.
    destruct (dict_get (sec_bullet_points s) []) as [|b bs]; [done|].
    simpl. apply Nat.leb_le. lia. }
  unfold section_returned. rewrite Hf.
  by repeat match goal with |- context [if ?c then _ else _] => destruct c end.
Qed.

Lemma update_table_content_no_rows (h : heap) (table : loc) (s : ResumeSection) :
  ET.findall_in h (w "tr") table = [] →
  _update_table_content table s h = (h, Raised IndexError).
Proof.
  intros Hrows. unfold _update_table_content, bind.
  by rewrite select_bullet_rows_run, Hrows.
Qed.

(** C10. The modification is not total. A section with at least one bullet
    whose bullet texts all normalize to the empty text matches every table;
    when it comes first in the schema and the first table of the document
    has no row, reading the first row raises [IndexError] and the
    modification fails. *)
Theorem modify_docx_fails_on_rowless_table (h : heap) (root table : loc)
    (tables : list loc) (schema : ContentSchema) (s : ResumeSection)
    (others : list ResumeSection) :
  experiences schema = Some (s :: others) →
  dict_get (sec_bullet_points s) [] ≠ [] →
  Forall (λ b, _normalize_text (dict_get (bullet_text b) "") = "")
    (dict_get (sec_bullet_points s) []) →
  ET.findall_in h (w "tbl") root = table :: tables →
  ET.findall_in h (w "tr") table = [] →
  modify_docx schema root h = (h, Raised IndexError).
Proof.
  intros Hexp Hne Hall Htables Hrows.
  unfold modify_docx, _modify_sections, bind at 1, ET.findall at 1.
  rewrite Hexp, Htables. simpl.
  unfold bind at 1, _extract_table_text, bind at 1, ET.findall at 1.
  unfold bind at 1, _find_matching_section. cbn [first_returned].
  rewrite empty_bullets_match_everything by done.
  by rewrite update_table_content_no_rows.
Qed.

Lemma modify_docx_fails_on_rowless_table_sample :
  let d := Sample.document [Sample.table []] in
  let schema :=
    {| experiences := Some [ {| sec_title := None; sec_company := None;
                                sec_bullet_points := Some [Sample.bullet "  "] |} ];
       projects := Some [] |} in
  modify_docx schema (Sample.root_of d) (Sample.parsed d)
  = (Sample.parsed d, Raised IndexError).
Proof.
  intros d schema.
  eapply (modify_docx_fails_on_rowless_table (Sample.parsed d) (Sample.root_of d)
            0 [] schema).
  - reflexivity.
  - discriminate.
  - repeat constructor.
  - reflexivity.
  - reflexivity.
Defined.

(** ** Schema validation *)

Lemma validate_entries_outcome (entries : list ResumeSection) :
  validate_entries entries = Returned tt
  ∨ validate_entries entries = Raised ValueError.
Proof.
  induction entries as [|s entries IH]; simpl; [by left|].
  destruct (sec_bullet_points s); [|by right].
  destruct (forallb _ _); [done|by right].
Qed.

Lemma validate_entries_invalid (entries : list ResumeSection) (s : ResumeSection) :
  s ∈ entries → section_invalid s →
  validate_entries entries = Raised ValueError.
Proof.
  intros Hin Hbad. induction entries as [|s' entries IH]; [by inversion Hin|].
  simpl. destruct (sec_bullet_points s') as [bullets|] eqn:Eb; [|done].
  destruct (forallb bullet_has_required bullets) eqn:Ef; [|done].
  apply elem_of_cons in Hin as [->|Hin]; [|by apply IH].
  unfold section_invalid in Hbad. rewrite Eb in Hbad.
  destruct Hbad as (b & Hb & Hnone).
  rewrite forallb_forall in Ef. specialize (Ef b).
  rewrite <- list_elem_of_In in Ef. specialize (Ef Hb).
  unfold bullet_has_required in Ef. by rewrite Hnone in Ef.
Qed.

Lemma validate_schema_invalid (schema : ContentSchema) :
  schema_invalid schema → _validate_schema schema = Raised ValueError.
Proof.
  unfold schema_invalid, _validate_schema.
  destruct (experiences schema) as [exps|]; [|done].
  destruct (projects schema) as [projs|]; [|done].
  intros (s & [Hin|Hin]%elem_of_app & Hbad).
  - by rewrite (validate_entries_invalid exps s).
  - rewrite (validate_entries_invalid projs s) by done.
    by destruct (validate_entries_outcome exps) as [-> | ->].
Qed.

Lemma tailor_resume_once_returned (answer : option ContentSchema)
    (schema : ContentSchema) :
  tailor_resume_once answer = Returned schema
  ↔ answer = Some schema ∧ _validate_schema schema = Returned tt.
Proof.
  unfold tailor_resume_once. destruct answer as [s|]; [|by split; [|intros []]].
  destruct (_validate_schema s) as [[]|e] eqn:Ev; split.
  - by intros [= <-].
  - by intros [[= <-] _].
  - done.
  - intros [[= <-] Hv]. congruence.
Qed.

(** The attempts of [tailor_resume]: they end with [RetryError] when each
    one raises, and otherwise with the first answer that is accepted. *)
Lemma retry_tailor_resume_outcome (service : nat → option ContentSchema)
    (attempts : nat) :
  ∀ request,
    (retry_tailor_resume attempts request service = Raised RetryError
     ∧ ∀ k schema, request ≤ k < request + attempts →
                   tailor_resume_once (service k) ≠ Returned schema)
    ∨ ∃ k schema,
        request ≤ k < request + attempts
        ∧ tailor_resume_once (service k) = Returned schema
        ∧ retry_tailor_resume attempts request service = Returned schema
        ∧ ∀ j s, request ≤ j < k → tailor_resume_once (service j) ≠ Returned s.
Proof.
  induction attempts as [|attempts IH]; intros request; simpl.
  - left. split; [done|]. intros k schema Hk. lia.
  - destruct (tailor_resume_once (service request)) as [schema|e] eqn:E.
    + right. exists request, schema. split; [lia|]. split; [done|].
      split; [done|]. intros j s Hj. lia.
    + destruct (IH (S request)) as [[Hr Hall] | (k & schema & Hk & Hs & Hr & Hfirst)].
      * left. split; [done|]. intros k schema Hk.
        destruct (decide (k = request)) as [->|Hne]; [by rewrite E|].
        apply Hall. lia.
      * right. exists k, schema. split; [lia|]. split; [done|].
        split; [done|]. intros j s Hj.
        destruct (decide (j = request)) as [->|Hne]; [by rewrite E|].
        apply Hfirst. lia.
Qed.

(** C1, amended. In the tailoring pipeline every answer of the language
    service is checked before the modification, in at most three attempts.
    A schema that misses [experiences] or [projects], or has a section
    without [bullet_points] or a bullet without [text], is refused in its
    attempt and never reaches the modification: either the run ends with
    [RetryError] and the document is left as it was parsed, or the
    modification runs on the first answer that was accepted, which is not
    such a schema. When every answer is such a schema, the run ends with
    [RetryError], not with a validation error, and the document is left as
    it was parsed. *)
Theorem invalid_schema_rejected_before_modification
    (service : nat → option ContentSchema) (root : loc) (h : heap) :
  (generate_tailored_resume service root h = (h, Raised RetryError)
   ∨ ∃ request schema,
       request < 3 ∧ service request = Some schema
       ∧ ¬ schema_invalid schema
       ∧ (∀ earlier s, earlier < request → service earlier = Some s →
                       _validate_schema s ≠ Returned tt)
       ∧ generate_tailored_resume service root h = modify_docx schema root h)
  ∧ ((∀ request schema, request < 3 → service request = Some schema →
                        schema_invalid schema) →
     generate_tailored_resume service root h = (h, Raised RetryError)).
Proof.
  unfold generate_tailored_resume, tailor_resume.
  destruct (retry_tailor_resume_outcome service 3 0)
    as [[Hr Hall] | (k & schema & Hk & Hs & Hr & Hfirst)]; rewrite Hr.
  - split; [by left|done].
  - apply tailor_resume_once_returned in Hs as [Hs Hv]. split.
    + right. exists k, schema. split; [lia|]. split; [done|]. split.
      { intros Hbad%validate_schema_invalid. congruence. }
      split; [|done].
      intros earlier s He Hse Hve. apply (Hfirst earlier s); [lia|].
      by apply tailor_resume_once_returned.
    + intros Hall. assert (schema_invalid schema) as Hbad
        by (apply (Hall k); [lia|done]).
      apply validate_schema_invalid in Hbad. congruence.
Qed.

Lemma invalid_schema_rejected_sample :
  let d := Sample.document [Sample.table [Sample.bullet_row "Software Engineer, Tech Corp"]] in
  let no_experiences :=
    {| experiences := None;
       projects := Some [Sample.engineer [Sample.bullet "Led X"]] |} in
  generate_tailored_resume (λ _, Some no_experiences)
    (Sample.root_of d) (Sample.parsed d)
  = (Sample.parsed d, Raised RetryError).
Proof.
  intros d no_experiences.
  apply (proj2 (invalid_schema_rejected_before_modification
                  (λ _, Some no_experiences) (Sample.root_of d) (Sample.parsed d))).
  intros request schema _ [= <-]. exact I.
Defined.

(** C1 fails as stated for [modify_docx] itself, which checks nothing: with
    [experiences] missing it rewrites the table of the matching project and
    returns; with a second bullet without [text] it rewrites the first
    bullet row and only then raises [KeyError]. *)
Lemma modify_docx_does_not_validate :
  let d := Sample.document
             [Sample.table [Sample.bullet_row "Software Engineer, Tech Corp";
                            Sample.bullet_row "old one";
                            Sample.bullet_row "old two"]] in
  let no_experiences :=
    {| experiences := None;
       projects := Some [Sample.engineer [Sample.bullet "Led X"; Sample.bullet "Built Y"]] |} in
  let no_text :=
    {| experiences := Some [Sample.engineer
                              [Sample.bullet "Led X";
                               {| bullet_text := None; bullet_keywords := Some [] |}]];
       projects := Some [] |} in
  schema_invalid no_experiences
  ∧ snd (modify_docx no_experiences (Sample.root_of d) (Sample.parsed d))
    = Returned tt
  ∧ Sample.written (Sample.root_of d)
      (modify_docx no_experiences (Sample.root_of d) (Sample.parsed d))
    = Some (Sample.document
      [Sample.table
         [Sample.bullet_row "Software Engineer, Tech Corp";
          Sample.bullet_row "Led X"; Sample.bullet_row "Built Y"]])
  ∧ schema_invalid no_text
  ∧ snd (modify_docx no_text (Sample.root_of d) (Sample.parsed d))
    = Raised KeyError
  ∧ Sample.written (Sample.root_of d)
      (modify_docx no_text (Sample.root_of d) (Sample.parsed d))
    = Some (Sample.document
      [Sample.table
         [Sample.bullet_row "Software Engineer, Tech Corp";
          Sample.bullet_row "Led X"; Sample.bullet_row "old two"]]).
Proof.
  split_and!.
  - exact I.
  - vm_compute; reflexivity.
  - vm_compute; reflexivity.
  - simpl. eexists. split; [left|]. simpl.
    eexists. split; [right; left|]. reflexivity.
  - vm_compute; reflexivity.
  - vm_compute; reflexivity.
Qed.

(** ** Stores described by labelled trees *)

Module TreeFacts.
Import Tree.

Section Generic.
Context {L : Type}.
Implicit Types (d : tree L) (ds : list (tree L)).

Lemma pre_unfold d : pre d = d :: flat_map pre (kids d).
Proof. by destruct d. Qed.

Lemma height_unfold d : height d = S (max_list (map height (kids d))).
Proof. by destruct d. Qed.

Lemma elem_of_flat_map_pre d ds :
  d ∈ flat_map pre ds ↔ ∃ k, k ∈ ds ∧ d ∈ pre k.
Proof.
  rewrite list_elem_of_In, in_flat_map. setoid_rewrite list_elem_of_In.
  split; intros (k & ? & ?); eauto.
Qed.

Lemma height_kid d k : k ∈ kids d → height k < height d.
Proof.
  intros Hk. rewrite (height_unfold d).
  assert (height k ≤ max_list (map height (kids d))); [|lia].
  apply max_list_elem_of_le, list_elem_of_fmap. eauto.
Qed.

(** A node below [d] is less high than [d]. *)
Lemma height_below d d' : d' ∈ flat_map pre (kids d) → height d' < height d.
Proof.
  revert d'. induction d as [l t a x ks IH] using tree_ind_kids. intros d'.
  simpl kids. rewrite elem_of_flat_map_pre. intros (k & Hk & Hd').
  assert (height k < height (Node l t a x ks)) by (by apply height_kid).
  rewrite pre_unfold in Hd'. apply elem_of_cons in Hd' as [->|Hd']; [done|].
  rewrite Forall_forall in IH. specialize (IH k Hk d' Hd'). lia.
Qed.

Lemma height_pre d d' : d' ∈ pre d → height d' ≤ height d.
Proof.
  rewrite pre_unfold. intros [->|H]%elem_of_cons; [done|].
  apply height_below in H. lia.
Qed.

Lemma pre_trans d d' d'' : d' ∈ pre d → d'' ∈ pre d' → d'' ∈ pre d.
Proof.
  revert d' d''. induction d as [l t a x ks IH] using tree_ind_kids.
  intros d' d''. rewrite (pre_unfold (Node l t a x ks)). simpl kids.
  intros [->|Hd']%elem_of_cons Hd''.
  { by rewrite pre_unfold in Hd''. }
  apply elem_of_cons. right.
  apply elem_of_flat_map_pre in Hd' as (k & Hk & Hd').
  apply elem_of_flat_map_pre. exists k. split; [done|].
  rewrite Forall_forall in IH. by apply (IH k Hk d').
Qed.

Lemma find_first_elem P ds d :
  find_first P ds = Some d → d ∈ flat_map pre ds ∧ P d = true.
Proof.
  unfold find_first. intros H.
  assert (d ∈ List.filter P (flat_map pre ds)) as Hin.
  { destruct (List.filter P (flat_map pre ds)); [done|].
    injection H as ->. left. }
  apply list_elem_of_In, filter_In in Hin as [Hin HP].
  by rewrite list_elem_of_In.
Qed.

End Generic.

Implicit Types (h : heap) (d : tree loc).

Lemma shape_unfold h d :
  shape h d ↔ node_ok h d ∧ Forall (shape h) (kids d).
Proof.
  unfold shape. rewrite pre_unfold, Forall_cons.
  by rewrite List.Forall_flat_map.
Qed.

Lemma shape_pre h d d' : shape h d → d' ∈ pre d → shape h d'.
Proof.
  unfold shape. rewrite !Forall_forall. intros H Hd' d'' Hd''.
  apply H. by apply (pre_trans d d').
Qed.

Lemma shape_below h d d' : shape h d → d' ∈ flat_map pre (kids d) → shape h d'.
Proof.
  intros H Hd'. apply (shape_pre h d); [done|].
  rewrite pre_unfold. by right.
Qed.

(** The traversal of the store visits the locations of the tree. *)
Lemma iter_locs h d fuel :
  shape h d → height d ≤ fuel → ET.iter fuel h (label d) = locs d.
Proof.
  revert fuel. induction d as [l t a x ks IH] using tree_ind_kids.
  intros fuel Hs Hh. apply shape_unfold in Hs as [Hn Hks].
  destruct fuel as [|fuel]; [simpl in Hh; lia|].
  simpl. unfold node_ok in Hn. simpl in Hn. rewrite Hn. simpl.
  unfold locs. simpl. f_equal.
  assert (∀ k, k ∈ ks → height k ≤ fuel) as Hk.
  { intros k Hk. pose proof (height_kid (Node l t a x ks) k Hk). lia. }
  clear Hn Hh. induction ks as [|k ks IHks]; simpl; [done|].
  apply Forall_cons in IH as [IHk IH]. apply Forall_cons in Hks as [Hsk Hks].
  rewrite map_app. f_equal.
  - apply IHk; [done|]. apply Hk. left.
  - apply IHks; [done..|]. intros k' Hk'. apply Hk. by right.
Qed.

Lemma has_tag_shape h d t :
  node_ok h d → ET.has_tag h t (label d) = has_tag t d.
Proof. unfold node_ok, ET.has_tag. by intros ->. Qed.

Lemma filter_map_label h ds t :
  Forall (node_ok h) ds →
  List.filter (ET.has_tag h t) (map label ds)
  = map label (List.filter (has_tag t) ds).
Proof.
  induction 1 as [|d ds Hd _ IH]; simpl; [done|].
  rewrite (has_tag_shape h d t Hd). destruct (has_tag t d); simpl; by rewrite IH.
Qed.

Lemma findall_in_shape h d t :
  shape h d → height d ≤ length h →
  ET.findall_in h t (label d)
  = map label (List.filter (has_tag t) (flat_map pre (kids d))).
Proof.
  intros Hs Hh. unfold ET.findall_in. rewrite iter_locs by done.
  unfold locs. rewrite pre_unfold. simpl tail.
  apply filter_map_label. unfold shape in Hs. rewrite pre_unfold in Hs.
  by apply Forall_cons in Hs as [_ Hs].
Qed.

Lemma find_in_shape h d t :
  shape h d → height d ≤ length h →
  ET.find_in h t (label d) = label <$> find_first (has_tag t) (kids d).
Proof.
  intros Hs Hh. unfold ET.find_in, find_first.
  rewrite findall_in_shape by done.
  by destruct (List.filter _ _).
Qed.

End TreeFacts.

Module ReplaceFacts.
Import Tree TreeFacts.

Section Generic.
Context {L : Type}.
Implicit Types (d : tree L) (ds : list (tree L)) (P : tree L → bool).

Lemma existsb_false_filter P (l : list (tree L)) :
  existsb P l = false → List.filter P l = [].
Proof.
  induction l as [|y l IH]; simpl; [done|].
  intros [-> H]%orb_false_iff. by apply IH.
Qed.

Lemma existsb_true_filter P (l : list (tree L)) :
  existsb P l = true → ∃ y ys, List.filter P l = y :: ys.
Proof.
  induction l as [|y l IH]; simpl; [done|].
  destruct (P y); simpl; eauto.
Qed.

Lemma find_first_cons P k ks :
  find_first P (k :: ks)
  = if existsb P (pre k) then head (List.filter P (pre k))
    else find_first P ks.
Proof.
  unfold find_first. simpl. rewrite List.filter_app.
  destruct (existsb P (pre k)) eqn:E.
  - apply existsb_true_filter in E as (y & ys & ->). done.
  - by rewrite (existsb_false_filter _ _ E).
Qed.

Lemma head_filter_pre P d :
  head (List.filter P (pre d))
  = if P d then Some d else find_first P (kids d).
Proof. rewrite pre_unfold. simpl. by destruct (P d). Qed.

(** What [top_first] finds: the first match in document order, which splits
    the trees around it. *)
Lemma top_first_split P ds k :
  top_first P ds = Some k →
  ∃ ds1 ds2,
    ds = ds1 ++ k :: ds2
    ∧ Forall (λ d, existsb P (pre d) = false) ds1
    ∧ P k = true
    ∧ find_first P ds = Some k
    ∧ remove_top P ds = ds1 ++ ds2.
Proof.
  induction ds as [|d ds IH]; simpl; [done|].
  destruct (P d) eqn:EP.
  - intros [= ->]. exists [], ds. split_and!; try done.
    rewrite find_first_cons, head_filter_pre, EP.
    rewrite pre_unfold. simpl. by rewrite EP.
  - destruct (existsb P (pre d)) eqn:E; [done|]. intros Hk.
    destruct (IH Hk) as (ds1 & ds2 & -> & Hds1 & HP & Hf & Hr).
    exists (d :: ds1), ds2. split_and!; try done.
    + by constructor.
    + by rewrite find_first_cons, E.
    + simpl. by rewrite Hr.
Qed.

Lemma label_replace_first P new d c :
  head (List.filter P (pre d)) = Some c → label new = label c →
  label (replace_first P new d) = label d.
Proof.
  rewrite head_filter_pre. destruct d as [l t a x ks]. simpl.
  destruct (P (Node l t a x ks)); [|done]. by intros [= <-] ->.
Qed.

End Generic.

Implicit Types (h : heap) (d : tree loc).

Lemma locs_unfold d : locs d = label d :: map label (flat_map pre (kids d)).
Proof. unfold locs. by rewrite pre_unfold. Qed.

Lemma elem_of_locs d d' : d' ∈ pre d → label d' ∈ locs d.
Proof. intros H. unfold locs. apply list_elem_of_fmap. eauto. Qed.

Section Replace.
Context (h h' : heap) (P : tree loc → bool) (new c : tree loc).
Hypothesis Hnew : shape h' new.
Hypothesis Hlab : label new = label c.
Hypothesis Hframe : ∀ d0, node_ok h d0 → label d0 ≠ label c → node_ok h' d0.

Lemma shape_keep d : shape h d → label c ∉ locs d → shape h' d.
Proof.
  intros Hs Hc. unfold shape. unfold shape in Hs.
  rewrite Forall_forall. rewrite Forall_forall in Hs.
  intros d0 Hd0. apply Hframe; [by apply Hs|].
  intros Heq. apply Hc. rewrite <- Heq. by apply elem_of_locs.
Qed.

Let replaced_ok (d : tree loc) : Prop :=
  head (List.filter P (pre d)) = Some c →
  shape h d → NoDup (locs d) → shape h' (replace_first P new d).

Lemma shape_replace_forest_step ds :
  Forall replaced_ok ds →
  find_first P ds = Some c →
  Forall (shape h) ds → NoDup (map label (flat_map pre ds)) →
  Forall (shape h') (replace_in_forest P (replace_first P new) ds)
  ∧ map label (replace_in_forest P (replace_first P new) ds) = map label ds.
Proof.
  induction ds as [|k ks IHks]; [done|].
  intros IH Hc Hks Hnd. rewrite find_first_cons in Hc. simpl.
  apply Forall_cons in IH as [IHk IH]. apply Forall_cons in Hks as [Hk Hks].
  simpl in Hnd. rewrite map_app in Hnd.
  apply NoDup_app in Hnd as (Hnd1 & Hdisj & Hnd2).
  destruct (existsb P (pre k)) eqn:E.
  - split.
    + apply Forall_cons. split; [by apply IHk|].
      apply Forall_forall. intros d Hd. apply shape_keep.
      { rewrite Forall_forall in Hks. by apply Hks. }
      intros Hc'. apply (Hdisj (label c)).
      * apply elem_of_locs.
        apply existsb_true_filter in E as (y & ys & E).
        rewrite E in Hc. injection Hc as ->.
        assert (c ∈ List.filter P (pre k)) as Hin by (rewrite E; left).
        by apply list_elem_of_In, filter_In in Hin as [Hin%list_elem_of_In _].
      * apply list_elem_of_fmap in Hc' as (d1 & Heq & Hd1).
        apply list_elem_of_fmap. exists d1. split; [done|].
        apply elem_of_flat_map_pre. eauto.
    + simpl. f_equal. by apply (label_replace_first P new k c).
  - destruct (IHks IH Hc Hks Hnd2) as [Hks' Hlabs]. split.
    + apply Forall_cons. split; [|done]. apply shape_keep; [done|].
      intros Hc'. apply (Hdisj (label c) Hc').
      apply find_first_elem in Hc as [Hc _].
      apply list_elem_of_fmap. eauto.
    + simpl. by rewrite Hlabs.
Qed.

(** Replacing the first node that satisfies [P] by a tree with the same
    root that the new store holds, where the new store differs from the old
    one at that root only, gives a tree that the new store holds. *)
Lemma shape_replace_first d : replaced_ok d.
Proof.
  induction d as [l t a x ks IH] using tree_ind_kids.
  intros Hc Hs Hnd. rewrite head_filter_pre in Hc. simpl.
  destruct (P (Node l t a x ks)) eqn:EP; [done|]. simpl in Hc.
  apply shape_unfold in Hs as [Hn Hks]. simpl in Hks.
  rewrite locs_unfold in Hnd. simpl in Hnd. apply NoDup_cons in Hnd as [Hl Hnd].
  destruct (shape_replace_forest_step ks IH Hc Hks Hnd) as [Hks' Hlabs].
  apply shape_unfold. split; [|done].
  assert (node_ok h' (Node l t a x ks)) as Hn'.
  { apply Hframe; [done|]. simpl. intros ->. apply Hl.
    apply find_first_elem in Hc as [Hc _].
    apply list_elem_of_fmap. eauto. }
  unfold node_ok in *. simpl in *. by rewrite Hlabs.
Qed.

Lemma shape_replace_forest ds :
  find_first P ds = Some c →
  Forall (shape h) ds → NoDup (map label (flat_map pre ds)) →
  Forall (shape h') (replace_in_forest P (replace_first P new) ds)
  ∧ map label (replace_in_forest P (replace_first P new) ds) = map label ds.
Proof.
  apply shape_replace_forest_step, Forall_forall.
  intros d _. apply shape_replace_first.
Qed.

End Replace.

End ReplaceFacts.

Module RowFacts.
Import Tree TreeFacts ReplaceFacts.

Section Generic.
Context {L : Type}.
Implicit Types (d : tree L) (ds : list (tree L)) (P : tree L → bool).

Lemma max_list_app (l1 l2 : list nat) :
  max_list (l1 ++ l2) = Nat.max (max_list l1) (max_list l2).
Proof. induction l1 as [|n l1 IH]; simpl; [done|]. rewrite IH. lia. Qed.

(** Replacing a node by one that is at most [n] higher makes the tree at
    most [n] higher. *)
Lemma height_replace_first P new c n d :
  head (List.filter P (pre d)) = Some c →
  height new ≤ height c + n →
  height (replace_first P new d) ≤ height d + n.
Proof.
  intros Hc Hn. revert Hc.
  induction d as [l t a x ks IH] using tree_ind_kids.
  rewrite head_filter_pre. simpl.
  destruct (P (Node l t a x ks)) eqn:EP.
  { intros [= <-]. done. }
  simpl. intros Hc.
  assert (max_list (map height (replace_in_forest P (replace_first P new) ks))
          ≤ max_list (map height ks) + n); [|lia].
  clear EP. induction ks as [|k ks IHks]; [done|].
  rewrite find_first_cons in Hc. simpl.
  apply Forall_cons in IH as [IHk IH].
  destruct (existsb P (pre k)); simpl.
  - specialize (IHk Hc). lia.
  - specialize (IHks IH Hc). lia.
Qed.

Lemma height_replace_forest P new c n ds :
  find_first P ds = Some c →
  height new ≤ height c + n →
  max_list (map height (replace_in_forest P (replace_first P new) ds))
  ≤ max_list (map height ds) + n.
Proof.
  intros Hc Hn. induction ds as [|k ks IHks]; [done|].
  rewrite find_first_cons in Hc. simpl.
  destruct (existsb P (pre k)); simpl.
  - pose proof (height_replace_first P new c n k Hc Hn). lia.
  - specialize (IHks Hc). lia.
Qed.

Lemma below_trans ds d d' :
  d ∈ flat_map pre ds → d' ∈ pre d → d' ∈ flat_map pre ds.
Proof.
  rewrite !elem_of_flat_map_pre. intros (k & Hk & Hd) Hd'.
  exists k. split; [done|]. by apply (pre_trans k d).
Qed.

Lemma below_below d d' d'' :
  d' ∈ flat_map pre (kids d) → d'' ∈ flat_map pre (kids d') →
  d'' ∈ flat_map pre (kids d).
Proof.
  intros Hd' Hd''. apply (below_trans _ d'); [done|].
  rewrite pre_unfold. by right.
Qed.

Lemma max_list_height_kids ds n :
  Forall (λ d, height d ≤ n) ds → max_list (map height ds) ≤ n.
Proof. induction 1; simpl; lia. Qed.

End Generic.

Implicit Types (h : heap) (d : tree loc).

Lemma nodup_forest_kid (ds : list (tree loc)) k :
  NoDup (map label (flat_map pre ds)) → k ∈ ds → NoDup (locs k).
Proof.
  induction ds as [|d ds IH]; [by inversion 2|].
  simpl. rewrite map_app. intros (H1 & _ & H2)%NoDup_app.
  intros [->|Hk]%elem_of_cons; [done|by apply IH].
Qed.

Lemma nodup_below d d' : NoDup (locs d) → d' ∈ pre d → NoDup (locs d').
Proof.
  revert d'. induction d as [l t a x ks IH] using tree_ind_kids.
  intros d' Hnd. rewrite pre_unfold. intros [->|Hd']%elem_of_cons; [done|].
  simpl in Hd'. apply elem_of_flat_map_pre in Hd' as (k & Hk & Hd').
  rewrite Forall_forall in IH. apply (IH k Hk); [|done].
  rewrite locs_unfold in Hnd. apply NoDup_cons in Hnd as [_ Hnd].
  by apply (nodup_forest_kid ks).
Qed.

Lemma nodup_root_below d d' :
  NoDup (locs d) → d' ∈ flat_map pre (kids d) → label d' ≠ label d.
Proof.
  rewrite locs_unfold. intros [Hl _]%NoDup_cons Hd' Heq. apply Hl.
  rewrite <- Heq. apply list_elem_of_fmap. eauto.
Qed.

Lemma locs_replace_first (P : tree loc → bool) (new : tree loc) d l :
  l ∈ locs (replace_first P new d) → l ∈ locs d ∨ l ∈ locs new.
Proof.
  revert l. induction d as [lb t a x ks IH] using tree_ind_kids. intros l.
  simpl. destruct (P (Node lb t a x ks)); [by right|].
  rewrite (locs_unfold (Node lb t a x ks)), (locs_unfold (Node lb t a x _)).
  simpl.
  intros [->|Hl]%elem_of_cons; [left; left|].
  assert (l ∈ map label (flat_map pre ks) ∨ l ∈ locs new) as [?|?];
    [|left; by right|by right].
  induction ks as [|k ks IHks]; [by left|].
  apply Forall_cons in IH as [IHk IH]. simpl in Hl.
  destruct (existsb P (pre k)); simpl in Hl; rewrite map_app in Hl;
    apply elem_of_app in Hl as [Hl|Hl]; simpl; rewrite map_app.
  - destruct (IHk l Hl) as [?|?]; [left|by right]. apply elem_of_app. by left.
  - left. apply elem_of_app. by right.
  - left. apply elem_of_app. by left.
  - destruct (IHks IH Hl) as [?|?]; [left|by right]. apply elem_of_app. by right.
Qed.

Lemma locs_replace_forest (P : tree loc → bool) (new : tree loc) ds l :
  l ∈ map label (flat_map pre (replace_in_forest P (replace_first P new) ds)) →
  l ∈ map label (flat_map pre ds) ∨ l ∈ locs new.
Proof.
  induction ds as [|k ks IHks]; [by left|]. simpl.
  destruct (existsb P (pre k)); simpl; rewrite !map_app;
    intros [Hl|Hl]%elem_of_app.
  - destruct (locs_replace_first P new k l Hl) as [?|?]; [left|by right].
    apply elem_of_app. by left.
  - left. apply elem_of_app. by right.
  - left. apply elem_of_app. by left.
  - destruct (IHks Hl) as [?|?]; [left|by right]. apply elem_of_app. by right.
Qed.

Lemma elem_of_locs_below d d' l :
  d' ∈ flat_map pre (kids d) → l ∈ locs d' → l ∈ locs d.
Proof.
  intros Hd' Hl. apply list_elem_of_fmap in Hl as (d0 & -> & Hd0).
  apply elem_of_locs. rewrite pre_unfold. right. by apply (below_trans _ d').
Qed.

Lemma lookup_lt_node_ok h d : node_ok h d → label d < length h.
Proof. unfold node_ok. intros H. by apply lookup_lt_Some in H. Qed.

Lemma remove_first_labels h (P : tree loc → bool) (ds1 ds2 : list (tree loc)) k :
  Forall (λ d, label d ≠ label k) ds1 →
  ET.remove_first (label k) (map label (ds1 ++ k :: ds2))
  = map label (ds1 ++ ds2).
Proof.
  induction 1 as [|d ds1 Hd _ IH]; simpl.
  - by rewrite Nat.eqb_refl.
  - destruct (Nat.eqb_spec (label k) (label d)) as [Heq|_]; [by destruct Hd|].
    by rewrite IH.
Qed.

(** The row update on a store that holds the row as [row]: it returns, and
    the store then holds the row as [updated_row] describes it. *)
Lemma update_row_content_shape h (row row' : tree loc) (new_text : string) :
  shape h row → height row ≤ length h → NoDup (locs row) →
  updated_row (length h) (S (length h)) (S (S (length h))) new_text row
  = Some row' →
  ∃ h',
    _update_row_content (label row) new_text h = (h', Returned tt)
    ∧ shape h' row'
    ∧ label row' = label row
    ∧ height row' ≤ length h'
    ∧ length h ≤ length h'
    ∧ (∀ l, l < length h → l ∉ locs row → h' !! l = h !! l)
    ∧ (∀ l, l ∈ locs row' → l ∈ locs row ∨ length h ≤ l).
Proof.
  intros Hs Hh Hnd. unfold updated_row.
  pose proof (find_in_shape h row (w "tc") Hs Hh) as Htc.
  destruct (find_first (has_tag (w "tc")) (kids row)) as [cell|] eqn:Ecell.
  2:{ intros [= <-]. exists h. split_and!; try done; [|by left].
      apply update_row_content_early_return. by left. }
  pose proof (find_first_elem _ _ _ Ecell) as [Hcell_in _].
  assert (shape h cell) as Hs_cell by (by apply (shape_below h row)).
  assert (height cell ≤ length h) as Hh_cell.
  { pose proof (height_below row cell Hcell_in). lia. }
  assert (NoDup (locs cell)) as Hnd_cell.
  { apply (nodup_below row); [done|]. rewrite pre_unfold. by right. }
  pose proof (find_in_shape h cell (w "p") Hs_cell Hh_cell) as Hp.
  destruct (find_first (has_tag (w "p")) (kids cell)) as [paragraph|] eqn:Epar.
  2:{ intros [= <-]. exists h. split_and!; try done; [|by left].
      apply update_row_content_early_return. right. exists (label cell). by split. }
  destruct (top_first (has_tag (w "p")) (kids cell)) as [k|] eqn:Etop; [|done].
  apply top_first_split in Etop as (ds1 & ds2 & Hkids & Hds1 & HPk & Hfk & Hrem).
  rewrite Epar in Hfk. injection Hfk as <-.
  pose proof (find_first_elem _ _ _ Epar) as [Hpar_in _].
  assert (shape h paragraph) as Hs_par by (by apply (shape_below h cell)).
  assert (height paragraph < height cell) as Hh_par by (by apply height_below).
  pose proof (find_in_shape h paragraph (w "pPr") Hs_par ltac:(lia)) as Hppr.
  pose proof (find_in_shape h paragraph (w "r") Hs_par ltac:(lia)) as Hr.
  set (p_pr := find_first (has_tag (w "pPr")) (kids paragraph)) in *.
  set (r_pr := match find_first (has_tag (w "r")) (kids paragraph) with
               | Some existing_run => find_first (has_tag (w "rPr")) (kids existing_run)
               | None => None
               end).
  assert (captured_r_pr h (label paragraph) = label <$> r_pr) as Hrpr.
  { unfold captured_r_pr. rewrite Hr. subst r_pr.
    destruct (find_first (has_tag (w "r")) (kids paragraph)) as [run|] eqn:Erun;
      [|done]. simpl.
    pose proof (find_first_elem _ _ _ Erun) as [Hrun_in _].
    apply find_in_shape; [by apply (shape_below h paragraph)|].
    pose proof (height_below paragraph run Hrun_in). lia. }
  (* where the captured properties sit, and how high they are *)
  assert (∀ d, p_pr = Some d →
            d ∈ flat_map pre (kids cell) ∧ height d < height paragraph) as Hppr_in.
  { intros d Hd. apply find_first_elem in Hd as [Hd _].
    split; [by apply (below_below cell paragraph)|by apply height_below]. }
  assert (∀ d, r_pr = Some d →
            d ∈ flat_map pre (kids cell) ∧ S (height d) < height paragraph)
    as Hrpr_in.
  { intros d Hd. subst r_pr.
    destruct (find_first (has_tag (w "r")) (kids paragraph)) as [run|] eqn:Erun;
      [|done].
    apply find_first_elem in Erun as [Hrun_in _].
    apply find_first_elem in Hd as [Hd _]. split.
    - apply (below_below cell paragraph); [done|].
      by apply (below_below paragraph run).
    - pose proof (height_below paragraph run Hrun_in).
      pose proof (height_below run d Hd). lia. }
  set (n := length h) in *.
  set (t_node := Node (S (S n)) (w "t") [] (Some new_text) []).
  set (run_node := Node (S n) (w "r") [] None (option_list r_pr ++ [t_node])).
  set (newp := Node n (w "p") [] None (option_list p_pr ++ [run_node])).
  set (new_cell := Node (label cell) (tag_of cell) (attrib_of cell) (text_of cell)
                     (remove_top (has_tag (w "p")) (kids cell) ++ [newp])).
  intros [= <-].
  assert (node_ok h cell) as Hn_cell by (by apply shape_unfold in Hs_cell as [? _]).
  assert (label cell < n) as Hlt_cell by (by apply lookup_lt_node_ok).
  set (F := λ e : Element, ET.set_children
              (ET.remove_first (label paragraph) (children e) ++ [n]) e).
  set (created := created_elements (label <$> p_pr) (label <$> r_pr) n new_text).
  set (h' := alter F (label cell) h ++ created).
  assert (length (alter F (label cell) h) = n) as Hlen by apply length_alter.
  assert (length h' = 3 + n) as Hlen'.
  { subst h'. rewrite length_app, Hlen. simpl. lia. }
  assert (∀ l, l < n → l ≠ label cell → h' !! l = h !! l) as Hold.
  { intros l Hl Hne. subst h'. rewrite lookup_app_l by lia.
    by rewrite list_lookup_alter_ne. }
  assert (∀ d0, node_ok h d0 → label d0 ≠ label cell → node_ok h' d0) as Hframe.
  { intros d0 Hd0 Hne. unfold node_ok in *. rewrite Hold; [done| |done].
    by apply lookup_lt_Some in Hd0. }
  assert (∀ d, d ∈ flat_map pre (kids cell) → shape h' d) as Hbelow.
  { intros d Hd. apply (shape_keep h h' cell Hframe).
    - by apply (shape_below h cell).
    - intros Hin. apply list_elem_of_fmap in Hin as (d0 & Heq & Hd0).
      apply (nodup_root_below cell d0 Hnd_cell); [|done].
      by apply (below_trans _ d). }
  assert (∀ d, d ∈ kids cell → d ∈ flat_map pre (kids cell)) as Hkid_below.
  { intros d Hd. apply elem_of_flat_map_pre. exists d. split; [done|].
    rewrite pre_unfold. left. }
  assert (shape h' t_node) as Hs_t.
  { apply shape_unfold. split; [|constructor].
    unfold node_ok. simpl. subst h'. rewrite lookup_app_r by lia.
    rewrite Hlen. by replace (S (S n) - n) with 2 by lia. }
  assert (shape h' run_node) as Hs_run.
  { apply shape_unfold. split.
    - unfold node_ok. simpl. subst h'. rewrite lookup_app_r by lia.
      rewrite Hlen. replace (S n - n) with 1 by lia. simpl.
      unfold new_run_element. by destruct r_pr.
    - simpl. apply Forall_app. split; [|by constructor].
      destruct r_pr as [d|] eqn:E; [|constructor]. simpl.
      constructor; [|constructor]. by apply Hbelow, Hrpr_in. }
  assert (shape h' newp) as Hs_newp.
  { apply shape_unfold. split.
    - unfold node_ok. simpl. subst h'. rewrite lookup_app_r by lia.
      rewrite Hlen, Nat.sub_diag. simpl.
      unfold new_paragraph_element. by destruct p_pr.
    - simpl. apply Forall_app. split; [|by constructor].
      destruct p_pr as [d|] eqn:E; [|constructor]. simpl.
      constructor; [|constructor]. by apply Hbelow, Hppr_in. }
  assert (Forall (λ d, label d ≠ label paragraph) ds1) as Hds1_lab.
  { apply Forall_forall. intros d Hd Heq.
    rewrite Forall_forall in Hds1. specialize (Hds1 d Hd).
    rewrite pre_unfold in Hds1. simpl in Hds1.
    apply orb_false_iff in Hds1 as [Hds1 _].
    assert (node_ok h d) as Hn_d.
    { assert (shape h d) as Hsd; [|by apply shape_unfold in Hsd as [? _]].
      apply (shape_below h cell); [done|]. apply Hkid_below.
      rewrite Hkids. apply elem_of_app. by left. }
    assert (node_ok h paragraph) as Hn_p by (by apply shape_unfold in Hs_par as [? _]).
    unfold node_ok in Hn_d, Hn_p. rewrite Heq, Hn_p in Hn_d.
    injection Hn_d as Htag _ _ _. unfold has_tag in *.
    rewrite Htag in HPk. by rewrite HPk in Hds1. }
  assert (shape h' new_cell) as Hs_new_cell.
  { apply shape_unfold. split.
    - unfold node_ok. simpl. subst h'. rewrite lookup_app_l by lia.
      rewrite list_lookup_alter_eq. unfold node_ok in Hn_cell.
      rewrite Hn_cell. simpl. unfold F, ET.set_children. simpl.
      do 2 f_equal. rewrite Hrem, Hkids.
      rewrite (remove_first_labels h (has_tag (w "p"))) by done.
      by rewrite (map_app _ (ds1 ++ ds2)).
    - simpl. rewrite Hrem. apply Forall_app. split; [|by constructor].
      apply Forall_forall. intros d Hd. apply Hbelow, Hkid_below.
      rewrite Hkids. apply elem_of_app in Hd as [Hd|Hd]; apply elem_of_app;
        [by left|right; by right]. }
  assert (label row ≠ label cell) as Hrow_cell.
  { intros Heq. by apply (nodup_root_below row cell Hnd). }
  exists h'. split_and!.
  - rewrite (update_row_content_steps h (label row) (label cell) (label paragraph))
      by done.
    unfold captured_p_pr. rewrite Hppr, Hrpr. fold n.
    unfold ET.children_in. unfold node_ok in Hn_cell. rewrite Hn_cell. simpl.
    assert (ET.is_child (label paragraph) (map label (kids cell)) = true) as ->.
    { apply HeapFacts.is_child_elem, list_elem_of_fmap. exists paragraph.
      split; [done|]. rewrite Hkids. apply elem_of_app. right. left. }
    reflexivity.
  - apply shape_unfold in Hs as [Hn_row Hs_kids].
    rewrite locs_unfold in Hnd. apply NoDup_cons in Hnd as [_ Hnd_kids].
    destruct (shape_replace_forest h h' (has_tag (w "tc")) new_cell cell
                Hs_new_cell eq_refl Hframe (kids row) Ecell Hs_kids Hnd_kids)
      as [Hs_kids' Hlabs].
    apply shape_unfold. split; [|done].
    apply Hframe in Hn_row; [|done].
    unfold node_ok in *. simpl in *. by rewrite Hlabs.
  - done.
  - assert (height new_cell ≤ height cell + 2) as Hh_new.
    { assert (height run_node ≤ height paragraph ∨ height run_node ≤ 2) as Hh_run.
      { subst run_node t_node. destruct r_pr as [d|] eqn:E; simpl.
        - destruct (Hrpr_in d eq_refl) as [_ Hd]. lia.
        - lia. }
      assert (height newp ≤ height cell ∨ height newp ≤ 3) as Hh_newp.
      { subst newp. clearbody run_node. destruct p_pr as [d|] eqn:E.
        - destruct (Hppr_in d eq_refl) as [_ Hd].
          simpl option_list. simpl app. rewrite height_unfold. simpl kids.
          simpl map. simpl max_list. lia.
        - simpl option_list. simpl app. rewrite height_unfold. simpl kids.
          simpl map. simpl max_list. lia. }
      assert (2 ≤ height cell) as Hh2.
      { pose proof (height_unfold paragraph). lia. }
      subst new_cell. clearbody newp. rewrite height_unfold. simpl kids.
      rewrite Hrem, map_app, max_list_app. simpl map. simpl max_list.
      assert (max_list (map height (ds1 ++ ds2)) ≤ height cell).
      { apply max_list_height_kids, Forall_forall. intros d Hd.
        assert (d ∈ kids cell) as Hdk.
        { rewrite Hkids. apply elem_of_app in Hd as [Hd|Hd]; apply elem_of_app;
            [by left|right; by right]. }
        pose proof (height_kid cell d Hdk). lia. }
      lia. }
    pose proof (height_replace_forest (has_tag (w "tc")) new_cell cell 2
                  (kids row) Ecell Hh_new) as Hh_kids.
    rewrite height_unfold. simpl kids.
    rewrite (height_unfold row) in Hh. lia.
  - lia.
  - intros l Hl Hnot. apply Hold; [done|]. intros ->. apply Hnot.
    rewrite locs_unfold. right. apply list_elem_of_fmap. eauto.
  - intros l. rewrite locs_unfold. simpl.
    intros [->|Hl]%elem_of_cons; [left; rewrite locs_unfold; left|].
    apply locs_replace_forest in Hl as [Hl|Hl].
    { left. rewrite locs_unfold. by right. }
    assert (∀ d, d ∈ flat_map pre (kids cell) → l ∈ locs d → l ∈ locs row)
      as Hin_row.
    { intros d Hd Hld. apply (elem_of_locs_below row cell); [done|].
      by apply (elem_of_locs_below cell d). }
    subst new_cell. rewrite locs_unfold in Hl. simpl in Hl.
    apply elem_of_cons in Hl as [->|Hl].
    { left. by apply elem_of_locs_below with (d' := cell); [|rewrite locs_unfold; left]. }
    rewrite Hrem, flat_map_app, map_app in Hl.
    apply elem_of_app in Hl as [Hl|Hl].
    { left. apply list_elem_of_fmap in Hl as (d0 & -> & Hd0).
      apply elem_of_flat_map_pre in Hd0 as (k & Hk & Hd0).
      apply (Hin_row k); [|by apply elem_of_locs].
      apply Hkid_below. rewrite Hkids.
      apply elem_of_app in Hk as [Hk|Hk]; apply elem_of_app;
        [by left|right; by right]. }
    simpl in Hl. rewrite app_nil_r in Hl.
    change (l ∈ locs newp) in Hl. subst newp. rewrite locs_unfold in Hl.
    simpl in Hl. apply elem_of_cons in Hl as [->|Hl]; [right; lia|].
    rewrite flat_map_app, map_app in Hl. apply elem_of_app in Hl as [Hl|Hl].
    { left. destruct p_pr as [d|] eqn:E; [|by inversion Hl].
      simpl in Hl. rewrite app_nil_r in Hl.
      apply (Hin_row d); [by apply Hppr_in|done]. }
    simpl in Hl. rewrite app_nil_r in Hl.
    change (l ∈ locs run_node) in Hl. subst run_node. rewrite locs_unfold in Hl.
    simpl in Hl. apply elem_of_cons in Hl as [->|Hl]; [right; lia|].
    rewrite flat_map_app, map_app in Hl. apply elem_of_app in Hl as [Hl|Hl].
    { left. destruct r_pr as [d|] eqn:E; [|by inversion Hl].
      simpl in Hl. rewrite app_nil_r in Hl.
      apply (Hin_row d); [by apply Hrpr_in|done]. }
    simpl in Hl. apply list_elem_of_singleton in Hl as ->. right. lia.
Qed.

End RowFacts.

Module RelabelFacts.
Import Tree TreeFacts ReplaceFacts.

Section Relabel.
Context {L M : Type} (g : L → M).
Implicit Types (d : tree L) (ds : list (tree L)).

Lemma kids_relabel d : kids (relabel g d) = map (relabel g) (kids d).
Proof. by destruct d. Qed.

Lemma tag_relabel d : tag_of (relabel g d) = tag_of d.
Proof. by destruct d. Qed.

Lemma has_tag_relabel t d : has_tag t (relabel g d) = has_tag t d.
Proof. unfold has_tag. by rewrite tag_relabel. Qed.

Lemma pre_relabel d : pre (relabel g d) = map (relabel g) (pre d).
Proof.
  induction d as [l t a x ks IH] using tree_ind_kids.
  rewrite (pre_unfold (Node l t a x ks)), pre_unfold. simpl. f_equal.
  induction ks as [|k ks IHks]; simpl; [done|].
  apply Forall_cons in IH as [IHk IH]. by rewrite map_app, IHk, IHks.
Qed.

Lemma flat_map_pre_relabel ds :
  flat_map pre (map (relabel g) ds) = map (relabel g) (flat_map pre ds).
Proof.
  induction ds as [|k ks IH]; simpl; [done|].
  by rewrite map_app, pre_relabel, IH.
Qed.

Lemma filter_has_tag_relabel t ds :
  List.filter (has_tag t) (map (relabel g) ds)
  = map (relabel g) (List.filter (has_tag t) ds).
Proof.
  induction ds as [|k ks IH]; simpl; [done|].
  rewrite has_tag_relabel. destruct (has_tag t k); simpl; by rewrite IH.
Qed.

Lemma existsb_has_tag_relabel t ds :
  existsb (has_tag t) (map (relabel g) ds) = existsb (has_tag t) ds.
Proof.
  induction ds as [|k ks IH]; simpl; [done|]. by rewrite has_tag_relabel, IH.
Qed.

Lemma find_first_relabel t ds :
  find_first (has_tag t) (map (relabel g) ds)
  = relabel g <$> find_first (has_tag t) ds.
Proof.
  unfold find_first. rewrite flat_map_pre_relabel, filter_has_tag_relabel.
  by destruct (List.filter _ _).
Qed.

Lemma top_first_relabel t ds :
  top_first (has_tag t) (map (relabel g) ds)
  = relabel g <$> top_first (has_tag t) ds.
Proof.
  induction ds as [|k ks IH]; simpl; [done|].
  rewrite has_tag_relabel, pre_relabel, existsb_has_tag_relabel.
  destruct (has_tag t k); [done|]. by destruct (existsb _ _).
Qed.

Lemma remove_top_relabel t ds :
  remove_top (has_tag t) (map (relabel g) ds)
  = map (relabel g) (remove_top (has_tag t) ds).
Proof.
  induction ds as [|k ks IH]; simpl; [done|].
  rewrite has_tag_relabel. destruct (has_tag t k); simpl; by rewrite ?IH.
Qed.

Lemma replace_first_relabel t new d :
  replace_first (has_tag t) (relabel g new) (relabel g d)
  = relabel g (replace_first (has_tag t) new d).
Proof.
  induction d as [l tg a x ks IH] using tree_ind_kids.
  simpl. change (has_tag t (Node (g l) tg a x (map (relabel g) ks)))
    with (has_tag t (Node l tg a x ks)).
  destruct (has_tag t (Node l tg a x ks)); [done|]. simpl. f_equal.
  induction ks as [|k ks IHks]; simpl; [done|].
  apply Forall_cons in IH as [IHk IH].
  rewrite pre_relabel, existsb_has_tag_relabel.
  destruct (existsb _ _); simpl; by rewrite ?IHk, ?IHks.
Qed.

Lemma replace_in_forest_relabel t new ds :
  replace_in_forest (has_tag t) (replace_first (has_tag t) (relabel g new))
    (map (relabel g) ds)
  = map (relabel g)
      (replace_in_forest (has_tag t) (replace_first (has_tag t) new) ds).
Proof.
  induction ds as [|k ks IH]; simpl; [done|].
  rewrite pre_relabel, existsb_has_tag_relabel.
  destruct (existsb _ _); simpl; by rewrite ?replace_first_relabel, ?IH.
Qed.

(** The row update does not depend on the labels. *)
Lemma updated_row_relabel f1 f2 f3 new_text row :
  updated_row (g f1) (g f2) (g f3) new_text (relabel g row)
  = relabel g <$> updated_row f1 f2 f3 new_text row.
Proof.
  unfold updated_row. rewrite kids_relabel, find_first_relabel.
  destruct (find_first (has_tag (w "tc")) (kids row)) as [cell|]; [|done].
  simpl. rewrite kids_relabel, find_first_relabel, top_first_relabel.
  destruct (find_first (has_tag (w "p")) (kids cell)) as [paragraph|]; [|done].
  simpl. destruct (top_first (has_tag (w "p")) (kids cell)); [|done].
  simpl. f_equal. destruct row as [lr tr ar xr kr], cell as [lc tc ac xc kc].
  simpl. f_equal.
  rewrite <- replace_in_forest_relabel. simpl. do 3 f_equal.
  rewrite remove_top_relabel, map_app. simpl. do 3 f_equal.
  rewrite kids_relabel, !find_first_relabel, map_app. simpl.
  f_equal.
  { by destruct (find_first (has_tag (w "pPr")) (kids paragraph)). }
  do 2 f_equal. rewrite map_app. simpl. f_equal.
  destruct (find_first (has_tag (w "r")) (kids paragraph)) as [run|]; [|done].
  simpl. rewrite kids_relabel, find_first_relabel.
  by destruct (find_first (has_tag (w "rPr")) (kids run)).
Qed.

End Relabel.

Lemma updated_row_erase (f1 f2 f3 : loc) new_text (row : tree loc) :
  updated_row tt tt tt new_text (erase row)
  = erase <$> updated_row f1 f2 f3 new_text row.
Proof. apply (updated_row_relabel (λ _ : loc, tt) f1 f2 f3). Qed.

End RelabelFacts.

Module CloneFacts.
Import Tree TreeFacts ReplaceFacts RowFacts.

Implicit Types (h : heap) (d : tree loc).

Lemma shape_frame h h' d :
  shape h d → (∀ l, l ∈ locs d → h' !! l = h !! l) → shape h' d.
Proof.
  unfold shape. rewrite !Forall_forall. intros Hs Hf d0 Hd0.
  unfold node_ok. rewrite Hf; [by apply Hs|]. by apply elem_of_locs.
Qed.

Lemma shape_extend h tl d : shape h d → shape (h ++ tl) d.
Proof.
  intros Hs. apply (shape_frame h); [done|]. intros l Hl.
  apply lookup_app_l. unfold shape in Hs. rewrite Forall_forall in Hs.
  apply list_elem_of_fmap in Hl as (d0 & -> & Hd0).
  by apply lookup_lt_node_ok, Hs.
Qed.

Lemma shape_locs_lt h d l : shape h d → l ∈ locs d → l < length h.
Proof.
  unfold shape. rewrite Forall_forall. intros Hs Hl.
  apply list_elem_of_fmap in Hl as (d0 & -> & Hd0).
  by apply lookup_lt_node_ok, Hs.
Qed.

Lemma height_le_size {L : Type} (d : tree L) : height d ≤ length (pre d).
Proof.
  induction d as [l t a x ks IH] using tree_ind_kids.
  rewrite pre_unfold. simpl.
  assert (max_list (map height ks) ≤ length (flat_map pre ks)); [|lia].
  induction ks as [|k ks IHks]; simpl; [done|].
  apply Forall_cons in IH as [IHk IH]. specialize (IHks IH).
  rewrite length_app. lia.
Qed.

(** An element of a forest in the store is no deeper than the store is
    long. *)
Lemma height_le_store h d : shape h d → NoDup (locs d) → height d ≤ length h.
Proof.
  intros Hs Hnd. pose proof (height_le_size d) as Hh.
  assert (length (locs d) ≤ length (seq 0 (length h))) as Hlen.
  { apply submseteq_length, NoDup_submseteq; [done|].
    intros l Hl. apply elem_of_seq. split; [lia|]. simpl.
    by apply (shape_locs_lt h d). }
  unfold locs in Hlen. rewrite length_map, length_seq in Hlen. lia.
Qed.

(** What [ET.tostring] writes for an element that the store holds as [d]. *)
Lemma tostring_shape h d fuel :
  shape h d → height d ≤ fuel →
  ET.tostring_in fuel h (label d) = Some (erase d).
Proof.
  revert fuel. induction d as [l t a x ks IH] using tree_ind_kids.
  intros fuel Hs Hh. apply shape_unfold in Hs as [Hn Hks].
  destruct fuel as [|fuel]; [simpl in Hh; lia|].
  simpl. unfold node_ok in Hn. simpl in Hn. rewrite Hn. simpl.
  assert (mapM (ET.tostring_in fuel h) (map label ks) = Some (map erase ks)) as ->.
  { apply mapM_Some. apply Forall2_fmap.
    assert (∀ k, k ∈ ks → height k ≤ fuel) as Hk.
    { intros k Hk. pose proof (height_kid (Node l t a x ks) k Hk). lia. }
    clear Hn Hh. induction ks as [|k ks IHks]; [constructor|].
    apply Forall_cons in IH as [IHk IH]. apply Forall_cons in Hks as [Hsk Hks].
    constructor.
    - apply IHk; [done|]. apply Hk. left.
    - apply IHks; [done..|]. intros k' Hk'. apply Hk. by right. }
  done.
Qed.

(** What [ET.fromstring] allocates: a fresh copy of the document value. *)
Lemma load_shape (x : xml) h r h' :
  ET.load x h = (r, h') →
  ∃ d tl,
    h' = h ++ tl ∧ erase d = x ∧ label d = r ∧ shape h' d
    ∧ NoDup (locs d) ∧ Forall (λ l, length h ≤ l) (locs d).
Proof.
  revert h r h'. induction x as [u t a xx ks IH] using tree_ind_kids.
  intros h r h'. simpl.
  set (load_all := fix load_all (ds : list xml) (h : heap) : list loc * heap :=
         match ds with
         | [] => ([], h)
         | d' :: ds' =>
             let '(c, h') := ET.load d' h in
             let '(cs, h'') := load_all ds' h' in (c :: cs, h'')
         end).
  assert (∀ h cs h1, load_all ks h = (cs, h1) →
            ∃ ds tl, h1 = h ++ tl ∧ map erase ds = ks ∧ map label ds = cs
              ∧ Forall (shape h1) ds
              ∧ NoDup (map label (flat_map pre ds))
              ∧ Forall (λ l, length h ≤ l) (map label (flat_map pre ds)))
    as Hall.
  { clear h r h'. induction ks as [|k ks IHks]; intros h cs h1; simpl.
    - intros [= <- <-]. exists [], []. rewrite app_nil_r.
      split_and!; try done; constructor.
    - apply Forall_cons in IH as [IHk IH].
      destruct (ET.load k h) as [c h2] eqn:Ek.
      destruct (load_all ks h2) as [cs' h3] eqn:Eks. intros [= <- <-].
      destruct (IHk _ _ _ Ek) as (d & tl & -> & Hd & Hc & Hsd & Hndd & Hged).
      destruct (IHks IH _ _ _ Eks) as (ds & tl' & -> & Hds & Hcs & Hsds & Hndds & Hgeds).
      exists (d :: ds), (tl ++ tl'). rewrite app_assoc.
      split_and!; try done.
      + simpl. by rewrite Hd, Hds.
      + simpl. by rewrite Hc, Hcs.
      + constructor; [by apply shape_extend|done].
      + simpl. rewrite map_app. apply NoDup_app. split_and!; try done.
        intros l Hl Hl'. rewrite Forall_forall in Hgeds.
        specialize (Hgeds l Hl').
        pose proof (shape_locs_lt (h ++ tl) d l Hsd Hl). lia.
      + simpl. rewrite map_app. apply Forall_app. split; [done|].
        eapply Forall_impl; [exact Hgeds|]. simpl. intros l Hl.
        rewrite length_app in Hl. lia. }
  destruct (load_all ks h) as [cs h1] eqn:Eks. intros [= <- <-].
  destruct (Hall _ _ _ Eks) as (ds & tl & -> & Hds & Hcs & Hsds & Hnd & Hge).
  exists (Node (length (h ++ tl)) t a xx ds),
    (tl ++ [ {| tag := t; attrib := a; text := xx; children := cs |} ]).
  rewrite app_assoc. split_and!; try done.
  - rewrite <- Hds. by destruct u.
  - apply shape_unfold. split.
    + unfold node_ok. simpl. rewrite lookup_app_r by lia.
      rewrite Nat.sub_diag. simpl. by rewrite Hcs.
    + simpl. eapply Forall_impl; [exact Hsds|]. intros d. apply shape_extend.
  - rewrite locs_unfold. simpl. apply NoDup_cons. split; [|done].
    intros Hl. apply list_elem_of_fmap in Hl as (d0 & Heq & Hd0).
    apply elem_of_flat_map_pre in Hd0 as (k & Hk & Hd0).
    rewrite Forall_forall in Hsds. specialize (Hsds k Hk).
    assert (label d0 < length (h ++ tl)); [|lia].
    apply (shape_locs_lt (h ++ tl) k); [done|]. by apply elem_of_locs.
  - rewrite locs_unfold. simpl. constructor; [rewrite length_app; lia|done].
Qed.

End CloneFacts.

Module LoopFacts.
Import Tree TreeFacts ReplaceFacts RowFacts RelabelFacts CloneFacts.

Implicit Types (h : heap) (d r : tree loc).

Lemma updated_row_label {L : Type} (f1 f2 f3 : L) s (row row' : tree L) :
  updated_row f1 f2 f3 s row = Some row' →
  label row' = label row ∧ tag_of row' = tag_of row.
Proof.
  unfold updated_row.
  repeat match goal with
         | |- context [match ?o with Some _ => _ | None => _ end] => destruct o
         end; intros [= <-]; done.
Qed.

(** The first loop on rows that all have a bullet: every row is updated in
    turn, and the loop goes on with the rows that follow. *)
Lemma update_rows_loop (table : loc) (bullets : list BulletPoint)
    (ps : list (tree loc * string)) :
  ∀ (i : nat) (rest : list loc) (h1 : heap),
    (∀ j p, ps !! j = Some p →
       ∃ b, bullets !! (i + j) = Some b ∧ bullet_text b = Some p.2) →
    Forall (λ p, shape h1 p.1 ∧ NoDup (locs p.1)
                 ∧ is_Some (updated_row tt tt tt p.2 (erase p.1))) ps →
    NoDup (flat_map (λ p, locs p.1) ps) →
    ∃ h2 rs',
      update_or_remove_rows table bullets i (map (λ p, label p.1) ps ++ rest) h1
      = update_or_remove_rows table bullets (i + length ps) rest h2
      ∧ Forall2 (row_updated h1 h2) ps rs'
      ∧ length h1 ≤ length h2
      ∧ (∀ l, l < length h1 → l ∉ flat_map (λ p, locs p.1) ps →
              h2 !! l = h1 !! l).
Proof.
  induction ps as [|[r s] ps IH]; intros i rest h1 Hb Hps Hnd.
  { exists h1, []. simpl. rewrite Nat.add_0_r. split_and!; done. }
  apply Forall_cons in Hps as [(Hs & Hndr & [u Hu]) Hps]. simpl in Hs, Hndr, Hu.
  simpl in Hnd. apply NoDup_app in Hnd as (_ & Hdisj & Hnd).
  destruct (Hb 0 (r, s) eq_refl) as (b & Hbi & Hbs). rewrite Nat.add_0_r in Hbi.
  simpl in Hbs.
  rewrite (updated_row_erase (length h1) (S (length h1)) (S (S (length h1)))) in Hu.
  destruct (updated_row (length h1) _ _ s r) as [r'|] eqn:Er'; [|done].
  injection Hu as <-.
  destruct (update_row_content_shape h1 r r' s Hs
              (height_le_store h1 r Hs Hndr) Hndr Er')
    as (h1' & Hrun & Hs' & Hlab & Hh' & Hlen & Hframe & Hlocs).
  destruct (IH (S i) rest h1') as (h2 & rs' & Hloop & Hrs' & Hlen2 & Hframe2).
  { intros j p Hp. destruct (Hb (S j) p Hp) as (b' & Hb' & Hbs').
    exists b'. split; [|done]. by replace (S i + j) with (i + S j) by lia. }
  { apply Forall_forall. intros p Hp. rewrite Forall_forall in Hps.
    destruct (Hps p Hp) as (Hsp & Hndp & Hup). split_and!; try done.
    apply (shape_frame h1); [done|].
    intros l Hl. apply Hframe; [by apply (shape_locs_lt h1 p.1)|].
    intros Hlr. apply (Hdisj l Hlr).
    apply list_elem_of_In, in_flat_map. exists p.
    split; by apply list_elem_of_In. }
  { done. }
  assert (∀ l, l ∈ locs r' →
            l < length h1' ∧ l ∉ flat_map (λ p, locs p.1) ps) as Hr'_locs.
  { intros l Hl. split; [by apply (shape_locs_lt h1' r')|].
    intros Hin. apply list_elem_of_In, in_flat_map in Hin as (p & Hp & Hlp).
    apply list_elem_of_In in Hp, Hlp.
    destruct (Hlocs l Hl) as [Hlr|Hge].
    - apply (Hdisj l Hlr). apply list_elem_of_In, in_flat_map.
      exists p. split; by apply list_elem_of_In.
    - rewrite Forall_forall in Hps. destruct (Hps p Hp) as (Hsp & _).
      pose proof (shape_locs_lt h1 p.1 l Hsp Hlp). lia. }
  exists h2, (r' :: rs'). split_and!.
  - simpl. unfold bind at 1. rewrite Hbi. unfold bind at 1, bullet_text_item.
    rewrite Hbs. unfold ret at 1. rewrite Hrun.
    replace (i + S (length ps)) with (S i + length ps) by lia. exact Hloop.
  - constructor.
    + split_and!; simpl; try done.
      * apply (shape_frame h1'); [done|]. intros l Hl.
        destruct (Hr'_locs l Hl). by apply Hframe2.
      * by rewrite (updated_row_erase (length h1) (S (length h1))
                      (S (S (length h1)))), Er'.
      * lia.
    + eapply Forall2_impl; [exact Hrs'|].
      intros p r'' (H1 & H2 & H3 & H4 & H5). split_and!; try done.
      intros l Hl. destruct (H5 l Hl); [by left|right; lia].
  - lia.
  - intros l Hl Hnot. rewrite Hframe2, Hframe; try done; try lia.
    + intros Hlr. apply Hnot. simpl. apply elem_of_app. by left.
    + intros Hlr. apply Hnot. simpl. apply elem_of_app. by right.
Qed.

Lemma remove_first_keeps (x y : loc) (cs : list loc) :
  x ∈ cs → x ≠ y → x ∈ ET.remove_first y cs.
Proof.
  induction cs as [|c cs IH]; simpl; [done|].
  intros [->|Hx]%elem_of_cons Hne.
  - destruct (Nat.eqb_spec y c) as [->|_]; [done|left].
  - destruct (Nat.eqb_spec y c) as [->|_]; [done|right; by apply IH].
Qed.

(** The first loop on rows that have no bullet: every row is removed from
    the table. *)
Lemma remove_rows_loop (table : loc) (bullets : list BulletPoint) (ls : list loc) :
  ∀ (i : nat) (h1 : heap) (e : Element),
    (ls ≠ [] → length bullets ≤ i) →
    h1 !! table = Some e →
    NoDup ls → (∀ x, x ∈ ls → x ∈ children e) →
    ∃ h2 e2,
      update_or_remove_rows table bullets i ls h1 = (h2, Returned tt)
      ∧ h2 !! table = Some e2
      ∧ children e2 = remove_all ls (children e)
      ∧ length h2 = length h1
      ∧ (∀ l, l ≠ table → h2 !! l = h1 !! l).
Proof.
  induction ls as [|r ls IH]; intros i h1 e Hi He Hnd Hin.
  { exists h1, e. by split_and!. }
  apply NoDup_cons in Hnd as [Hr Hnd].
  assert (length bullets ≤ i) as Hi' by (by apply Hi).
  set (e1 := ET.set_children (ET.remove_first r (children e)) e).
  set (h1' := alter (λ e, ET.set_children (ET.remove_first r (children e)) e)
                table h1).
  assert (h1' !! table = Some e1) as He1.
  { subst h1'. by rewrite list_lookup_alter_eq, He. }
  destruct (IH (S i) h1' e1) as (h2 & e2 & Hloop & He2 & Hch & Hlen & Hframe);
    try done; [intros _; lia| |].
  { intros x Hx. simpl. apply remove_first_keeps; [apply Hin; by right|].
    by intros ->. }
  exists h2, e2. split_and!; try done.
  - simpl. unfold bind at 1. rewrite (lookup_ge_None_2 bullets i) by lia.
    unfold ET.remove, ET.children_in. rewrite He.
    assert (ET.is_child r (children e) = true) as ->.
    { apply HeapFacts.is_child_elem, Hin. left. }
    exact Hloop.
  - rewrite Hlen. subst h1'. apply length_alter.
  - intros l Hl. rewrite Hframe by done. subst h1'.
    by rewrite list_lookup_alter_ne.
Qed.

(** The second loop: one clone of the template row per remaining bullet,
    updated with the text of the bullet and appended to the table. *)
Lemma add_rows_loop (table : loc) (bullet_rows : list loc) (last_row : tree loc)
    (template : xml) (bullets : list BulletPoint) (texts : list string) :
  last bullet_rows = Some (label last_row) →
  ET.reread (erase last_row) = Some template →
  Forall2 (λ b s, bullet_text b = Some s) bullets texts →
  Forall (λ s, is_Some (updated_row tt tt tt s template)) texts →
  ∀ (h1 : heap) (e : Element),
    shape h1 last_row → height last_row ≤ length h1 →
    h1 !! table = Some e → table ∉ locs last_row →
    ∃ h2 e2 clones,
      add_new_rows table bullet_rows bullets h1 = (h2, Returned tt)
      ∧ h2 !! table = Some e2
      ∧ children e2 = children e ++ clones
      ∧ Forall2 (row_added h1 h2 template) clones texts
      ∧ length h1 ≤ length h2
      ∧ (∀ l, l < length h1 → l ≠ table → h2 !! l = h1 !! l).
Proof.
  intros Hlast Hre Hb. induction Hb as [|b s bullets texts Hbs Hb IH];
    intros Hup h1 e Hs Hh He Htbl.
  { exists h1, e, []. rewrite app_nil_r. split_and!; done. }
  apply Forall_cons in Hup as [[u Hu] Hup].
  assert (table < length h1) as Htbl_lt by (by apply lookup_lt_Some in He).
  (* the clone *)
  destruct (ET.load template h1) as [c h1a] eqn:Eload.
  destruct (load_shape template h1 c h1a Eload)
    as (dc & tl & -> & Hdc & Hc & Hs_dc & Hnd_dc & Hge_dc).
  subst c.
  (* its update *)
  pose proof Hu as Hu'. rewrite <- Hdc in Hu'.
  rewrite (updated_row_erase (length (h1 ++ tl)) (S (length (h1 ++ tl)))
             (S (S (length (h1 ++ tl))))) in Hu'.
  destruct (updated_row (length (h1 ++ tl)) _ _ s dc) as [dc'|] eqn:Edc';
    [|done].
  destruct (update_row_content_shape (h1 ++ tl) dc dc' s Hs_dc
              (height_le_store _ dc Hs_dc Hnd_dc) Hnd_dc Edc')
    as (h1b & Hrun & Hs' & Hlab & Hh' & Hlen & Hframe & Hlocs).
  assert (∀ l, l ∈ locs dc' → length h1 ≤ l) as Hge_dc'.
  { intros l Hl. destruct (Hlocs l Hl) as [Hl'|Hl'].
    - rewrite Forall_forall in Hge_dc. by apply Hge_dc.
    - rewrite length_app in Hl'. lia. }
  assert (table ∉ locs dc) as Htbl_dc.
  { intros Hin. rewrite Forall_forall in Hge_dc. specialize (Hge_dc _ Hin). lia. }
  assert (h1b !! table = Some e) as He_b.
  { rewrite Hframe; [by rewrite lookup_app_l| |done]. rewrite length_app. lia. }
  (* appended to the table *)
  set (e1 := ET.set_children (children e ++ [label dc]) e).
  set (h1c := alter (λ e, ET.set_children (children e ++ [label dc]) e) table h1b).
  assert (h1c !! table = Some e1) as He1.
  { subst h1c. by rewrite list_lookup_alter_eq, He_b. }
  assert (length h1c = length h1b) as Hlen_c by apply length_alter.
  assert (∀ l, l ≠ table → h1c !! l = h1b !! l) as Hframe_c.
  { intros l Hl. subst h1c. by rewrite list_lookup_alter_ne. }
  assert (∀ l, l < length h1 → l ≠ table → h1c !! l = h1 !! l) as Hold.
  { intros l Hl Hne. rewrite Hframe_c by done.
    rewrite Hframe; [by rewrite lookup_app_l| |].
    - rewrite length_app. lia.
    - intros Hin. rewrite Forall_forall in Hge_dc. specialize (Hge_dc _ Hin). lia. }
  destruct (IH Hup h1c e1) as (h2 & e2 & clones & Hloop & He2 & Hch & Hcl & Hlen2 & Hframe2);
    try done.
  { apply (shape_frame h1); [done|]. intros l Hl. apply Hold.
    - by apply (shape_locs_lt h1 last_row).
    - by intros ->. }
  { rewrite length_app in Hlen. lia. }
  exists h2, e2, (label dc :: clones). split_and!.
  - simpl. unfold bind at 1. rewrite Hlast. unfold ET.clone.
    rewrite (tostring_shape h1 last_row) by done. rewrite Hre, Eload.
    unfold bind at 1, bullet_text_item. rewrite Hbs. unfold ret at 1.
    unfold bind at 1. rewrite Hrun.
    unfold bind at 1, ET.append. exact Hloop.
  - done.
  - rewrite Hch. simpl. by rewrite <- app_assoc.
  - constructor.
    + exists dc'. split_and!; try done.
      * apply (shape_frame h1c).
        { apply (shape_frame h1b); [done|]. intros l Hl. apply Hframe_c.
          specialize (Hge_dc' l Hl). lia. }
        intros l Hl. apply Hframe2.
        { rewrite Hlen_c. by apply (shape_locs_lt h1b dc'). }
        specialize (Hge_dc' l Hl). lia.
      * lia.
      * rewrite <- Hdc.
        by rewrite (updated_row_erase (length (h1 ++ tl)) (S (length (h1 ++ tl)))
                      (S (S (length (h1 ++ tl))))), Edc'.
    + eapply Forall2_impl; [exact Hcl|].
      intros c' s' (dc'' & H1 & H2 & H3 & H4 & H5).
      exists dc''. split_and!; try done.
      intros l Hl. specialize (H5 l Hl). rewrite length_app in Hlen. lia.
  - rewrite length_app in Hlen. lia.
  - intros l Hl Hne. rewrite Hframe2; [by apply Hold| |done].
    rewrite length_app in Hlen. lia.
Qed.

End LoopFacts.

Module ListFacts.
Import Tree TreeFacts.

Lemma filter_commute {A : Type} (f g : A → bool) (l : list A) :
  List.filter f (List.filter g l) = List.filter g (List.filter f l).
Proof.
  induction l as [|x l IH]; simpl; [done|].
  destruct (f x) eqn:Ef, (g x) eqn:Eg; simpl; rewrite ?Ef, ?Eg, ?IH; done.
Qed.

Lemma filter_filter {A : Type} (f g : A → bool) (l : list A) :
  List.filter f (List.filter g l) = List.filter (λ x, g x && f x) l.
Proof.
  induction l as [|x l IH]; simpl; [done|].
  destruct (g x); simpl; [destruct (f x)|]; by rewrite IH.
Qed.

Lemma filter_ext_elem {A : Type} (f g : A → bool) (l : list A) :
  (∀ x, x ∈ l → f x = g x) → List.filter f l = List.filter g l.
Proof.
  induction l as [|x l IH]; intros H; simpl; [done|].
  rewrite (H x) by left. rewrite IH; [done|]. intros y Hy. apply H. by right.
Qed.

Lemma filter_map {A B : Type} (f : B → bool) (g : A → B) (l : list A) :
  List.filter f (map g l) = map g (List.filter (f ∘ g) l).
Proof.
  induction l as [|x l IH]; simpl; [done|].
  destruct (f (g x)); simpl; by rewrite IH.
Qed.

Lemma sublist_list_filter {A : Type} (f : A → bool) (l : list A) :
  sublist (List.filter f l) l.
Proof.
  induction l as [|x l IH]; simpl; [constructor|].
  destruct (f x); by constructor.
Qed.

Lemma sublist_flat_map {A B : Type} (f : A → list B) (l1 l2 : list A) :
  sublist l1 l2 → sublist (flat_map f l1) (flat_map f l2).
Proof.
  induction 1 as [|x l1 l2 _ IH|x l1 l2 _ IH]; simpl.
  - constructor.
  - by apply sublist_app.
  - by apply sublist_inserts_l.
Qed.

Lemma elem_of_list_filter {A : Type} (f : A → bool) (l : list A) x :
  x ∈ List.filter f l ↔ x ∈ l ∧ f x = true.
Proof. by rewrite !list_elem_of_In, filter_In. Qed.

(** On children without repetition, removing first occurrences one after
    the other is filtering. *)
Lemma remove_first_filter (y : loc) (cs : list loc) :
  NoDup cs → ET.remove_first y cs = List.filter (λ c, negb (Nat.eqb y c)) cs.
Proof.
  induction 1 as [|c cs Hc Hnd IH]; simpl; [done|].
  destruct (Nat.eqb_spec y c) as [->|Hne]; simpl; [|by rewrite IH].
  symmetry. rewrite <- (filter_ext_elem (λ _, true)).
  - clear. induction cs; simpl; by f_equal.
  - intros x Hx. destruct (Nat.eqb_spec c x) as [->|]; done.
Qed.

Lemma NoDup_list_filter {A : Type} (f : A → bool) (l : list A) :
  NoDup l → NoDup (List.filter f l).
Proof. intros H. eapply sublist_NoDup; [done|apply sublist_list_filter]. Qed.

Lemma remove_all_filter (ls cs : list loc) :
  NoDup cs →
  remove_all ls cs = List.filter (λ c, negb (ET.is_child c ls)) cs.
Proof.
  unfold remove_all. revert cs. induction ls as [|y ls IH]; intros cs Hnd; simpl.
  - clear. induction cs; simpl; by f_equal.
  - rewrite IH by (rewrite remove_first_filter by done; by apply NoDup_list_filter).
    rewrite remove_first_filter by done. rewrite filter_filter.
    apply filter_ext_elem. intros c _. unfold ET.is_child. simpl.
    rewrite (Nat.eqb_sym c y). by destruct (Nat.eqb y c).
Qed.

End ListFacts.

Module TagFacts.
Import Tree TreeFacts CloneFacts.

Lemma tags_kept_refl h : tags_kept h h.
Proof. intros l e He. eauto. Qed.

Lemma tags_kept_trans h1 h2 h3 :
  tags_kept h1 h2 → tags_kept h2 h3 → tags_kept h1 h3.
Proof.
  intros H12 H23 l e He. destruct (H12 l e He) as (e' & He' & Ht).
  destruct (H23 l e' He') as (e'' & He'' & Ht'). exists e''.
  split; [done|congruence].
Qed.

Lemma tags_kept_app h tl : tags_kept h (h ++ tl).
Proof.
  intros l e He. exists e. split; [|done].
  rewrite lookup_app_l; [done|]. by apply lookup_lt_Some in He.
Qed.

Lemma tags_kept_alter h (f : Element → Element) l :
  (∀ e, tag (f e) = tag e) → tags_kept h (alter f l h).
Proof.
  intros Hf l' e He. destruct (decide (l = l')) as [->|Hne].
  - exists (f e). by rewrite list_lookup_alter_eq, He.
  - exists e. by rewrite list_lookup_alter_ne.
Qed.

Lemma has_tag_kept h h' t l :
  tags_kept h h' → l < length h → ET.has_tag h' t l = ET.has_tag h t l.
Proof.
  intros Hk Hl. unfold ET.has_tag.
  destruct (lookup_lt_is_Some_2 h l Hl) as [e He].
  destruct (Hk l e He) as (e' & -> & ->). by rewrite He.
Qed.

Lemma remove_tags parent child h : tags_kept h (ET.remove parent child h).1.
Proof.
  unfold ET.remove. destruct (ET.is_child _ _); simpl.
  - by apply tags_kept_alter.
  - apply tags_kept_refl.
Qed.

Lemma append_tags parent child h : tags_kept h (ET.append parent child h).1.
Proof. by apply tags_kept_alter. Qed.

Lemma update_row_content_tags row s h :
  tags_kept h (_update_row_content row s h).1.
Proof.
  destruct (ET.find_in h (w "tc") row) as [cell|] eqn:Ec.
  2:{ rewrite update_row_content_early_return by (by left). apply tags_kept_refl. }
  destruct (ET.find_in h (w "p") cell) as [paragraph|] eqn:Ep.
  2:{ rewrite update_row_content_early_return by (right; eauto). apply tags_kept_refl. }
  rewrite (update_row_content_steps h row cell paragraph) by done.
  destruct (ET.is_child _ _); simpl.
  - eapply tags_kept_trans; [|apply tags_kept_app]. by apply tags_kept_alter.
  - apply tags_kept_app.
Qed.

Lemma clone_tags l h : tags_kept h (ET.clone l h).1.
Proof.
  unfold ET.clone. destruct (ET.tostring_in _ _ _) as [d|]; [|apply tags_kept_refl].
  destruct (ET.reread d) as [d'|]; [|apply tags_kept_refl].
  destruct (ET.load d' h) as [r h'] eqn:E. simpl.
  destruct (load_shape d' h r h' E) as (_ & tl & -> & _). apply tags_kept_app.
Qed.

Lemma bind_tags {A B : Type} (m : Py A) (k : A → Py B) h :
  tags_kept h (m h).1 → (∀ a h1, tags_kept h1 (k a h1).1) →
  tags_kept h (bind m k h).1.
Proof.
  intros Hm Hk. unfold bind. destruct (m h) as [h1 [a|e]] eqn:E; simpl in *.
  - eapply tags_kept_trans; [exact Hm|apply Hk].
  - done.
Qed.

Lemma update_or_remove_rows_tags table bullets rows_ :
  ∀ i h, tags_kept h (update_or_remove_rows table bullets i rows_ h).1.
Proof.
  induction rows_ as [|row rest IH]; intros i h; simpl; [apply tags_kept_refl|].
  apply bind_tags; [|intros _ h1; apply IH].
  destruct (bullets !! i) as [b|]; [|apply remove_tags].
  apply bind_tags.
  - unfold bullet_text_item. destruct (bullet_text b); apply tags_kept_refl.
  - intros s h1. apply update_row_content_tags.
Qed.

Lemma add_new_rows_tags table bullet_rows bullets :
  ∀ h, tags_kept h (add_new_rows table bullet_rows bullets h).1.
Proof.
  induction bullets as [|b rest IH]; intros h; simpl; [apply tags_kept_refl|].
  apply bind_tags.
  { destruct (last bullet_rows); [apply clone_tags|apply tags_kept_refl]. }
  intros c h1. apply bind_tags.
  { unfold bullet_text_item. destruct (bullet_text b); apply tags_kept_refl. }
  intros s h2. apply bind_tags; [apply update_row_content_tags|].
  intros _ h3. apply bind_tags; [apply append_tags|]. intros _ h4. apply IH.
Qed.

(** Rewriting a table keeps every element of the store and its tag. *)
Lemma update_table_content_tags table section h :
  tags_kept h (_update_table_content table section h).1.
Proof.
  unfold _update_table_content. apply bind_tags.
  { rewrite select_bullet_rows_run.
    destruct (ET.findall_in h (w "tr") table); apply tags_kept_refl. }
  intros brs h1. apply bind_tags; [apply update_or_remove_rows_tags|].
  intros _ h2. apply add_new_rows_tags.
Qed.

End TagFacts.

(** ** Rewriting a table *)

Section TableRewrite.
Import Tree TreeFacts ReplaceFacts RowFacts RelabelFacts CloneFacts LoopFacts ListFacts TagFacts.

Context (h : heap) (tbl : tree loc) (section : ResumeSection)
        (texts : list string) (first : tree loc).

Let all_rows := List.filter (has_tag (w "tr")) (kids tbl).
Let start := start_row_index section (raw_row_text h (label first)).
Let bullet_rows := drop start all_rows.
Let bullets := dict_get (sec_bullet_points section) [].

Hypothesis Hshape : shape h tbl.
Hypothesis Hnodup : NoDup (locs tbl).
Hypothesis Hflat :
  List.filter (has_tag (w "tr")) (flat_map pre (kids tbl)) = all_rows.
Hypothesis Hfirst : head all_rows = Some first.
Hypothesis Htexts : Forall2 (λ b s, bullet_text b = Some s) bullets texts.
Hypothesis Hupdate :
  ∀ i r s, bullet_rows !! i = Some r → texts !! i = Some s →
           is_Some (updated_row tt tt tt s (erase r)).
Hypothesis Hgrow :
  length bullet_rows < length texts →
  ∃ template,
    template_row (map erase bullet_rows) texts = Some template
    ∧ ∀ j s, length bullet_rows ≤ j → texts !! j = Some s →
             is_Some (updated_row tt tt tt s template).

Local Lemma table_height : height tbl ≤ length h.
Proof. by apply height_le_store. Qed.

Local Lemma select_rows :
  select_bullet_rows (label tbl) section h
  = (h, Returned (map label bullet_rows)).
Proof.
  rewrite select_bullet_rows_run.
  rewrite (findall_in_shape h tbl (w "tr") Hshape table_height), Hflat.
  assert (all_rows = first :: tail all_rows) as E.
  { pose proof Hfirst as H. destruct all_rows; [done|]. by injection H as ->. }
  unfold bullet_rows. rewrite <- skipn_map. rewrite E at 1. simpl map.
  cbv zeta. fold start. by rewrite E at 2.
Qed.

Local Lemma row_is_kid r : r ∈ all_rows → r ∈ kids tbl ∧ has_tag (w "tr") r = true.
Proof. apply elem_of_list_filter. Qed.

Local Lemma kids_nodup : NoDup (map label (flat_map pre (kids tbl))).
Proof.
  pose proof Hnodup as H. rewrite locs_unfold in H. by apply NoDup_cons in H as [_ H].
Qed.

Local Lemma kid_facts k :
  k ∈ kids tbl → shape h k ∧ NoDup (locs k) ∧ label tbl ∉ locs k.
Proof.
  intros Hk. split_and!.
  - apply shape_unfold in Hshape as [_ Hks]. rewrite Forall_forall in Hks.
    by apply Hks.
  - apply (nodup_forest_kid (kids tbl)); [apply kids_nodup|done].
  - intros Hin. pose proof Hnodup as H. rewrite locs_unfold in H.
    apply NoDup_cons in H as [H _]. apply H.
    apply list_elem_of_fmap in Hin as (d0 & -> & Hd0).
    apply list_elem_of_fmap. exists d0. split; [done|].
    apply elem_of_flat_map_pre. eauto.
Qed.

Local Lemma rows_sublist : sublist bullet_rows (kids tbl).
Proof.
  unfold bullet_rows. etrans; [apply sublist_drop|].
  apply sublist_list_filter.
Qed.

Let n := length texts.
Let updated := take n bullet_rows.
Let removed := drop n bullet_rows.
Let pairs : list (tree loc * string) := zip updated texts.

Local Lemma pairs_rows : map (λ p : tree loc * string, label p.1) pairs = map label updated.
Proof.
  unfold pairs. rewrite <- (fst_zip updated texts) at 2.
  - by rewrite <- list_fmap_compose.
  - unfold updated, n. rewrite length_take. lia.
Qed.

Local Lemma pairs_lookup j p :
  pairs !! j = Some p → bullet_rows !! j = Some p.1 ∧ texts !! j = Some p.2.
Proof.
  unfold pairs. intros H. destruct p as [r s].
  apply lookup_zip_with_Some in H as (r' & s' & [= <- <-] & Hr & Hs).
  split; [|done]. unfold updated in Hr. by apply lookup_take_Some in Hr as [? _].
Qed.

Local Lemma bullet_row_facts r :
  r ∈ bullet_rows → r ∈ kids tbl ∧ has_tag (w "tr") r = true.
Proof.
  intros Hr. apply row_is_kid. unfold bullet_rows in Hr.
  apply (elem_of_sublist _ _ _ Hr), sublist_drop.
Qed.

Local Lemma rows_locs_nodup (rs : list (tree loc)) :
  sublist rs (kids tbl) → NoDup (flat_map locs rs).
Proof.
  intros Hsub. eapply sublist_NoDup; [|by apply sublist_flat_map].
  pose proof kids_nodup as H. clear -H.
  induction (kids tbl) as [|k ks IH]; simpl in *; [done|].
  rewrite map_app in H. apply NoDup_app in H as (H1 & H2 & H3).
  apply NoDup_app. split_and!; try done; [|by apply IH].
  intros l Hl Hl'. apply (H2 l Hl). clear -Hl'.
  induction ks as [|k' ks IH]; simpl in *; [done|].
  rewrite map_app. apply elem_of_app in Hl' as [?|?]; apply elem_of_app;
    [by left|right; by apply IH].
Qed.

Local Lemma first_loop_updates :
  ∃ h2 rs',
    update_or_remove_rows (label tbl) bullets 0 (map label bullet_rows) h
    = update_or_remove_rows (label tbl) bullets (length pairs)
        (map label removed) h2
    ∧ Forall2 (row_updated h h2) pairs rs'
    ∧ length h ≤ length h2
    ∧ (∀ l, l < length h → l ∉ flat_map (λ p, locs p.1) pairs →
            h2 !! l = h !! l).
Proof.
  assert (map label bullet_rows
          = map (λ p : tree loc * string, label p.1) pairs ++ map label removed) as ->.
  { rewrite pairs_rows, <- map_app. unfold updated, removed.
    by rewrite firstn_skipn. }
  apply (update_rows_loop (label tbl) bullets pairs 0 (map label removed) h).
  - intros j p Hp. apply pairs_lookup in Hp as [_ Hs].
    destruct (Forall2_lookup_r _ _ _ _ _ Htexts Hs) as (b & Hb & Hbs).
    by exists b.
  - apply Forall_forall. intros p Hp.
    apply list_elem_of_lookup_1 in Hp as [j Hj].
    apply pairs_lookup in Hj as [Hr Hs].
    assert (p.1 ∈ kids tbl) as Hk.
    { apply bullet_row_facts. by apply list_elem_of_lookup_2 in Hr. }
    destruct (kid_facts _ Hk) as (? & ? & _).
    split_and!; try done. by apply (Hupdate j).
  - assert (∀ ps : list (tree loc * string),
              flat_map (λ p, locs p.1) ps = flat_map locs (ps.*1)) as ->.
    { induction ps as [|p ps IH]; simpl; [done|]. by rewrite IH. }
    unfold pairs. rewrite fst_zip by (unfold updated, n; rewrite length_take; lia).
    apply rows_locs_nodup. etrans; [apply sublist_take|apply rows_sublist].
Qed.

Local Lemma table_node :
  h !! label tbl
  = Some {| tag := tag_of tbl; attrib := attrib_of tbl; text := text_of tbl;
            children := map label (kids tbl) |}.
Proof. by apply shape_unfold in Hshape as [? _]. Qed.

Local Lemma labels_nodup (rs : list (tree loc)) :
  sublist rs (kids tbl) → NoDup (map label rs).
Proof.
  intros Hsub. apply rows_locs_nodup in Hsub. clear -Hsub.
  induction rs as [|r rs IH]; simpl in *; [constructor|].
  apply NoDup_app in Hsub as (H1 & H2 & H3). apply NoDup_cons. split; [|by apply IH].
  intros Hin. apply (H2 (label r)).
  - rewrite locs_unfold. left.
  - apply list_elem_of_fmap in Hin as (r' & Heq & Hr').
    apply list_elem_of_In, in_flat_map. exists r'.
    split; [by apply list_elem_of_In|]. apply list_elem_of_In.
    rewrite Heq, locs_unfold. left.
Qed.

Local Lemma reread_tag (x x' : xml) : ET.reread x = Some x' → tag_of x' = tag_of x.
Proof.
  destruct x as [u t a xx ks]. simpl.
  destruct (ET.reread_text xx); [|done].
  destruct (mapM ET.reread ks); [|done]. by intros [= <-].
Qed.

Local Lemma template_tag template :
  template_row (map erase bullet_rows) texts = Some template →
  tag_of template = w "tr".
Proof.
  unfold template_row.
  destruct (last (map erase bullet_rows)) as [x|] eqn:El; [|done].
  destruct (texts !! _) as [s|]; [|done].
  destruct (updated_row tt tt tt s x) as [u|] eqn:Eu; [|done].
  intros Hre. apply reread_tag in Hre. apply updated_row_label in Eu as [_ Eu].
  rewrite Hre, Eu. change (map erase bullet_rows) with (erase <$> bullet_rows) in El.
  rewrite fmap_last in El.
  destruct (last bullet_rows) as [r|] eqn:Er; [|done]. injection El as <-.
  apply last_Some_elem_of, bullet_row_facts in Er as [_ Ht].
  unfold erase. rewrite tag_relabel. unfold has_tag in Ht.
  by apply String.eqb_eq in Ht.
Qed.

(** The run of [_update_table_content] on a table whose rows are its own
    children and can all be updated. *)
Lemma rewrite_of_table :
  ∃ h' clones,
    _update_table_content (label tbl) section h = (h', Returned tt)
    ∧ List.filter (ET.has_tag h' (w "tr")) (ET.children_in h' (label tbl))
      = map label (take start all_rows) ++ map label updated ++ clones
    ∧ length updated + length clones = length texts
    ∧ (∀ i r s, bullet_rows !! i = Some r → texts !! i = Some s →
         ET.tostring_in (length h') h' (label r)
         = updated_row tt tt tt s (erase r))
    ∧ (∀ j c s, clones !! j = Some c →
         texts !! (length bullet_rows + j) = Some s →
         ∃ template,
           template_row (map erase bullet_rows) texts = Some template
           ∧ ET.tostring_in (length h') h' c
             = updated_row tt tt tt s template).
Proof.
  destruct first_loop_updates as (h2 & rs' & Hloop1 & Hrs' & Hlen2 & Hframe2).
  pose proof table_node as He.
  set (e := {| tag := tag_of tbl; attrib := attrib_of tbl; text := text_of tbl;
               children := map label (kids tbl) |}) in *.
  assert (label tbl < length h) as Htbl_lt by (by apply lookup_lt_Some in He).
  assert (length bullets = n) as Hlenb by (by apply Forall2_length in Htexts).
  assert (length updated = n `min` length bullet_rows) as Hlen_upd.
  { unfold updated. by rewrite length_take. }
  assert (length pairs = length updated) as Hlen_pairs.
  { unfold pairs. rewrite length_zip_with. fold n. lia. }
  assert (∀ p, p ∈ pairs → p.1 ∈ kids tbl) as Hpairs_kids.
  { intros p Hp. apply list_elem_of_lookup_1 in Hp as [j Hj].
    apply pairs_lookup in Hj as [Hr _]. apply bullet_row_facts.
    by apply list_elem_of_lookup_2 in Hr. }
  assert (label tbl ∉ flat_map (λ p : tree loc * string, locs p.1) pairs) as Htbl_out.
  { intros Hin. apply list_elem_of_In, in_flat_map in Hin as (p & Hp & Hl).
    apply list_elem_of_In in Hp, Hl.
    by destruct (kid_facts _ (Hpairs_kids p Hp)) as (_ & _ & Hn). }
  assert (h2 !! label tbl = Some e) as He2 by (by rewrite Hframe2).
  (* the rows without bullet are removed *)
  destruct (remove_rows_loop (label tbl) bullets (map label removed)
              (length pairs) h2 e) as (h3 & e3 & Hloop2 & He3 & Hch3 & Hlen3 & Hframe3);
    try done.
  { intros Hne. rewrite Hlen_pairs, Hlen_upd, Hlenb.
    assert (n < length bullet_rows); [|lia]. unfold removed in Hne.
    destruct (decide (n < length bullet_rows)); [done|].
    rewrite drop_ge in Hne by lia. done. }
  { apply labels_nodup. etrans; [apply sublist_drop|apply rows_sublist]. }
  { intros x Hx. simpl. apply list_elem_of_fmap in Hx as (r & -> & Hr).
    apply list_elem_of_fmap. exists r. split; [done|].
    apply bullet_row_facts. unfold removed in Hr.
    apply (elem_of_sublist _ _ _ Hr), sublist_drop. }
  assert (∀ p r', p ∈ pairs → row_updated h h2 p r' →
            shape h3 r' ∧ label tbl ∉ locs r') as Hrow3.
  { intros p r' Hp (Hs & _ & _ & _ & Hl).
    assert (label tbl ∉ locs r') as Hout.
    { intros Hin. destruct (Hl _ Hin) as [Hin'|Hge]; [|lia].
      by destruct (kid_facts _ (Hpairs_kids p Hp)) as (_ & _ & Hn). }
    split; [|done]. apply (shape_frame h2); [done|].
    intros l Hl'. apply Hframe3. by intros ->. }
  (* new rows for the bullets without row *)
  assert (∃ h' e' clones,
            add_new_rows (label tbl) (map label bullet_rows)
              (drop (length (map label bullet_rows)) bullets) h3
            = (h', Returned tt)
            ∧ h' !! label tbl = Some e'
            ∧ children e' = children e3 ++ clones
            ∧ length h3 ≤ length h'
            ∧ (∀ l, l < length h3 → l ≠ label tbl → h' !! l = h3 !! l)
            ∧ Forall2 (λ c s, ∃ template,
                         template_row (map erase bullet_rows) texts = Some template
                         ∧ row_added h3 h' template c s)
                clones (drop (length bullet_rows) texts))
    as (h' & e' & clones & Hloop3 & He' & Hch' & Hlen' & Hframe' & Hclones).
  { rewrite length_map.
    destruct (decide (length bullet_rows < n)) as [Hlt|Hge].
    2:{ exists h3, e3, []. rewrite !drop_ge by lia. rewrite app_nil_r.
        by split_and!. }
    destruct (Hgrow Hlt) as (template & Ht & Hall).
    pose proof Ht as Ht'. unfold template_row in Ht'.
    change (map erase bullet_rows) with (erase <$> bullet_rows) in Ht'.
    rewrite fmap_last, length_fmap in Ht'.
    destruct (last bullet_rows) as [lr|] eqn:Elast; [|done]. simpl in Ht'.
    destruct (texts !! (length bullet_rows - 1)) as [s_last|] eqn:Es; [|done].
    destruct (updated_row tt tt tt s_last (erase lr)) as [u|] eqn:Eu; [|done].
    assert (bullet_rows !! (length bullet_rows - 1) = Some lr) as Hlr.
    { rewrite <- Elast. by rewrite last_lookup, Nat.sub_1_r. }
    assert (pairs !! (length bullet_rows - 1) = Some (lr, s_last)) as Hp.
    { unfold pairs. apply lookup_zip_with_Some. exists lr, s_last.
      split_and!; try done. unfold updated. rewrite lookup_take_lt; [done|].
      apply lookup_lt_Some in Hlr. lia. }
    destruct (Forall2_lookup_l _ _ _ _ _ Hrs' Hp) as (lr' & Hlr' & Hupd).
    assert ((lr, s_last) ∈ pairs) as Hp_in by (by apply list_elem_of_lookup_2 in Hp).
    destruct (Hrow3 _ _ Hp_in Hupd) as [Hs3 Hout].
    destruct Hupd as (_ & Hlab & Hval & Hh & _). simpl in Hlab, Hval.
    rewrite Eu in Hval. injection Hval as ->.
    destruct (add_rows_loop (label tbl) (map label bullet_rows) lr' template
                (drop (length bullet_rows) bullets)
                (drop (length bullet_rows) texts)) with (h1 := h3) (e := e3)
      as (h' & e' & clones & H1 & H2 & H3 & H4 & H5 & H6); try done.
    - change (map label bullet_rows) with (label <$> bullet_rows).
      by rewrite fmap_last, Elast, Hlab.
    - by apply Forall2_drop.
    - apply Forall_forall. intros s Hs.
      apply list_elem_of_lookup_1 in Hs as [j Hj].
      rewrite lookup_drop in Hj. apply (Hall (length bullet_rows + j)); [lia|done].
    - lia.
    - exists h', e', clones. split_and!; try done.
      eapply Forall2_impl; [exact H4|]. intros c s Hadd. by exists template. }
  assert (tags_kept h h') as Htags.
  { pose proof (update_table_content_tags (label tbl) section h) as Hk.
    unfold _update_table_content, bind at 1 in Hk. rewrite select_rows in Hk.
    unfold bind at 1 in Hk. fold bullets in Hk.
    rewrite Hloop1, Hloop2, Hloop3 in Hk. exact Hk. }
  exists h', clones. split_and!.
  - unfold _update_table_content, bind at 1. rewrite select_rows.
    unfold bind at 1. fold bullets. by rewrite Hloop1, Hloop2, Hloop3.
  - unfold ET.children_in. rewrite He', Hch', Hch3. subst e. simpl.
    rewrite List.filter_app, (app_assoc _ _ clones). f_equal.
    + assert (NoDup (map label (kids tbl))) as Hnd_kids by (by apply labels_nodup).
      rewrite remove_all_filter by done. rewrite filter_commute.
      rewrite (filter_ext_elem (ET.has_tag h' (w "tr")) (ET.has_tag h (w "tr"))).
      2:{ intros l Hl. apply has_tag_kept; [done|].
          apply list_elem_of_fmap in Hl as (k & -> & Hk).
          destruct (kid_facts k Hk) as (Hsk & _).
          apply (shape_locs_lt h k); [done|]. rewrite locs_unfold. left. }
      rewrite filter_map_label.
      2:{ apply Forall_forall. intros k Hk. destruct (kid_facts k Hk) as (Hsk & _).
          by apply shape_unfold in Hsk as [? _]. }
      fold all_rows.
      assert (all_rows = take start all_rows ++ updated ++ removed) as Hsplit.
      { unfold updated, removed, bullet_rows. by rewrite !firstn_skipn. }
      rewrite Hsplit at 1. rewrite !map_app, !List.filter_app.
      assert (NoDup (map label all_rows)) as Hnd_rows.
      { apply labels_nodup, sublist_list_filter. }
      rewrite Hsplit, !map_app in Hnd_rows.
      apply NoDup_app in Hnd_rows as (_ & Hd1 & Hnd_rows).
      apply NoDup_app in Hnd_rows as (_ & Hd2 & _).
      rewrite (filter_ext_elem _ (λ _, true) (map label (take start all_rows))).
      2:{ intros l Hl. apply negb_true_iff. apply not_true_is_false.
          intros Hc%HeapFacts.is_child_elem. apply (Hd1 l Hl).
          apply elem_of_app. by right. }
      rewrite (filter_ext_elem _ (λ _, true) (map label updated)).
      2:{ intros l Hl. apply negb_true_iff. apply not_true_is_false.
          intros Hc%HeapFacts.is_child_elem. by apply (Hd2 l Hl). }
      rewrite (filter_ext_elem _ (λ _, false) (map label removed)).
      2:{ intros l Hl. apply negb_false_iff. by apply HeapFacts.is_child_elem. }
      assert (∀ (A : Type) (l : list A), List.filter (λ _, true) l = l) as Htrue.
      { intros A l. induction l; simpl; by f_equal. }
      assert (∀ (A : Type) (l : list A), List.filter (λ _, false) l = []) as Hfalse.
      { intros A l. induction l; simpl; by f_equal. }
      by rewrite !Htrue, Hfalse, app_nil_r.
    + rewrite <- (filter_ext_elem (λ _, true)).
      { clear. induction clones; simpl; by f_equal. }
      intros c Hc. symmetry.
      apply list_elem_of_lookup_1 in Hc as [j Hj].
      destruct (Forall2_lookup_l _ _ _ _ _ Hclones Hj)
        as (s & _ & template & Ht & dc & Hs & <- & _ & Hu & _).
      apply updated_row_label in Hu as [_ Hu].
      rewrite (has_tag_shape h' dc); [|by apply shape_unfold in Hs as [? _]].
      unfold has_tag. apply String.eqb_eq.
      unfold erase in Hu. rewrite tag_relabel in Hu.
      rewrite Hu. by apply template_tag.
  - apply Forall2_length in Hclones. rewrite length_drop in Hclones.
    fold n in Hclones. lia.
  - intros i r s Hr Hs.
    assert (pairs !! i = Some (r, s)) as Hp.
    { unfold pairs. apply lookup_zip_with_Some. exists r, s.
      split_and!; try done. unfold updated. rewrite lookup_take_lt; [done|].
      apply lookup_lt_Some in Hs. by fold n in Hs. }
    destruct (Forall2_lookup_l _ _ _ _ _ Hrs' Hp) as (r' & _ & Hupd).
    assert ((r, s) ∈ pairs) as Hp_in by (by apply list_elem_of_lookup_2 in Hp).
    destruct (Hrow3 _ _ Hp_in Hupd) as [Hs3 Hout].
    destruct Hupd as (_ & Hlab & Hval & Hh & _). simpl in Hlab, Hval.
    rewrite Hval, <- Hlab. apply tostring_shape; [|lia].
    apply (shape_frame h3); [done|]. intros l Hl. apply Hframe'.
    + by apply (shape_locs_lt h3 r').
    + by intros ->.
  - intros j c s Hc Hs.
    destruct (Forall2_lookup_l _ _ _ _ _ Hclones Hc)
      as (s' & Hs' & template & Ht & dc & Hsd & <- & Hhd & Hu & _).
    rewrite lookup_drop in Hs'. rewrite Hs in Hs'. injection Hs' as <-.
    exists template. split; [done|]. rewrite Hu. by apply tostring_shape.
Qed.

End TableRewrite.

(** C3, amended. Take a table of the store whose rows are all children of
    the table itself and that has at least one row, and a section whose
    bullets all have a text. Suppose no update of a bullet row raises, and,
    when there are more bullets than bullet rows, that there is a last
    bullet row which, once updated, can be written out and read again into a
    template on which no update raises. Then [_update_table_content]
    returns, and afterwards the rows of the table are: its header rows; then
    the first bullet rows, one per bullet while both last, each read back as
    the update of the original row with the text of the bullet at its index;
    then one new row per remaining bullet, each read back as the update,
    with the text of that bullet, of the template. The bullet rows beyond
    the bullets are no longer in the table, and the bullet rows that remain
    are as many as the bullets. *)
Theorem table_rows_after_rewrite (h : heap) (tbl first : tree loc)
    (section : ResumeSection) (texts : list string) :
  Tree.shape h tbl →
  NoDup (Tree.locs tbl) →
  List.filter (Tree.has_tag (w "tr")) (flat_map Tree.pre (Tree.kids tbl))
  = table_rows tbl →
  head (table_rows tbl) = Some first →
  Forall2 (λ b s, bullet_text b = Some s)
          (dict_get (sec_bullet_points section) []) texts →
  (∀ i r s,
     bullet_rows_of h section first tbl !! i = Some r → texts !! i = Some s →
     is_Some (Tree.updated_row tt tt tt s (Tree.erase r))) →
  (length (bullet_rows_of h section first tbl) < length texts →
   ∃ template,
     template_row (map Tree.erase (bullet_rows_of h section first tbl)) texts
     = Some template
     ∧ ∀ j s, length (bullet_rows_of h section first tbl) ≤ j →
              texts !! j = Some s →
              is_Some (Tree.updated_row tt tt tt s template)) →
  ∃ h' clones,
    _update_table_content (Tree.label tbl) section h = (h', Returned tt)
    ∧ List.filter (ET.has_tag h' (w "tr")) (ET.children_in h' (Tree.label tbl))
      = map Tree.label (header_rows_of h section first tbl)
        ++ map Tree.label
             (take (length texts) (bullet_rows_of h section first tbl))
        ++ clones
    ∧ length (take (length texts) (bullet_rows_of h section first tbl))
      + length clones = length texts
    ∧ (∀ i r s,
         bullet_rows_of h section first tbl !! i = Some r →
         texts !! i = Some s →
         ET.tostring_in (length h') h' (Tree.label r)
         = Tree.updated_row tt tt tt s (Tree.erase r))
    ∧ (∀ j c s,
         clones !! j = Some c →
         texts !! (length (bullet_rows_of h section first tbl) + j) = Some s →
         ∃ template,
           template_row (map Tree.erase (bullet_rows_of h section first tbl))
                        texts
           = Some template
           ∧ ET.tostring_in (length h') h' c
             = Tree.updated_row tt tt tt s template).
Proof. exact (rewrite_of_table h tbl section texts first). Qed.

(** A header row and one bullet row, three bullets: the bullet row is
    updated and two rows are added. *)
Lemma table_rows_after_rewrite_growth :
  let d := Sample.table [Sample.bullet_row "Software Engineer, Tech Corp";
                         Sample.bullet_row "old"] in
  let section :=
    Sample.engineer [Sample.bullet "a"; Sample.bullet "b"; Sample.bullet "c"] in
  ∃ h' clones,
    _update_table_content (Sample.root_of d) section (Sample.parsed d)
    = (h', Returned tt)
    ∧ List.filter (ET.has_tag h' (w "tr")) (ET.children_in h' (Sample.root_of d))
      = [9; 19] ++ clones
    ∧ length clones = 2
    ∧ ET.tostring_in (length h') h' 19 = Some (Sample.bullet_row "a").
Proof.
  intros d section.
  set (tbl := Sample.located d).
  set (first := default tbl (head (table_rows tbl))).
  destruct (table_rows_after_rewrite (Sample.parsed d) tbl first section
              ["a"; "b"; "c"])
    as (h' & clones & Hrun & Hrows & Hcount & Hupdated & _).
  - vm_compute. repeat constructor.
  - compute_done.
  - reflexivity.
  - reflexivity.
  - repeat constructor.
  - intros i r s Hr _. revert Hr.
    set (rows := bullet_rows_of _ _ _ _). vm_compute in rows. subst rows.
    destruct i as [|i]; [|by destruct i].
    intros [= <-]. vm_compute. eexists. reflexivity.
  - intros _. eexists. split; [vm_compute; reflexivity|].
    intros j s _ _. vm_compute. eexists. reflexivity.
  - exists h', clones. split_and!.
    + exact Hrun.
    + etrans; [exact Hrows|reflexivity].
    + exact (eq_add_S _ _ Hcount).
    + exact (Hupdated 0 _ "a" eq_refl eq_refl).
Defined.

(** A table with its header row only, matched by title and company: the
    rewrite raises [IndexError] at [bullet_rows[-1]] and the table keeps its
    one row, for a section of one bullet. *)
Lemma header_only_table_gets_no_rows :
  let d := Sample.table [Sample.bullet_row "Software Engineer, Tech Corp"] in
  let section := Sample.engineer [Sample.bullet "a"] in
  let h := Sample.parsed d in
  let table := Sample.root_of d in
  (∃ table_text,
     _extract_table_text table h = (h, Returned table_text)
     ∧ _find_matching_section table_text [section] = Some section)
  ∧ snd (_update_table_content table section h) = Raised IndexError
  ∧ Sample.written table (_update_table_content table section h) = Some d.
Proof.
  split_and!.
  - eexists. split; [vm_compute; reflexivity|]. vm_compute. reflexivity.
  - vm_compute. reflexivity.
  - vm_compute. reflexivity.
Qed.

(** ** Edge cases of the matcher and of the rewriter *)

Lemma bullet_fallback_no_bullets (tt : string) (s : ResumeSection) :
  dict_get (sec_bullet_points s) [] = [] → bullet_fallback tt s = false.
Proof. unfold bullet_fallback. by intros ->. Qed.

Lemma first_returned_some (tt : string) (sections : list ResumeSection)
    (s : ResumeSection) :
  first_returned tt sections = Some s →
  s ∈ sections ∧ section_returned tt s = true.
Proof.
  induction sections as [|s' sections IH]; simpl; [done|].
  destruct (section_returned tt s') eqn:E.
  - intros [= <-]. split; [left|done].
  - intros [Hin Hr]%IH. split; [by right|done].
Qed.

(** X1. A section without bullets whose title is missing or blank is never
    the one the matcher returns, whatever its company and the table text:
    the company alone matches nothing. *)
Theorem untitled_section_without_bullets_never_matched (table_text : string)
    (sections : list ResumeSection) (s : ResumeSection) :
  _normalize_text (dict_get (sec_title s) "") = "" →
  dict_get (sec_bullet_points s) [] = [] →
  _find_matching_section table_text sections ≠ Some s.
Proof.
  intros Ht Hb [_ Hr]%first_returned_some.
  unfold section_returned in Hr.
  rewrite Ht, (bullet_fallback_no_bullets _ s Hb) in Hr. done.
Qed.

Lemma untitled_section_without_bullets_never_matched_company :
  let s := {| sec_title := Some "  "; sec_company := Some "Tech Corp";
              sec_bullet_points := None |} in
  _find_matching_section "Software Engineer Tech Corp" [s] ≠ Some s.
Proof.
  intros s.
  apply (untitled_section_without_bullets_never_matched
           "Software Engineer Tech Corp" [s] s); reflexivity.
Defined.

(** X2. For a section whose title or company is missing or empty, the first
    row of the table is always taken for a header row: the bullet rows are
    the rows after the first, whatever the first row says. *)
Theorem first_row_skipped_without_title_or_company (h : heap) (table : loc)
    (section : ResumeSection) (first_row : loc) (rest : list loc) :
  ET.findall_in h (w "tr") table = first_row :: rest →
  dict_get (sec_title section) "" = ""
  ∨ dict_get (sec_company section) "" = "" →
  select_bullet_rows table section h = (h, Returned rest).
Proof.
  intros Hrows Hempty. rewrite select_bullet_rows_run, Hrows.
  unfold start_row_index.
  destruct Hempty as [-> | ->]; rewrite contains_empty, ?orb_true_r; done.
Qed.

Lemma first_row_skipped_without_title_or_company_project :
  let d := Sample.table [Sample.bullet_row "Built a parser";
                         Sample.bullet_row "Shipped it"] in
  let project := {| sec_title := Some "ML Pipeline"; sec_company := None;
                    sec_bullet_points := Some [] |} in
  select_bullet_rows (Sample.root_of d) project (Sample.parsed d)
  = (Sample.parsed d, Returned [19]).
Proof.
  intros d project.
  apply (first_row_skipped_without_title_or_company
           (Sample.parsed d) (Sample.root_of d) project 9 [19]).
  - reflexivity.
  - right. reflexivity.
Defined.

Lemma modify_tables_unmatched (h : heap) (tables : list loc)
    (all_sections : list ResumeSection) :
  (∀ table, table ∈ tables →
     _find_matching_section (raw_table_text h table) all_sections = None) →
  modify_tables tables all_sections h = (h, Returned tt).
Proof.
  induction tables as [|table tables IH]; intros Hnone; simpl; [done|].
  unfold bind at 1.
  change (_extract_table_text table h) with (h, Returned (raw_table_text h table)).
  cbv beta iota. rewrite (Hnone table) by left.
  unfold bind at 1, ret at 1. apply IH. intros t Ht. apply Hnone. by right.
Qed.

(** X3. When no table of the document matches a section of the schema, the
    modification returns and the document is exactly as it was parsed. *)
Theorem unmatched_document_unchanged (schema : ContentSchema) (root : loc)
    (h : heap) :
  (∀ table, table ∈ ET.findall_in h (w "tbl") root →
     _find_matching_section (raw_table_text h table)
       (dict_get (experiences schema) [] ++ dict_get (projects schema) [])
     = None) →
  modify_docx schema root h = (h, Returned tt).
Proof.
  intros Hnone. unfold modify_docx, _modify_sections, bind, ET.findall.
  by apply modify_tables_unmatched.
Qed.

Lemma unmatched_document_unchanged_other_job :
  let d := Sample.document
             [Sample.table [Sample.bullet_row "Nurse, City Hospital";
                            Sample.bullet_row "Cared for patients"]] in
  let schema :=
    {| experiences := Some [Sample.engineer [Sample.bullet "Led X";
                                             Sample.bullet "Built Y";
                                             Sample.bullet "Shipped Z"]];
       projects := None |} in
  modify_docx schema (Sample.root_of d) (Sample.parsed d)
  = (Sample.parsed d, Returned tt).
Proof.
  intros d schema. apply unmatched_document_unchanged.
  intros table Htable.
  change (ET.findall_in (Sample.parsed d) (w "tbl") (Sample.root_of d))
    with [20] in Htable.
  apply list_elem_of_singleton in Htable as ->. vm_compute. reflexivity.
Defined.

(** X4. When the first paragraph found beneath the first cell of a row is
    not a child of the cell itself (it lies deeper, in a content control for
    instance), the row update raises [ValueError]; every element of the
    document is as it was, the three elements created meanwhile are
    attached to none of them. *)
Theorem nested_paragraph_raises (h : heap) (row cell paragraph : loc)
    (new_text : string) :
  ET.find_in h (w "tc") row = Some cell →
  ET.find_in h (w "p") cell = Some paragraph →
  paragraph ∉ ET.children_in h cell →
  ∃ created,
    _update_row_content row new_text h = (h ++ created, Raised ValueError)
    ∧ length created = 3.
Proof.
  intros Hc Hp Hn.
  rewrite (update_row_content_steps h row cell paragraph) by done.
  destruct (ET.is_child paragraph (ET.children_in h cell)) eqn:E.
  - by apply HeapFacts.is_child_elem in E.
  - eexists. split; [reflexivity|]. reflexivity.
Qed.

Lemma nested_paragraph_raises_content_control :
  let d := Sample.nested_paragraph_row "old" in
  ∃ created,
    _update_row_content (Sample.root_of d) "Led X" (Sample.parsed d)
    = (Sample.parsed d ++ created, Raised ValueError)
    ∧ length created = 3.
Proof.
  intros d.
  apply (nested_paragraph_raises (Sample.parsed d) (Sample.root_of d) 4 2).
  - reflexivity.
  - reflexivity.
  - vm_compute. intros H. by repeat (apply elem_of_cons in H as [H|H]; [done|]);
      apply elem_of_nil in H.
Defined.

(** X5. A matched section without bullets has every bullet row removed from
    the table; when the first bullet row found is not a child of the table
    itself (it lies in a nested table, for instance), removing it raises
    [ValueError] and the document is as it was. *)
Theorem removing_nested_row_raises (h : heap) (table : loc)
    (section : ResumeSection) (row : loc) (rest : list loc) :
  select_bullet_rows table section h = (h, Returned (row :: rest)) →
  dict_get (sec_bullet_points section) [] = [] →
  row ∉ ET.children_in h table →
  _update_table_content table section h = (h, Raised ValueError).
Proof.
  intros Hrows Hb Hn. unfold _update_table_content, bind at 1.
  rewrite Hrows, Hb. cbn [update_or_remove_rows]. unfold bind at 1, bind at 1.
  cbn [lookup list_lookup]. unfold ET.remove.
  destruct (ET.is_child row (ET.children_in h table)) eqn:E; [|done].
  by apply HeapFacts.is_child_elem in E.
Qed.

Lemma removing_nested_row_raises_wrapped :
  let d := Sample.table [Sample.elem "sdt" [Sample.bullet_row "old"]] in
  _update_table_content (Sample.root_of d) (Sample.engineer []) (Sample.parsed d)
  = (Sample.parsed d, Raised ValueError).
Proof.
  intros d.
  apply (removing_nested_row_raises (Sample.parsed d) (Sample.root_of d)
           (Sample.engineer []) 9 []).
  - reflexivity.
  - reflexivity.
  - vm_compute. intros H. by repeat (apply elem_of_cons in H as [H|H]; [done|]);
      apply elem_of_nil in H.
Defined.

(** ** The copy of the template row *)

(** X6. When [ET.fromstring(ET.tostring(elem))] returns, the store is the
    former one followed by new elements, so that no element of the document
    has changed; the copy is made of new elements only, and it is written
    out as the document value that the original is read back as. *)
Theorem clone_is_fresh_copy (h h' : heap) (l r : loc) :
  ET.clone l h = (h', Returned r) →
  ∃ (fresh : heap) (d d' : xml),
    h' = h ++ fresh
    ∧ ET.tostring_in (length h) h l = Some d
    ∧ ET.reread d = Some d'
    ∧ ET.tostring_in (length h') h' r = Some d'
    ∧ ∀ x, x ∈ ET.iter (length h') h' r → length h ≤ x.
Proof.
  unfold ET.clone.
  destruct (ET.tostring_in (length h) h l) as [d|] eqn:Ed; [|done].
  destruct (ET.reread d) as [d'|] eqn:Ed'; [|done].
  destruct (ET.load d' h) as [r0 h0] eqn:El. intros [= <- <-].
  destruct (CloneFacts.load_shape d' h r0 h0 El)
    as (dt & fresh & -> & He & Hl & Hs & Hnd & Hfresh).
  assert (Tree.height dt ≤ length (h ++ fresh)) as Hh
    by (by apply CloneFacts.height_le_store).
  exists fresh, d, d'. split_and!; try done.
  - rewrite <- Hl, <- He. by apply CloneFacts.tostring_shape.
  - intros x. rewrite <- Hl, (TreeFacts.iter_locs _ dt) by done.
    rewrite Forall_forall in Hfresh. apply Hfresh.
Qed.

Lemma clone_is_fresh_copy_row :
  let h := Sample.parsed (Sample.bullet_row "old") in
  ∃ (fresh : heap) (d d' : xml),
    fst (ET.clone 9 h) = h ++ fresh
    ∧ ET.tostring_in (length h) h 9 = Some d
    ∧ ET.reread d = Some d'
    ∧ ET.tostring_in (length (fst (ET.clone 9 h))) (fst (ET.clone 9 h)) 19
      = Some d'
    ∧ ∀ x, x ∈ ET.iter (length (fst (ET.clone 9 h))) (fst (ET.clone 9 h)) 19 →
           length h ≤ x.
Proof.
  intros h.
  apply (clone_is_fresh_copy h (fst (ET.clone 9 h)) 9 19).
  vm_compute. reflexivity.
Defined.

(** ** The schema check and what it buys *)

Lemma bullet_has_required_complete (b : BulletPoint) :
  bullet_has_required b = true ↔ bullet_complete b.
Proof.
  unfold bullet_has_required, bullet_complete.
  destruct (bullet_text b), (bullet_keywords b); split; try done;
    (by intros [[? ?] [? ?]]) || (intros _; split; eauto).
Qed.

Lemma validate_entries_complete (entries : list ResumeSection) :
  validate_entries entries = Returned tt ↔ Forall section_complete entries.
Proof.
  induction entries as [|s entries IH]; simpl; [done|].
  rewrite Forall_cons. unfold section_complete at 1.
  destruct (sec_bullet_points s) as [bullets|] eqn:Eb.
  - destruct (forallb bullet_has_required bullets) eqn:Ef.
    + rewrite IH. split; [|by intros [_ ?]]. intros H. split; [|done].
      exists bullets. split; [done|]. apply Forall_forall. intros b Hb.
      apply bullet_has_required_complete.
      rewrite forallb_forall in Ef. apply Ef. by apply list_elem_of_In.
    + split; [done|]. intros [(bs & [= <-] & Hbs) _].
      assert (forallb bullet_has_required bullets = true) as Ht; [|congruence].
      apply forallb_forall. intros b Hb. apply bullet_has_required_complete.
      rewrite Forall_forall in Hbs. apply Hbs. by apply list_elem_of_In.
  - split; [done|]. by intros [(bs & [=] & _) _].
Qed.

Lemma validate_schema_returned (schema : ContentSchema) :
  _validate_schema schema = Returned tt
  ↔ ∃ exps projs,
      experiences schema = Some exps ∧ projects schema = Some projs
      ∧ Forall section_complete (exps ++ projs).
Proof.
  unfold _validate_schema.
  destruct (experiences schema) as [exps|];
    [|split; [done|by intros (? & ? & [=] & _)]].
  destruct (projects schema) as [projs|];
    [|split; [done|by intros (? & ? & _ & [=] & _)]].
  destruct (validate_entries exps) as [[]|e] eqn:Ee.
  - rewrite validate_entries_complete. apply validate_entries_complete in Ee.
    split.
    + intros Hp. exists exps, projs. split_and!; try done.
      by apply Forall_app.
    + intros (? & ? & [= <-] & [= <-] & [_ Hp]%Forall_app). done.
  - split; [done|]. intros (? & ? & [= <-] & [= <-] & [He _]%Forall_app).
    apply validate_entries_complete in He. congruence.
Qed.

(** X7. The schema check accepts a schema exactly when it has both
    [experiences] and [projects], every section of either has
    [bullet_points], and every bullet has [text] and [keywords]; titles and
    companies are not asked for. Every other schema is refused with
    [ValueError]. *)
Theorem validate_schema_accepts_iff (schema : ContentSchema) :
  (_validate_schema schema = Returned tt
   ↔ ∃ exps projs,
       experiences schema = Some exps ∧ projects schema = Some projs
       ∧ Forall section_complete (exps ++ projs))
  ∧ (_validate_schema schema = Returned tt
     ∨ _validate_schema schema = Raised ValueError).
Proof.
  split; [apply validate_schema_returned|].
  unfold _validate_schema.
  destruct (experiences schema) as [exps|]; [|by right].
  destruct (projects schema) as [projs|]; [|by right].
  destruct (validate_entries_outcome exps) as [-> | ->]; [|by right].
  apply validate_entries_outcome.
Qed.

Module RaiseFacts.

Lemma never_ret {A : Type} (e : exn) (a : A) : never_raises e (ret a).
Proof. intros h. done. Qed.

Lemma never_bind {A B : Type} (e : exn) (m : Py A) (k : A → Py B) :
  never_raises e m → (∀ a, never_raises e (k a)) → never_raises e (bind m k).
Proof.
  intros Hm Hk h. unfold bind. specialize (Hm h).
  destruct (m h) as [h' [a|e']]; [apply Hk|].
  simpl in *. intros [= ->]. by destruct Hm.
Qed.

Lemma never_find e t l : never_raises e (ET.find t l).
Proof. intros h. done. Qed.

Lemma never_findall e t l : never_raises e (ET.findall t l).
Proof. intros h. done. Qed.

Lemma never_new e t : never_raises e (ET.Element_new t).
Proof. intros h. done. Qed.

Lemma never_append e p c : never_raises e (ET.append p c).
Proof. intros h. done. Qed.

Lemma never_assign e l s : never_raises e (ET.assign_text l s).
Proof. intros h. done. Qed.

Lemma never_remove e p c : e ≠ ValueError → never_raises e (ET.remove p c).
Proof.
  intros He h. unfold ET.remove. destruct (ET.is_child _ _); simpl; congruence.
Qed.

Lemma never_clone e l :
  e ≠ RecursionError → e ≠ ParseError → never_raises e (ET.clone l).
Proof.
  intros H1 H2 h. unfold ET.clone.
  destruct (ET.tostring_in _ _ _) as [d|]; [|simpl; congruence].
  destruct (ET.reread d) as [d'|]; [|simpl; congruence].
  by destruct (ET.load d' h).
Qed.

Create HintDb never.
#[local] Hint Resolve never_ret never_find never_findall never_new never_append
  never_assign never_remove never_clone : never.

Ltac never_step :=
  repeat first
    [ apply never_bind; [|intros ?]
    | match goal with
      | |- never_raises _ (match ?x with _ => _ end) => destruct x
      end
    | solve [auto with never] ].

Lemma never_update_row e row new_text :
  e ≠ ValueError → never_raises e (_update_row_content row new_text).
Proof. intros He. unfold _update_row_content. never_step. Qed.

Lemma never_extract_row_text e row : never_raises e (_extract_row_text row).
Proof. intros h. done. Qed.

Lemma never_extract_table_text e table : never_raises e (_extract_table_text table).
Proof. intros h. done. Qed.

Lemma never_bullet_text_item (b : BulletPoint) :
  is_Some (bullet_text b) → never_raises KeyError (bullet_text_item b).
Proof. intros [s Hs] h. unfold bullet_text_item. by rewrite Hs. Qed.

Lemma never_update_or_remove_rows table bullets rows :
  Forall (λ b, is_Some (bullet_text b)) bullets →
  ∀ i, never_raises KeyError (update_or_remove_rows table bullets i rows).
Proof.
  intros Hb. induction rows as [|row rows IH]; intros i; simpl.
  - apply never_ret.
  - apply never_bind; [|intros _; apply IH].
    destruct (bullets !! i) as [b|] eqn:Ei.
    + apply never_bind.
      * apply never_bullet_text_item. rewrite Forall_forall in Hb.
        apply Hb. by apply list_elem_of_lookup_2 in Ei.
      * intros s. by apply never_update_row.
    + by apply never_remove.
Qed.

Lemma never_add_new_rows table rows bullets :
  Forall (λ b, is_Some (bullet_text b)) bullets →
  never_raises KeyError (add_new_rows table rows bullets).
Proof.
  induction 1 as [|b bullets Hb _ IH]; simpl; [apply never_ret|].
  apply never_bind.
  { destruct (last rows); [by apply never_clone|]. intros h. done. }
  intros c. apply never_bind; [by apply never_bullet_text_item|]. intros s.
  apply never_bind; [by apply never_update_row|]. intros _.
  apply never_bind; [apply never_append|]. intros _. apply IH.
Qed.

Lemma never_select_bullet_rows table section :
  never_raises KeyError (select_bullet_rows table section).
Proof.
  intros h. rewrite select_bullet_rows_run.
  by destruct (ET.findall_in h (w "tr") table).
Qed.

Lemma never_update_table_content table section :
  Forall (λ b, is_Some (bullet_text b)) (dict_get (sec_bullet_points section) []) →
  never_raises KeyError (_update_table_content table section).
Proof.
  intros Hb. unfold _update_table_content.
  apply never_bind; [apply never_select_bullet_rows|]. intros rows.
  apply never_bind; [by apply never_update_or_remove_rows|]. intros _.
  apply never_add_new_rows. by apply Forall_drop.
Qed.

Lemma never_modify_tables tables all_sections :
  Forall (λ s, Forall (λ b, is_Some (bullet_text b))
                 (dict_get (sec_bullet_points s) [])) all_sections →
  never_raises KeyError (modify_tables tables all_sections).
Proof.
  intros Hs. induction tables as [|table tables IH]; simpl; [apply never_ret|].
  apply never_bind; [apply never_extract_table_text|]. intros table_text.
  apply never_bind; [|intros _; apply IH].
  destruct (_find_matching_section table_text all_sections) as [s|] eqn:E;
    [|apply never_ret].
  apply never_update_table_content.
  apply first_returned_some in E as [Hin _].
  rewrite Forall_forall in Hs. by apply Hs.
Qed.

End RaiseFacts.

(** X8. Once the schema check has accepted a schema, the modification
    never raises [KeyError]: every bullet it writes has a text. The
    tailoring pipeline, which gives the modification an accepted schema
    only, never raises [KeyError] either. *)
Theorem accepted_schema_never_key_error (root : loc) (h : heap) :
  (∀ schema, _validate_schema schema = Returned tt →
             snd (modify_docx schema root h) ≠ Raised KeyError)
  ∧ (∀ service, snd (generate_tailored_resume service root h) ≠ Raised KeyError).
Proof.
  assert (∀ schema, _validate_schema schema = Returned tt →
                    snd (modify_docx schema root h) ≠ Raised KeyError) as Hm.
  { intros schema Hv.
    apply validate_schema_returned in Hv as (exps & projs & He & Hp & Hall).
    unfold modify_docx, _modify_sections. rewrite He, Hp. simpl.
    apply RaiseFacts.never_bind; [apply RaiseFacts.never_findall|].
    intros tables. apply RaiseFacts.never_modify_tables.
    eapply Forall_impl; [exact Hall|]. intros s (bs & -> & Hbs). simpl.
    eapply Forall_impl; [exact Hbs|]. by intros b [Ht _]. }
  split; [exact Hm|]. intros service.
  unfold generate_tailored_resume, tailor_resume.
  destruct (retry_tailor_resume_outcome service 3 0)
    as [[Hr _] | (k & schema & _ & Hs & Hr & _)]; rewrite Hr; [done|].
  apply Hm. by apply tailor_resume_once_returned in Hs as [_ Hv].
Qed.

Lemma accepted_schema_never_key_error_engineer :
  let d := Sample.document
             [Sample.table [Sample.bullet_row "Software Engineer, Tech Corp";
                            Sample.bullet_row "old"]] in
  let schema :=
    {| experiences := Some [Sample.engineer [Sample.bullet "Led X"]];
       projects := Some [] |} in
  snd (modify_docx schema (Sample.root_of d) (Sample.parsed d)) ≠ Raised KeyError
  ∧ snd (generate_tailored_resume (λ _, Some schema)
           (Sample.root_of d) (Sample.parsed d))
    ≠ Raised KeyError.
Proof.
  intros d schema.
  destruct (accepted_schema_never_key_error (Sample.root_of d) (Sample.parsed d))
    as [Hm Hp].
  split; [by apply Hm|apply Hp].
Defined.

(** ** What the modification leaves alone *)

Module KeepFacts.

Lemma kept_refl h : kept_but_cells_and_tables h h.
Proof. intros l e He. exists e. by split_and!. Qed.

Lemma kept_trans h1 h2 h3 :
  kept_but_cells_and_tables h1 h2 → kept_but_cells_and_tables h2 h3 →
  kept_but_cells_and_tables h1 h3.
Proof.
  intros H12 H23 l e He.
  destruct (H12 l e He) as (e' & He' & Ht & Ha & Hx & Hc).
  destruct (H23 l e' He') as (e'' & He'' & Ht' & Ha' & Hx' & Hc').
  exists e''. split_and!; try congruence.
  intros H1 H2. rewrite Hc' by congruence. by apply Hc.
Qed.

Lemma kept_app h tl : kept_but_cells_and_tables h (h ++ tl).
Proof.
  intros l e He. exists e. split_and!; try done.
  rewrite lookup_app_l; [done|]. by apply lookup_lt_Some in He.
Qed.

Lemma kept_alter_children h (g : Element → list loc) (l : loc) (t : string) :
  t = w "tc" ∨ t = w "tbl" →
  ET.has_tag h t l = true →
  kept_but_cells_and_tables h (alter (λ e, ET.set_children (g e) e) l h).
Proof.
  intros Ht (e0 & He0 & Htag)%HeapFacts.has_tag_Some l' e He.
  destruct (decide (l = l')) as [->|Hne].
  - exists (ET.set_children (g e) e).
    rewrite list_lookup_alter_eq, He. split_and!; try done.
    intros H1 H2. assert (e0 = e) as -> by congruence.
    destruct Ht; congruence.
  - exists e. rewrite list_lookup_alter_ne by done. by split_and!.
Qed.

Lemma has_tag_still h h' t l :
  kept_but_cells_and_tables h h' →
  ET.has_tag h t l = true → ET.has_tag h' t l = true.
Proof.
  intros Hk (e & He & Ht)%HeapFacts.has_tag_Some.
  destruct (Hk l e He) as (e' & He' & Ht' & _).
  apply HeapFacts.has_tag_Some. exists e'. split; [done|congruence].
Qed.

Lemma kept_remove parent child h t :
  t = w "tc" ∨ t = w "tbl" → ET.has_tag h t parent = true →
  kept_but_cells_and_tables h (ET.remove parent child h).1.
Proof.
  intros Ht Hp. unfold ET.remove. destruct (ET.is_child _ _); simpl.
  - by apply (kept_alter_children h _ parent t).
  - apply kept_refl.
Qed.

Lemma kept_append parent child h t :
  t = w "tc" ∨ t = w "tbl" → ET.has_tag h t parent = true →
  kept_but_cells_and_tables h (ET.append parent child h).1.
Proof. intros Ht Hp. by apply (kept_alter_children h _ parent t). Qed.

Lemma kept_update_row row s h :
  kept_but_cells_and_tables h (_update_row_content row s h).1.
Proof.
  destruct (ET.find_in h (w "tc") row) as [cell|] eqn:Ec.
  2:{ rewrite update_row_content_early_return by (by left). apply kept_refl. }
  destruct (ET.find_in h (w "p") cell) as [paragraph|] eqn:Ep.
  2:{ rewrite update_row_content_early_return by (right; eauto). apply kept_refl. }
  rewrite (update_row_content_steps h row cell paragraph) by done.
  destruct (ET.is_child _ _); simpl.
  - eapply kept_trans; [|apply kept_app].
    apply (kept_alter_children h _ cell (w "tc")); [by left|].
    apply HeapFacts.has_tag_Some. by apply (HeapFacts.find_in_has_tag h _ row).
  - apply kept_app.
Qed.

Lemma kept_clone l h : kept_but_cells_and_tables h (ET.clone l h).1.
Proof.
  unfold ET.clone. destruct (ET.tostring_in _ _ _) as [d|]; [|apply kept_refl].
  destruct (ET.reread d) as [d'|]; [|apply kept_refl].
  destruct (ET.load d' h) as [r h'] eqn:E. simpl.
  destruct (CloneFacts.load_shape d' h r h' E) as (_ & tl & -> & _).
  apply kept_app.
Qed.

Lemma kept_bind {A B : Type} (m : Py A) (k : A → Py B) h :
  kept_but_cells_and_tables h (m h).1 →
  (∀ a h1, kept_but_cells_and_tables h h1 →
           kept_but_cells_and_tables h1 (k a h1).1) →
  kept_but_cells_and_tables h (bind m k h).1.
Proof.
  intros Hm Hk. unfold bind. destruct (m h) as [h1 [a|e]] eqn:E; simpl in *.
  - eapply kept_trans; [exact Hm|by apply Hk].
  - done.
Qed.

Lemma kept_bullet_text_item b h :
  kept_but_cells_and_tables h (bullet_text_item b h).1.
Proof. unfold bullet_text_item. destruct (bullet_text b); apply kept_refl. Qed.

Lemma kept_update_or_remove_rows table bullets rows_ :
  ∀ i h, ET.has_tag h (w "tbl") table = true →
         kept_but_cells_and_tables h
           (update_or_remove_rows table bullets i rows_ h).1.
Proof.
  induction rows_ as [|row rest IH]; intros i h Ht; simpl; [apply kept_refl|].
  apply kept_bind.
  - destruct (bullets !! i) as [b|].
    + apply kept_bind; [apply kept_bullet_text_item|].
      intros s h1 _. apply kept_update_row.
    + apply (kept_remove table row h (w "tbl")); [by right|done].
  - intros _ h1 Hk. apply IH. by apply (has_tag_still h).
Qed.

Lemma kept_add_new_rows table bullet_rows bullets :
  ∀ h, ET.has_tag h (w "tbl") table = true →
       kept_but_cells_and_tables h (add_new_rows table bullet_rows bullets h).1.
Proof.
  induction bullets as [|b rest IH]; intros h Ht; simpl; [apply kept_refl|].
  apply kept_bind.
  { destruct (last bullet_rows); [apply kept_clone|apply kept_refl]. }
  intros c h1 H1. apply kept_bind; [apply kept_bullet_text_item|].
  intros s h2 H2. apply kept_bind; [apply kept_update_row|].
  intros _ h3 H3.
  assert (ET.has_tag h3 (w "tbl") table = true) as Ht3.
  { apply (has_tag_still h2); [done|]. apply (has_tag_still h1); [done|].
    by apply (has_tag_still h). }
  apply kept_bind.
  { apply (kept_append table c h3 (w "tbl")); [by right|done]. }
  intros _ h4 H4. apply IH. by apply (has_tag_still h3).
Qed.

Lemma kept_update_table_content table section h :
  ET.has_tag h (w "tbl") table = true →
  kept_but_cells_and_tables h (_update_table_content table section h).1.
Proof.
  intros Ht. unfold _update_table_content. apply kept_bind.
  { rewrite select_bullet_rows_run.
    destruct (ET.findall_in h (w "tr") table); apply kept_refl. }
  intros brs h1 H1.
  assert (ET.has_tag h1 (w "tbl") table = true) as Ht1
    by (by apply (has_tag_still h)).
  apply kept_bind; [by apply kept_update_or_remove_rows|].
  intros _ h2 H2. apply kept_add_new_rows. by apply (has_tag_still h1).
Qed.

Lemma kept_modify_tables tables all_sections :
  ∀ h, Forall (λ table, ET.has_tag h (w "tbl") table = true) tables →
       kept_but_cells_and_tables h (modify_tables tables all_sections h).1.
Proof.
  induction tables as [|table tables IH]; intros h Hall; simpl;
    [apply kept_refl|].
  apply Forall_cons in Hall as [Ht Hall].
  apply kept_bind; [apply kept_refl|]. intros table_text h1 H1.
  apply kept_bind.
  - destruct (_find_matching_section table_text all_sections);
      [|apply kept_refl].
    apply kept_update_table_content. by apply (has_tag_still h).
  - intros _ h2 H2. apply IH. eapply Forall_impl; [exact Hall|].
    intros t Htag. apply (has_tag_still h1); [done|]. by apply (has_tag_still h).
Qed.

End KeepFacts.

(** X9. Whether it returns or raises, the modification leaves every
    element of the parsed document in the store with its tag, its
    attributes and its text; only cells and tables can have their children
    changed. No text node, run, paragraph or row that was parsed is ever
    edited in place. *)
Theorem modification_keeps_elements (schema : ContentSchema) (root : loc)
    (h : heap) :
  kept_but_cells_and_tables h (fst (modify_docx schema root h)).
Proof.
  unfold modify_docx, _modify_sections, bind, ET.findall.
  apply KeepFacts.kept_modify_tables.
  apply Forall_forall. intros table Ht.
  apply HeapFacts.has_tag_Some. by apply (HeapFacts.findall_in_has_tag h _ root).
Qed.

(** ** The structure extractor: tables, styles and paragraphs *)

Lemma parse_table_list_closed (h : heap) (tables : list loc)
    (structure_tables : list TableInfo) :
  parse_table_list h tables structure_tables
  = structure_tables ++ map (parse_table h) tables.
Proof.
  revert structure_tables.
  induction tables as [|t tables IH]; intros st; simpl.
  - by rewrite app_nil_r.
  - by rewrite IH, <- app_assoc.
Qed.

(** X10. [_parse_tables] keeps the entries that [structure["tables"]] has
    and adds one entry for every table element found beneath the root
    (tables nested in tables included), in document order. *)
Theorem parse_tables_appends (h : heap) (root : loc)
    (structure_tables : list TableInfo) :
  _parse_tables h root structure_tables
  = structure_tables ++ map (parse_table h) (ET.findall_in h (w "tbl") root).
Proof. apply parse_table_list_closed. Qed.

(** X11. In every entry that [_parse_tables] adds, [total_rows] is the
    number of rows listed, no row has more cells than [total_columns], and
    when there is a row, some row has exactly [total_columns] cells: rows
    of fewer cells are not padded. *)
Theorem parsed_table_dimensions (h : heap) (root : loc) :
  Forall (λ info,
            total_rows info = length (rows info)
            ∧ Forall (λ row, length row ≤ total_columns info) (rows info)
            ∧ (rows info ≠ [] →
               ∃ row, row ∈ rows info ∧ length row = total_columns info))
         (_parse_tables h root []).
Proof.
  unfold _parse_tables. rewrite parse_table_list_closed. simpl.
  apply Forall_forall. intros info (table & -> & _)%list_elem_of_fmap.
  unfold parse_table. rewrite parse_rows_closed. simpl.
  set (row_elements := ET.findall_in h (w "tr") table).
  set (cells := λ row, ET.findall_in h (w "tc") row).
  set (widths := map (λ row, length (cells row)) row_elements).
  assert (map length
            (map (λ row, map (_extract_paragraph_text h) (cells row)) row_elements)
          = widths) as Hw.
  { unfold widths. rewrite map_map. apply map_ext. intros row. apply length_map. }
  split_and!.
  - by rewrite length_map.
  - apply Forall_forall. intros row Hrow.
    apply max_list_elem_of_le. rewrite <- Hw. apply list_elem_of_fmap. eauto.
  - intros Hne.
    assert (widths ≠ []) as Hwne.
    { rewrite <- Hw. intros Hnil. apply Hne.
      apply map_eq_nil in Hnil. exact Hnil. }
    pose proof (max_list_elem_of widths Hwne) as Hmax.
    rewrite <- Hw in Hmax at 2.
    apply list_elem_of_fmap in Hmax as (row & Hlen & Hrow). eauto.
Qed.

Lemma parse_style_other (h : heap) (style : loc) (st : gmap string StyleInfo)
    (id : string) :
  id = "" ∨ Element_get h style (w "styleId") ≠ Some id
  ∨ ET.find_in h (w "name") style = None →
  parse_style h style st !! id = st !! id.
Proof.
  intros Hid. unfold parse_style.
  destruct (Element_get h style (w "styleId")) as [sid|]; [|done].
  destruct (ET.find_in h (w "name") style) as [name|]; [|done].
  destruct (Text.truthy sid) eqn:Et; [|done].
  apply lookup_insert_ne. intros ->.
  destruct Hid as [-> | [Hid | Hid]]; done.
Qed.

Lemma parse_style_list_other (h : heap) (styles : list loc)
    (st : gmap string StyleInfo) (id : string) :
  id = "" ∨ (∀ style, style ∈ styles →
               Element_get h style (w "styleId") ≠ Some id
               ∨ ET.find_in h (w "name") style = None) →
  parse_style_list h styles st !! id = st !! id.
Proof.
  revert st. induction styles as [|s styles IH]; intros st Hid; simpl; [done|].
  rewrite IH.
  - apply parse_style_other. destruct Hid as [-> | Hid]; [by left|].
    right. apply Hid. left.
  - destruct Hid as [-> | Hid]; [by left|]. right. intros s' Hs'.
    apply Hid. by right.
Qed.

(** X12. [_parse_styles] leaves [structure["styles"]] as it is at a style
    identifier that no style definition with a name carries; the empty
    identifier is never recorded. *)
Theorem parse_styles_keeps_unrecorded (h : heap) (root : loc)
    (structure_styles : gmap string StyleInfo) (id : string) :
  id = "" ∨ (∀ style, style ∈ ET.findall_in h (w "style") root →
               Element_get h style (w "styleId") ≠ Some id
               ∨ ET.find_in h (w "name") style = None) →
  _parse_styles h root structure_styles !! id = structure_styles !! id.
Proof. apply parse_style_list_other. Qed.

(** X13. Of the style definitions with a non-empty identifier and a name,
    the last one in document order with a given identifier is the one
    recorded: its entry holds the value of the name and the type of the
    definition, each [None] when the attribute is absent. *)
Theorem parse_styles_last_wins (h : heap) (root : loc)
    (structure_styles : gmap string StyleInfo)
    (before after : list loc) (style name : loc) (id : string) :
  ET.findall_in h (w "style") root = before ++ style :: after →
  Element_get h style (w "styleId") = Some id →
  id ≠ "" →
  ET.find_in h (w "name") style = Some name →
  (∀ later, later ∈ after →
     Element_get h later (w "styleId") ≠ Some id
     ∨ ET.find_in h (w "name") later = None) →
  _parse_styles h root structure_styles !! id
  = Some {| style_name := Element_get h name (w "val");
            style_type := Element_get h style (w "type") |}.
Proof.
  intros Hstyles Hid Hne Hname Hafter. unfold _parse_styles. rewrite Hstyles.
  generalize structure_styles. clear Hstyles.
  induction before as [|b before IH]; intros st; simpl; [|apply IH].
  rewrite parse_style_list_other by (by right).
  unfold parse_style. rewrite Hid, Hname.
  destruct id; [done|]. simpl. apply lookup_insert_eq.
Qed.

Lemma parse_paragraph_list_closed (h : heap) (paragraphs : list loc)
    (infos : list ParagraphInfo) :
  parse_paragraph_list h paragraphs (Some infos)
  = Returned (Some (infos ++ map (paragraph_info h) paragraphs)).
Proof.
  revert infos. induction paragraphs as [|p ps IH]; intros infos; simpl.
  - by rewrite app_nil_r.
  - by rewrite IH, <- app_assoc.
Qed.

(** X14. [_parse_paragraphs] adds to [structure["paragraphs"]] one entry
    for every paragraph beneath the root, in document order. When
    [structure] has no such key, it raises [KeyError] as soon as the
    document has one paragraph, and returns otherwise. *)
Theorem parse_paragraphs_entries (h : heap) (root : loc) :
  (∀ infos,
     _parse_paragraphs h root (Some infos)
     = Returned (Some (infos ++ map (paragraph_info h)
                                  (ET.findall_in h (w "p") root))))
  ∧ _parse_paragraphs h root None
    = match ET.findall_in h (w "p") root with
      | [] => Returned None
      | _ => Raised KeyError
      end.
Proof.
  split.
  - intros infos. apply parse_paragraph_list_closed.
  - unfold _parse_paragraphs. by destruct (ET.findall_in h (w "p") root).
Qed.

Lemma parse_styles_keeps_unrecorded_title :
  _parse_styles (Sample.parsed SampleStyles.heading_twice)
    (Sample.root_of SampleStyles.heading_twice) ∅ !! "Title"
  = None.
Proof.
  etrans; [|apply (lookup_empty (M:=gmap string))].
  apply parse_styles_keeps_unrecorded. right. intros style Hin.
  change (ET.findall_in (Sample.parsed SampleStyles.heading_twice) (w "style")
            (Sample.root_of SampleStyles.heading_twice)) with [1; 3] in Hin.
  left. apply elem_of_cons in Hin as [-> | Hin];
    [|apply list_elem_of_singleton in Hin as ->]; vm_compute; discriminate.
Defined.

Lemma parse_styles_last_wins_heading :
  _parse_styles (Sample.parsed SampleStyles.heading_twice)
    (Sample.root_of SampleStyles.heading_twice) ∅ !! "Heading1"
  = Some {| style_name := Some "Heading 1 Char";
            style_type := Some "character" |}.
Proof.
  apply (parse_styles_last_wins (Sample.parsed SampleStyles.heading_twice)
           (Sample.root_of SampleStyles.heading_twice) ∅ [1] [] 3 2 "Heading1").
  - reflexivity.
  - reflexivity.
  - discriminate.
  - reflexivity.
  - intros later Hin. by apply elem_of_nil in Hin.
Defined.

(** ** The answers of the language service *)

Module StrFacts.

Lemma append_nil_r (s : string) : s +:+ "" = s.
Proof.
  induction s as [|c s IH]; [reflexivity|].
  change (String c (s +:+ "") = String c s). by rewrite IH.
Qed.

Lemma append_assoc (a b c : string) : (a +:+ b) +:+ c = a +:+ (b +:+ c).
Proof.
  induction a as [|x a IH]; [reflexivity|].
  change (String x ((a +:+ b) +:+ c) = String x (a +:+ (b +:+ c))).
  by rewrite IH.
Qed.

Lemma append_cons (x : ascii) (a b : string) :
  String x a +:+ b = String x (a +:+ b).
Proof. reflexivity. Qed.

Lemma lstrip_suffix (s : string) : ∃ a, s = a +:+ Text.lstrip s.
Proof.
  induction s as [|c s [a IH]]; simpl; [by exists ""|].
  destruct (Text.isspace c).
  - exists (String c a). rewrite append_cons. by rewrite <- IH.
  - by exists "".
Qed.

Lemma rstrip_prefix (s : string) : ∃ b, s = Text.rstrip s +:+ b.
Proof.
  induction s as [|c s [b IH]]; simpl; [by exists ""|].
  destruct (Text.rstrip s) as [|d r].
  - destruct (Text.isspace c); [by exists (String c s)|].
    exists s. reflexivity.
  - exists b. rewrite append_cons. by rewrite <- IH.
Qed.

Lemma contains_lstrip (sub s : string) :
  Text.contains sub (Text.lstrip s) = true → Text.contains sub s = true.
Proof.
  rewrite !TextFacts.contains_spec. intros (pre & post & E).
  destruct (lstrip_suffix s) as [a Ha].
  exists (a +:+ pre), post. rewrite append_assoc, <- E. exact Ha.
Qed.

Lemma contains_rstrip (sub s : string) :
  Text.contains sub (Text.rstrip s) = true → Text.contains sub s = true.
Proof.
  rewrite !TextFacts.contains_spec. intros (pre & post & E).
  destruct (rstrip_prefix s) as [b Hb].
  exists pre, (post +:+ b). rewrite Hb at 1. rewrite E.
  by rewrite !append_assoc.
Qed.

Lemma contains_strip (sub s : string) :
  Text.contains sub s = false → Text.contains sub (Text.strip s) = false.
Proof.
  intros Hs. apply not_true_is_false. intros H.
  apply contains_rstrip, contains_lstrip in H. congruence.
Qed.

Lemma strip_idem (s : string) : Text.strip (Text.strip s) = Text.strip s.
Proof.
  destruct (TextFacts.strip_shape s) as [Hr Hh].
  unfold Text.strip at 1.
  destruct (Text.strip s) as [|c u] eqn:E; [reflexivity|].
  cbn [Text.lstrip]. by rewrite Hh.
Qed.

(** *** [split] *)

Lemma split_not_nil (c : ascii) (s : string) : PyStr.split c s ≠ [].
Proof.
  induction s as [|d s IH]; simpl; [done|].
  destruct (Ascii.eqb d c); [done|]. by destruct (PyStr.split c s).
Qed.

Lemma split_length (c : ascii) (s : string) :
  length (PyStr.split c s) = S (occurrences c s).
Proof.
  induction s as [|d s IH]; simpl; [done|].
  destruct (Ascii.eqb d c); simpl; [by rewrite IH|].
  pose proof (split_not_nil c s).
  destruct (PyStr.split c s); [done|]. exact IH.
Qed.

Lemma split_parts (c : ascii) (s : string) :
  Forall (λ part, occurrences c part = 0) (PyStr.split c s).
Proof.
  induction s as [|d s IH]; simpl; [by constructor|].
  destruct (Ascii.eqb d c) eqn:E; [by constructor|].
  destruct (PyStr.split c s) as [|p ps]; [constructor; [|done]; simpl; by rewrite E|].
  apply Forall_cons in IH as [Hp Hps]. constructor; [|done].
  simpl. by rewrite E.
Qed.

Lemma occurrences_app (c : ascii) (a b : string) :
  occurrences c (a +:+ b) = occurrences c a + occurrences c b.
Proof.
  induction a as [|d a IH]; [reflexivity|].
  rewrite append_cons. simpl. rewrite IH. lia.
Qed.

Lemma occurrences_lstrip (c : ascii) (s : string) :
  occurrences c s = 0 → occurrences c (Text.lstrip s) = 0.
Proof.
  destruct (lstrip_suffix s) as [a Ha]. intros H. rewrite Ha in H.
  rewrite occurrences_app in H. lia.
Qed.

Lemma occurrences_rstrip (c : ascii) (s : string) :
  occurrences c s = 0 → occurrences c (Text.rstrip s) = 0.
Proof.
  destruct (rstrip_prefix s) as [b Hb]. intros H. rewrite Hb in H.
  rewrite occurrences_app in H. lia.
Qed.

Lemma split_free (c : ascii) (s : string) :
  occurrences c s = 0 → PyStr.split c s = [s].
Proof.
  induction s as [|d s IH]; simpl; [done|].
  destruct (Ascii.eqb d c); [done|]. intros H. by rewrite IH.
Qed.

Lemma split_app_sep (c : ascii) (a rest : string) :
  occurrences c a = 0 →
  PyStr.split c (a +:+ String c rest) = a :: PyStr.split c rest.
Proof.
  induction a as [|d a IH].
  - intros _. change ("" +:+ String c rest) with (String c rest).
    simpl. by rewrite Ascii.eqb_refl.
  - rewrite append_cons. simpl. destruct (Ascii.eqb d c); [done|].
    intros H. by rewrite IH.
Qed.

End StrFacts.

(** X15. The keywords read from an answer are one more than the commas of
    the answer, so that an empty answer gives one keyword, the empty text;
    no keyword has a comma, nor whitespace at either end. *)
Theorem keywords_of_answer_shape (content : string) :
  length (keywords_of_answer content) = S (occurrences "," content)
  ∧ Forall (λ keyword, occurrences "," keyword = 0
                       ∧ Text.strip keyword = keyword)
           (keywords_of_answer content).
Proof.
  unfold keywords_of_answer. split.
  - by rewrite length_map, StrFacts.split_length.
  - apply Forall_fmap. eapply Forall_impl; [apply StrFacts.split_parts|].
    intros part Hp. simpl. split; [|apply StrFacts.strip_idem].
    by apply StrFacts.occurrences_rstrip, StrFacts.occurrences_lstrip.
Qed.

Lemma keywords_round_trip_from (keyword : string) (keywords : list string) :
  Forall (λ k, occurrences "," k = 0 ∧ Text.strip k = k) (keyword :: keywords) →
  map Text.strip (PyStr.split "," (Text.join ", " (keyword :: keywords)))
  = keyword :: keywords.
Proof.
  revert keyword. induction keywords as [|k ks IH]; intros keyword Hall.
  - apply Forall_cons in Hall as [[Hc Hs] _]. cbn [Text.join].
    rewrite StrFacts.split_free by done. cbn [map]. by rewrite Hs.
  - apply Forall_cons in Hall as [[Hc Hs] Hks].
    change (Text.join ", " (keyword :: k :: ks))
      with (keyword +:+ String "," (String " " (Text.join ", " (k :: ks)))).
    rewrite StrFacts.split_app_sep by done. cbn [map]. rewrite Hs. f_equal.
    specialize (IH k Hks). revert IH.
    generalize (Text.join ", " (k :: ks)). intros rest IH.
    cbn [PyStr.split]. change (Ascii.eqb " " ",") with false. cbv iota.
    pose proof (StrFacts.split_not_nil "," rest) as Hne.
    destruct (PyStr.split "," rest) as [|p ps]; [done|].
    cbn [map] in *. injection IH as Hp Hps.
    rewrite <- Hp, <- Hps. reflexivity.
Qed.

(** X16. A list of keywords as [get_keywords] gives them (at least one,
    none with a comma or with whitespace at an end) is read back unchanged
    from the text [tailor_resume] writes it as in its prompt. *)
Theorem keywords_round_trip (keywords : list string) :
  keywords ≠ [] →
  Forall (λ k, occurrences "," k = 0 ∧ Text.strip k = k) keywords →
  keywords_of_answer (keywords_in_prompt keywords) = keywords.
Proof.
  destruct keywords as [|k ks]; [done|]. intros _.
  apply keywords_round_trip_from.
Qed.

Lemma keywords_round_trip_three :
  keywords_of_answer (keywords_in_prompt ["Python"; "CI/CD pipelines"; "AWS"])
  = ["Python"; "CI/CD pipelines"; "AWS"].
Proof.
  apply keywords_round_trip; [discriminate|].
  repeat constructor.
Defined.

Module FenceFacts.
Import StrFacts.

Lemma replace_from_absent (old new s : string) :
  Text.contains old s = false → PyStr.replace_from old new 0 s = s.
Proof.
  induction s as [|c s IH]; [done|].
  cbn [Text.contains PyStr.replace_from]. intros [Hp Hc]%orb_false_iff.
  rewrite Hp. by rewrite IH.
Qed.

Lemma prefix_tick (old : string) (b : ascii) (s : string) :
  String.prefix (String "`" old) (String b s)
  = Ascii.eqb b "`" && String.prefix old s.
Proof.
  cbn [String.prefix]. destruct (ascii_dec "`" b) as [<-|Hne]; [reflexivity|].
  destruct (Ascii.eqb b "`") eqn:E; [|reflexivity].
  apply Ascii.eqb_eq in E. congruence.
Qed.

Lemma prefix_nil (s : string) : String.prefix "" s = true.
Proof. by destruct s. Qed.

Lemma prefix_fence_ticks (s : string) :
  String.prefix "```" s = true ↔ 3 ≤ ticks s.
Proof.
  destruct s as [|a s]; [simpl; split; [done|lia]|].
  rewrite prefix_tick. cbn [ticks].
  destruct (Ascii.eqb a "`"); simpl; [|split; [done|lia]].
  destruct s as [|b s]; [simpl; split; [done|lia]|].
  rewrite prefix_tick. cbn [ticks].
  destruct (Ascii.eqb b "`"); simpl; [|split; [done|lia]].
  destruct s as [|c s]; [simpl; split; [done|lia]|].
  rewrite prefix_tick, prefix_nil. cbn [ticks].
  destruct (Ascii.eqb c "`"); simpl; split; (done || lia).
Qed.

(** Removing the fences keeps the backticks a text starts with, when they
    are fewer than three. *)
Lemma ticks_replace (s : string) :
  ticks s < 3 → ticks (PyStr.replace_from "```" "" 0 s) = ticks s.
Proof.
  induction s as [|c s IH]; [done|]. intros Hlt.
  cbn [PyStr.replace_from].
  destruct (String.prefix "```" (String c s)) eqn:Ep.
  { apply prefix_fence_ticks in Ep. lia. }
  cbn [ticks] in *. destruct (Ascii.eqb c "`"); [|done].
  rewrite IH; [done|lia].
Qed.

Lemma replace_fence_free (s : string) :
  ∀ skip, Text.contains "```" (PyStr.replace_from "```" "" skip s) = false.
Proof.
  induction s as [|c s IH]; intros skip; [done|].
  cbn [PyStr.replace_from]. destruct skip as [|skip]; [|apply IH].
  destruct (String.prefix "```" (String c s)) eqn:Ep.
  { change ("" +:+ ?x) with x. apply IH. }
  cbn [Text.contains]. rewrite IH, orb_false_r.
  apply not_true_is_false. intros Hp%prefix_fence_ticks.
  assert (ticks (String c s) < 3) as Hlt.
  { destruct (le_lt_dec 3 (ticks (String c s))) as [Hge|]; [|done].
    apply prefix_fence_ticks in Hge. congruence. }
  cbn [ticks] in Hp, Hlt. destruct (Ascii.eqb c "`"); [|lia].
  rewrite ticks_replace in Hp by lia. lia.
Qed.

Lemma contains_fence_json (s : string) :
  Text.contains "```" s = false → Text.contains "```json" s = false.
Proof.
  intros Hs. apply not_true_is_false.
  intros (pre & post & ->)%TextFacts.contains_spec.
  assert (Text.contains "```" (pre +:+ "```json" +:+ post) = true); [|congruence].
  apply TextFacts.contains_spec. exists pre, ("json" +:+ post). reflexivity.
Qed.

(** A text without backtick passes through [replace] for an [old] that
    starts with one. *)
Lemma replace_from_tickless (old new body rest : string) :
  occurrences "`" body = 0 →
  PyStr.replace_from (String "`" old) new 0 (body +:+ rest)
  = body +:+ PyStr.replace_from (String "`" old) new 0 rest.
Proof.
  induction body as [|c body IH]; [done|]. rewrite !append_cons.
  cbn [occurrences PyStr.replace_from]. rewrite prefix_tick.
  destruct (Ascii.eqb c "`") eqn:Ec; [done|]. intros Hb.
  cbn [andb]. by rewrite IH.
Qed.

Lemma replace_from_skip (old new a rest : string) :
  PyStr.replace_from old new (String.length a) (a +:+ rest)
  = PyStr.replace_from old new 0 rest.
Proof. induction a as [|c a IH]; [by destruct rest|]. exact IH. Qed.

Lemma replace_from_match (c : ascii) (old new rest : string) :
  PyStr.replace_from (String c old) new 0 (String c old +:+ rest)
  = new +:+ PyStr.replace_from (String c old) new 0 rest.
Proof.
  rewrite append_cons. cbn [PyStr.replace_from].
  assert (String.prefix (String c old) (String c (old +:+ rest)) = true) as ->.
  { apply TextFacts.prefix_spec. by exists rest. }
  cbn [String.length]. rewrite Nat.sub_1_r. cbn [Nat.pred].
  by rewrite replace_from_skip.
Qed.

End FenceFacts.

(** X17. The text given to the JSON parser contains no code fence, whatever
    the answer was. *)
Theorem response_text_has_no_fence (content : string) :
  Text.contains "```" (response_text content) = false.
Proof.
  unfold response_text. apply StrFacts.contains_strip.
  apply FenceFacts.replace_fence_free.
Qed.

(** X18. An answer without code fence is given to the JSON parser as it
    is, without the whitespace around it. *)
Theorem response_text_of_plain_answer (content : string) :
  Text.contains "```" content = false →
  response_text content = Text.strip content.
Proof.
  intros Hc. unfold response_text, PyStr.replace.
  pose proof (StrFacts.contains_strip _ _ Hc) as Hs.
  rewrite (FenceFacts.replace_from_absent "```json")
    by (by apply FenceFacts.contains_fence_json).
  rewrite FenceFacts.replace_from_absent by done.
  apply StrFacts.strip_idem.
Qed.

Lemma response_text_of_plain_answer_object :
  response_text "  {}  " = Text.strip "  {}  ".
Proof. apply response_text_of_plain_answer. reflexivity. Defined.

(** X19. An answer that is a body without backtick between an opening
    fence marked [json] and a closing fence is given to the JSON parser as
    the body, without the whitespace around it. *)
Theorem response_text_of_fenced_answer (body : string) :
  occurrences "`" body = 0 →
  response_text ("```json" +:+ body +:+ "```") = Text.strip body.
Proof.
  intros Hb. unfold response_text, PyStr.replace.
  assert (Text.strip ("```json" +:+ body +:+ "```")
          = "```json" +:+ body +:+ "```") as ->.
  { unfold Text.strip. change (Text.lstrip ("```json" +:+ body +:+ "```"))
      with ("```json" +:+ body +:+ "```").
    assert (∀ x, Text.rstrip (x +:+ "```") = x +:+ "```") as Hr.
    { clear. induction x as [|c x IH]; [reflexivity|].
      rewrite StrFacts.append_cons. cbn [Text.rstrip]. rewrite IH.
      destruct x; reflexivity. }
    change ("```json" +:+ body +:+ "```") with ("```json" +:+ (body +:+ "```")).
    by rewrite <- StrFacts.append_assoc, Hr. }
  rewrite FenceFacts.replace_from_match. change ("" +:+ ?x) with x.
  rewrite FenceFacts.replace_from_tickless by done.
  change (PyStr.replace_from "```json" "" 0 "```") with "```".
  rewrite FenceFacts.replace_from_tickless by done.
  change (PyStr.replace_from "```" "" 0 "```") with "".
  by rewrite StrFacts.append_nil_r.
Qed.

Lemma response_text_of_fenced_answer_list :
  response_text ("```json" +:+ " [1, 2] " +:+ "```") = Text.strip " [1, 2] ".
Proof. apply response_text_of_fenced_answer. reflexivity. Defined.

(** ** Reading the job description *)

Module InputFacts.

Lemma read_step (typed : string) (rest : list string) (count : nat)
    (lines : list string) :
  count < 2 →
  read_job_description (typed :: rest) count lines
  = if blank_line typed
    then read_job_description rest (S count) lines
    else read_job_description rest 0 (lines ++ [Text.strip typed]).
Proof.
  intros Hc. cbn [read_job_description].
  destruct (2 <=? count) eqn:E; [apply Nat.leb_le in E; lia|].
  unfold blank_line. by destruct (Text.truthy (Text.strip typed)).
Qed.

Lemma read_done (stdin : list string) (lines : list string) :
  read_job_description stdin 2 lines = Some (lines, stdin).
Proof. by destruct stdin. Qed.

Lemma read_eof (count : nat) (lines : list string) :
  count < 2 → read_job_description [] count lines = None.
Proof.
  intros Hc. cbn [read_job_description].
  destruct (2 <=? count) eqn:E; [apply Nat.leb_le in E; lia|done].
Qed.

(** Reading through lines in which every blank line is followed by a line
    that is not blank. *)
Lemma read_through (typed : list string) :
  ∀ (count : nat) (lines tail : list string),
    (∀ i l, typed !! i = Some l → blank_line l = true →
            ∃ l', typed !! S i = Some l' ∧ blank_line l' = false) →
    count = 0
    ∨ (count = 1 ∧ ∃ l, head typed = Some l ∧ blank_line l = false) →
    read_job_description (typed ++ tail) count lines
    = read_job_description tail 0
        (lines ++ map Text.strip (List.filter (λ l, negb (blank_line l)) typed)).
Proof.
  induction typed as [|l typed IH]; intros count lines tail Hnext Hcount.
  - destruct Hcount as [-> | (_ & l & [=] & _)]. simpl. by rewrite app_nil_r.
  - assert (count < 2) as Hlt by (destruct Hcount as [-> | [-> _]]; lia).
    change ((l :: typed) ++ tail) with (l :: (typed ++ tail)).
    rewrite read_step by done.
    assert (∀ i l0, typed !! i = Some l0 → blank_line l0 = true →
              ∃ l', typed !! S i = Some l' ∧ blank_line l' = false) as Hnext'.
    { intros i l0 Hi Hb. apply (Hnext (S i) l0 Hi Hb). }
    cbn [List.filter]. destruct (blank_line l) eqn:Eb; cbn [negb].
    + destruct Hcount as [-> | (_ & l0 & [= <-] & Hl0)]; [|congruence].
      apply IH; [done|]. right. split; [done|].
      destruct (Hnext 0 l eq_refl Eb) as (l' & Hl' & Hb').
      exists l'. split; [|done]. by destruct typed.
    + rewrite IH by (done || by left). cbn [map]. by rewrite <- app_assoc.
Qed.

Lemma read_extends (stdin : list string) :
  ∀ (count : nat) (lines result rest : list string),
    read_job_description stdin count lines = Some (result, rest) →
    ∃ more, result = lines ++ more ∧ Forall (λ l, l ≠ "" ∧ Text.strip l = l) more.
Proof.
  induction stdin as [|typed stdin IH]; intros count lines result rest.
  - cbn [read_job_description]. destruct (2 <=? count); [|done].
    intros [= <- <-]. exists []. by rewrite app_nil_r.
  - cbn [read_job_description]. destruct (2 <=? count).
    { intros [= <- <-]. exists []. by rewrite app_nil_r. }
    destruct (Text.truthy (Text.strip typed)) eqn:Et.
    + intros (more & -> & Hmore)%IH. exists (Text.strip typed :: more).
      split; [by rewrite <- app_assoc|]. constructor; [|done].
      split; [by destruct (Text.strip typed)|apply StrFacts.strip_idem].
    + apply IH.
Qed.

Lemma join_not_empty (sep l : string) (ls : list string) :
  l ≠ "" → Text.join sep (l :: ls) ≠ "".
Proof. destruct l; [done|]. intros _. by destruct ls. Qed.

Lemma rstrip_app_fixed (x j : string) :
  Text.rstrip j = j → j ≠ "" → Text.rstrip (x +:+ j) = x +:+ j.
Proof.
  intros Hj Hne. induction x as [|c x IH]; [done|].
  rewrite StrFacts.append_cons. cbn [Text.rstrip]. rewrite IH.
  destruct (x +:+ j) eqn:E; [|done].
  destruct x; [|done]. by destruct Hne.
Qed.

Lemma strip_fixed_parts (l : string) :
  l ≠ "" → Text.strip l = l →
  Text.rstrip l = l ∧ ∃ c u, l = String c u ∧ Text.isspace c = false.
Proof.
  intros Hne Hs. destruct (TextFacts.strip_shape l) as [Hr Hh].
  rewrite Hs in Hr, Hh. split; [done|].
  destruct l as [|c u]; [done|]. eauto.
Qed.

Lemma join_stripped (l : string) (ls : list string) :
  Forall (λ l, l ≠ "" ∧ Text.strip l = l) (l :: ls) →
  Text.strip (Text.join " " (l :: ls)) = Text.join " " (l :: ls).
Proof.
  intros Hall.
  assert (Text.rstrip (Text.join " " (l :: ls)) = Text.join " " (l :: ls)) as Hr.
  { revert l Hall. induction ls as [|l' ls IH]; intros l Hall.
    - apply Forall_cons in Hall as [[Hne Hs] _].
      by apply strip_fixed_parts.
    - apply Forall_cons in Hall as [_ Hall].
      change (Text.join " " (l :: l' :: ls))
        with (l +:+ " " +:+ Text.join " " (l' :: ls)).
      rewrite <- StrFacts.append_assoc. apply rstrip_app_fixed; [by apply IH|].
      apply join_not_empty. by apply Forall_cons in Hall as [[? _] _]. }
  unfold Text.strip.
  apply Forall_cons in Hall as [[Hne Hs] _].
  destruct (strip_fixed_parts l Hne Hs) as (_ & c & u & -> & Hc).
  assert (∃ v, Text.join " " (String c u :: ls) = String c v) as [v Hv].
  { destruct ls; [by exists u|]. eexists. reflexivity. }
  rewrite Hv in *. cbn [Text.lstrip]. by rewrite Hc.
Qed.

End InputFacts.

(** X20. [main] reads lines until two lines in a row are blank. When, in
    what is typed first, every blank line is followed by a line that is not
    blank, and two blank lines follow, the lines kept are those typed first
    that are not blank, each without the whitespace around it and in order;
    what follows the two blank lines is not read. *)
Theorem job_description_read (typed : list string) (blank1 blank2 : string)
    (rest : list string) :
  (∀ i l, typed !! i = Some l → blank_line l = true →
          ∃ l', typed !! S i = Some l' ∧ blank_line l' = false) →
  blank_line blank1 = true →
  blank_line blank2 = true →
  read_job_description (typed ++ blank1 :: blank2 :: rest) 0 []
  = Some (map Text.strip (List.filter (λ l, negb (blank_line l)) typed), rest).
Proof.
  intros Hnext H1 H2.
  rewrite InputFacts.read_through by (done || by left).
  rewrite InputFacts.read_step, H1 by lia.
  rewrite InputFacts.read_step, H2 by lia.
  apply InputFacts.read_done.
Qed.

Lemma job_description_read_two_paragraphs :
  read_job_description
    ["  Senior Engineer "; ""; "Python and AWS"; " "; ""; "not read"] 0 []
  = Some (["Senior Engineer"; "Python and AWS"], ["not read"]).
Proof.
  apply (job_description_read ["  Senior Engineer "; ""; "Python and AWS"]
           " " "" ["not read"]); [|reflexivity..].
  intros [|[|[|i]]] l [= <-] Hb; try discriminate Hb.
  exists "Python and AWS". split; reflexivity.
Defined.

Lemma read_none_iff (stdin : list string) :
  ∀ (count : nat) (lines : list string),
    count < 2 →
    read_job_description stdin count lines = None
    ↔ ¬ ((count = 1 ∧ ∃ l, head stdin = Some l ∧ blank_line l = true)
         ∨ ∃ i a b, stdin !! i = Some a ∧ stdin !! S i = Some b
                    ∧ blank_line a = true ∧ blank_line b = true).
Proof.
  induction stdin as [|typed stdin IH]; intros count lines Hc.
  - rewrite InputFacts.read_eof by done. split; [|done]. intros _.
    intros [(_ & l & [=] & _) | (i & a & b & [=] & _)].
  - rewrite InputFacts.read_step by done.
    destruct (blank_line typed) eqn:Eb.
    + destruct count as [|count].
      * rewrite IH by lia. split.
        -- intros Hn [(Hcount & _) | (i & a & b & Ha & Hb & Hba & Hbb)];
             [done|]. apply Hn. destruct i as [|i].
           ++ left. split; [done|]. exists b. split; [|done].
              simpl in Hb. by destruct stdin.
           ++ right. exists i, a, b. by split_and!.
        -- intros Hn [(_ & l & Hl & Hbl) | (i & a & b & Ha & Hb & Hba & Hbb)];
             apply Hn; right.
           ++ exists 0, typed, l. split_and!; try done.
              simpl. by destruct stdin.
           ++ exists (S i), a, b. by split_and!.
      * assert (count = 0) as -> by lia. rewrite InputFacts.read_done.
        split; [done|]. intros Hn. destruct Hn. left. split; [done|].
        by exists typed.
    + rewrite IH by lia. split.
      * intros Hn [(_ & l & [= <-] & Hbl) | (i & a & b & Ha & Hb & Hba & Hbb)];
          [congruence|]. apply Hn. destruct i as [|i].
        -- simpl in Ha. injection Ha as <-. congruence.
        -- right. exists i, a, b. by split_and!.
      * intros Hn [(Hcount & _) | (i & a & b & Ha & Hb & Hba & Hbb)]; [done|].
        apply Hn. right. exists (S i), a, b. by split_and!.
Qed.

(** X21. Reading the job description ends with [EOFError] exactly when the
    input has no two blank lines in a row. *)
Theorem job_description_eof_iff (stdin : list string) :
  read_job_description stdin 0 [] = None
  ↔ ¬ ∃ i a b, stdin !! i = Some a ∧ stdin !! S i = Some b
               ∧ blank_line a = true ∧ blank_line b = true.
Proof.
  rewrite read_none_iff by lia. split.
  - intros Hn Hex. apply Hn. by right.
  - intros Hn [(Hcount & _) | Hex]; [done|]. by apply Hn.
Qed.

(** X22. A job description that [main] hands over to the tailoring is not
    empty and has no whitespace at either end; [main] stops with
    [Job description cannot be empty] exactly when the first two lines
    typed are blank. *)
Theorem job_description_handed_over (stdin : list string) :
  (∀ job_description,
     job_description_of stdin = Some (Tailor job_description) →
     job_description ≠ "" ∧ Text.strip job_description = job_description)
  ∧ (job_description_of stdin = Some NoDescription
     ↔ ∃ a b rest, stdin = a :: b :: rest
                   ∧ blank_line a = true ∧ blank_line b = true).
Proof.
  unfold job_description_of. split.
  - intros jd.
    destruct (read_job_description stdin 0 []) as [[lines rest]|] eqn:Er;
      [|done].
    apply InputFacts.read_extends in Er as (more & -> & Hmore). simpl.
    destruct (Text.truthy (Text.join " " more)) eqn:Et; [|done].
    intros [= <-]. split; [by destruct (Text.join " " more)|].
    destruct more as [|l ls]; [done|]. by apply InputFacts.join_stripped.
  - split.
    + destruct stdin as [|a stdin]; [done|].
      rewrite InputFacts.read_step by lia.
      destruct (blank_line a) eqn:Ea.
      * destruct stdin as [|b stdin]; [done|].
        rewrite InputFacts.read_step by lia.
        destruct (blank_line b) eqn:Eb; [intros _; by exists a, b, stdin|].
        destruct (read_job_description stdin 0 _) as [[lines rest]|] eqn:Er;
          [|done].
        apply InputFacts.read_extends in Er as (more & -> & _).
        cbn [app]. pose proof (InputFacts.join_not_empty " " (Text.strip b) more) as Hj.
        unfold blank_line in Eb. apply negb_false_iff in Eb.
        destruct (Text.join " " (Text.strip b :: more)); [|done].
        destruct Hj; [|done]. by destruct (Text.strip b).
      * destruct (read_job_description stdin 0 _) as [[lines rest]|] eqn:Er;
          [|done].
        apply InputFacts.read_extends in Er as (more & -> & _).
        cbn [app]. pose proof (InputFacts.join_not_empty " " (Text.strip a) more) as Hj.
        unfold blank_line in Ea. apply negb_false_iff in Ea.
        destruct (Text.join " " (Text.strip a :: more)); [|done].
        destruct Hj; [|done]. by destruct (Text.strip a).
    + intros (a & b & rest & -> & Ha & Hb).
      rewrite InputFacts.read_step, Ha by lia.
      rewrite InputFacts.read_step, Hb by lia.
      by rewrite InputFacts.read_done.
Qed.

Lemma job_description_handed_over_typed :
  "Senior Engineer Python and AWS" ≠ ""
  ∧ Text.strip "Senior Engineer Python and AWS" = "Senior Engineer Python and AWS".
Proof.
  apply (proj1 (job_description_handed_over
                  ["  Senior Engineer "; ""; "Python and AWS"; " "; ""])).
  reflexivity.
Defined.

(** ** Texts read from the document *)

Lemma stripped_texts_stripped (h : heap) (texts : list loc) :
  Forall (λ s, s ≠ "" ∧ Text.strip s = s) (stripped_texts h texts).
Proof.
  induction texts as [|t texts IH]; simpl; [constructor|].
  destruct (ET.text_in h t) as [s|]; [|done].
  destruct (Text.truthy s); simpl; [|done].
  destruct (Text.truthy (Text.strip s)) eqn:Et; [|done].
  constructor; [|done]. split; [by destruct (Text.strip s)|].
  apply StrFacts.strip_idem.
Qed.

Lemma stripped_texts_nil (h : heap) (texts : list loc) :
  stripped_texts h texts = []
  ↔ ∀ t, t ∈ texts → Text.strip (dict_get (ET.text_in h t) "") = "".
Proof.
  induction texts as [|t texts IH]; simpl.
  - split; [|done]. intros _ t Ht. by apply elem_of_nil in Ht.
  - assert ((∀ t0, t0 ∈ t :: texts →
               Text.strip (dict_get (ET.text_in h t0) "") = "")
            ↔ Text.strip (dict_get (ET.text_in h t) "") = ""
              ∧ ∀ t0, t0 ∈ texts →
                  Text.strip (dict_get (ET.text_in h t0) "") = "") as ->.
    { split.
      - intros H. split; [apply H; left|]. intros t0 H0. apply H. by right.
      - intros [H1 H2] t0 [-> | H0]%elem_of_cons; [done|by apply H2]. }
    destruct (ET.text_in h t) as [s|]; simpl; [|by rewrite IH; intuition].
    destruct s as [|c s]; simpl; [by rewrite IH; intuition|].
    destruct (Text.strip (String c s)) eqn:Es; simpl;
      [by rewrite IH; intuition|].
    split; [done|]. by intros [? _].
Qed.

(** X23. The text read from a table, and from a row, has no whitespace at
    either end; it is empty exactly when every text node beneath the
    element has no text or a blank one. *)
Theorem extracted_text_shape (h : heap) (element : loc) :
  ∃ text,
    _extract_table_text element h = (h, Returned text)
    ∧ _extract_row_text element h = (h, Returned text)
    ∧ Text.strip text = text
    ∧ (text = ""
       ↔ ∀ t, t ∈ ET.findall_in h (w "t") element →
              Text.strip (dict_get (ET.text_in h t) "") = "").
Proof.
  exists (raw_table_text h element).
  split; [reflexivity|]. split; [reflexivity|]. unfold raw_table_text.
  pose proof (stripped_texts_stripped h (ET.findall_in h (w "t") element)) as Hs.
  rewrite <- stripped_texts_nil.
  destruct (stripped_texts h (ET.findall_in h (w "t") element)) as [|l ls].
  - split; [reflexivity|]. by split.
  - split.
    + by apply InputFacts.join_stripped.
    + split; [|done]. intros Hj. apply Forall_cons in Hs as [[Hne _] _].
      by destruct (InputFacts.join_not_empty " " l ls Hne).
Qed.

(** X24. A normalized text is in lower case, and its only whitespace is
    single spaces between what they separate: none at either end, no two
    in a row. *)
Theorem normalize_text_shape (text : string) :
  Text.lower (_normalize_text text) = _normalize_text text
  ∧ (_normalize_text text = "" ∨ tidy true (_normalize_text text)).
Proof.
  split; [apply TextFacts.lower_normalize|apply TextFacts.normalize_tidy].
Qed.

(** ** No bullet row to copy *)

(** X25. When the table has no bullet row (its only row was taken for the
    header) and the matched section has a bullet, the rewrite raises
    [IndexError] at [bullet_rows[-1]], before the bullet is looked at, and
    the document is as it was. *)
Theorem no_template_row_raises (h : heap) (table : loc)
    (section : ResumeSection) :
  select_bullet_rows table section h = (h, Returned []) →
  dict_get (sec_bullet_points section) [] ≠ [] →
  _update_table_content table section h = (h, Raised IndexError).
Proof.
  intros Hrows Hb. unfold _update_table_content, bind at 1. rewrite Hrows.
  destruct (dict_get (sec_bullet_points section) []) as [|b bs]; [done|].
  reflexivity.
Qed.

Lemma no_template_row_raises_header_only :
  let d := Sample.table [Sample.bullet_row "Software Engineer, Tech Corp"] in
  _update_table_content (Sample.root_of d)
    (Sample.engineer [{| bullet_text := None; bullet_keywords := None |}])
    (Sample.parsed d)
  = (Sample.parsed d, Raised IndexError).
Proof.
  intros d. apply no_template_row_raises; [reflexivity|discriminate].
Defined.
